(** * rps-simulator: the physics-and-rule engine of [sim.js]

    A shallow embedding of the deterministic core of [src/sim.js]: the beats
    rules, the seeded generator, the entity model with its integration step,
    the spatial hash grid, the narrow-phase resolver and the stepping
    function; with them the seeding, the spawning and the initialisation
    from the controls, the counts and the winner check, the cell size, the
    frame loop and the clamp of the count fields.

    Conventions of the embedding.
    - A JavaScript number that holds a coordinate, a speed or a radius is a
      real number ([R]): rounding, overflow and NaN are not modelled.  Where
      the code may meet a zero divisor, [/] and [%] are parameters of the
      embedding ([narrowPhaseWith], [narrowPhaseOps]), and the frame loop,
      whose number of iterations depends on rounding, takes the rounding
      function as a parameter.  A
      number that holds an integer (an id, a cell index, a 32-bit word) is
      a [Z], with the 32-bit wrap-around of the bit operators written out.
    - A [Map] is an insertion-ordered association list with unique keys
      (module [JsMap]); iteration follows insertion order as in JavaScript.
    - The entity objects live in the list [entities]; a reference to an
      entity (in a grid bucket, in a loop variable) is its index in that
      list, and an in-place mutation writes the list at that index.
    - Module-level [let] variables are fields of the record [World]; values
      read from the page ([speedEl.value], [wallModeEl.value]) are inputs
      of [step].
    - A count field holds an integer once [clampInput] has run on it;
      [initFromControls] reads the fields as integers.  [String(n)] and
      [Number(s)] are the decimal conversions of the Standard Library, for
      integers of magnitude below 10^21.
    - [TypeRegistry[e.t].id] on an index outside the registry reads a
      property of [undefined] and throws: functions that evaluate it return
      an [option], [None] standing for the exception. *)

From Stdlib Require Import Reals Lra ZArith Lia List String Ascii Bool.
From Stdlib Require Import Decimal DecimalString DecimalZ DecimalPos.
From stdpp Require Import base decidable list strings.
Import ListNotations.

Local Open Scope string_scope.
Local Open Scope Z_scope.

(** ** JavaScript [Map]: insertion-ordered, unique keys *)

Module JsMap.
Section Defs.
Context {K V : Type} `{EqDecision K}.

Definition t := list (K * V).

Fixpoint get (m : t) (k : K) : option V :=
    match m with
    | [] => None
    | (k', v) :: m' => if decide (k' = k) then Some v else get m' k
    end.

  (** [m.set(k, v)]: overwrite in place when the key exists, append otherwise. *)
Fixpoint set (m : t) (k : K) (v : V) : t :=
    match m with
    | [] => [(k, v)]
    | (k', v') :: m' =>
        if decide (k' = k) then (k', v) :: m' else (k', v') :: set m' k v
    end.

  (** [new Map(entries)] *)
Definition of_entries (es : list (K * V)) : t :=
    fold_left (fun m kv => set m (fst kv) (snd kv)) es [].
End Defs.
Arguments t : clear implicits.
End JsMap.

(** ** Types (registry) *)

(** An entry of the registry, without its [draw] method (rendering). *)
Module TypeDef.
Record TypeDef := { id : string; label : string; cssVar : string }.
End TypeDef.
Abbreviation TypeDef := TypeDef.TypeDef.

Definition TypeRegistry : list TypeDef :=
  [ {| TypeDef.id := "circle";   TypeDef.label := "Circles (Rock)";
       TypeDef.cssVar := "--circle" |};
    {| TypeDef.id := "square";   TypeDef.label := "Squares (Paper)";
       TypeDef.cssVar := "--square" |};
    {| TypeDef.id := "triangle"; TypeDef.label := "Triangles (Scissors)";
       TypeDef.cssVar := "--triangle" |};
    {| TypeDef.id := "lizard";   TypeDef.label := "Lizards";
       TypeDef.cssVar := "--lizard" |};
    {| TypeDef.id := "spock";    TypeDef.label := "Spocks";
       TypeDef.cssVar := "--spock" |} ].

Definition TypeIds : list string := map TypeDef.id TypeRegistry.

(** ** Beats rules *)

(** A [Set] of strings: [has] is all the rules use, besides [forEach]. *)
Definition JsSet := list string.

Definition Set_has (s : JsSet) (x : string) : bool :=
  existsb (String.eqb x) s.

(** [new Set(arr)]: first occurrences, in order. *)
Fixpoint Set_of (arr : list string) : JsSet :=
  match arr with
  | [] => []
  | x :: rest => x :: List.filter (fun y => negb (String.eqb x y)) (Set_of rest)
  end.

Definition beats : list (string * list string) :=
  [ ("circle",   ["triangle"; "lizard"]);
    ("square",   ["circle"; "spock"]);
    ("triangle", ["square"; "lizard"]);
    ("lizard",   ["spock"; "square"]);
    ("spock",    ["triangle"; "circle"]) ].

Definition BeatsMap := JsMap.t string JsSet.

Definition beatsMap : BeatsMap :=
  JsMap.of_entries (map (fun kv => (fst kv, Set_of (snd kv))) beats).

(** [m.get(k)?.has(x)]: [undefined] (falsy) when the key is absent. *)
Definition get_has (m : BeatsMap) (k x : string) : bool :=
  match JsMap.get m k with
  | Some s => Set_has s x
  | None => false
  end.

Inductive RuleError :=
| UnknownType (a : string)
| UnknownTarget (b a : string)
| SelfBeat (a : string)
| Conflict (a b : string).

(** A loop whose body may throw: the first error ends it. *)
Fixpoint firstError {A} (body : A -> option RuleError) (l : list A)
  : option RuleError :=
  match l with
  | [] => None
  | x :: l' =>
      match body x with
      | Some e => Some e
      | None => firstError body l'
      end
  end.

(** [validateRules]: [None] when it returns, [Some e] when it throws [e]. *)
Definition validateRules (TypeIds : list string) (beatsMap : BeatsMap)
  : option RuleError :=
  let ids := Set_of TypeIds in
  firstError (fun entry : string * JsSet =>
    let (a, outs) := entry in
    if negb (Set_has ids a) then Some (UnknownType a)
    else firstError (fun b =>
           if negb (Set_has ids b) then Some (UnknownTarget b a)
           else if String.eqb b a then Some (SelfBeat a)
           else if get_has beatsMap b a then Some (Conflict a b)
           else None) outs) beatsMap.

Definition winnerOf (beatsMap : BeatsMap) (aId bId : string) : option string :=
  if String.eqb aId bId then None
  else if get_has beatsMap aId bId then Some aId
  else if get_has beatsMap bId aId then Some bId
  else None.

(** "A's defeat-set contains B". *)
Definition defeats (m : BeatsMap) (a b : string) : Prop :=
  exists s, JsMap.get m a = Some s /\ In b s.

(** ** RNG *)

Definition MAX_ENTITIES_PER_TYPE : Z := 500.
Definition MAX_SEED_LEN : nat := 128.
Definition MAX_TOTAL_ENTITIES : Z := 1200.

(** A JavaScript string as its sequence of UTF-16 code units, which is what
    [charCodeAt] reads. *)
Definition JsString := list Z.

Definition charCodes (s : string) : JsString :=
  map (fun c => Z.of_N (N_of_ascii c)) (list_ascii_of_string s).

(** The conversions the bit operators apply to their operands. *)
Definition ToUint32 (z : Z) : Z := z mod 2 ^ 32.

Definition ToInt32 (z : Z) : Z :=
  let u := z mod 2 ^ 32 in if u <? 2 ^ 31 then u else u - 2 ^ 32.

(** [Math.imul], [^], [|], [>>>] *)
Definition imul (a b : Z) : Z := ToInt32 (ToInt32 a * ToInt32 b).
Definition xor32 (a b : Z) : Z := Z.lxor (ToInt32 a) (ToInt32 b).
Definition or32 (a b : Z) : Z := Z.lor (ToInt32 a) (ToInt32 b).
Definition ushr32 (a n : Z) : Z := Z.shiftr (ToUint32 a) (n mod 32).

(** Addition of two non-negative integer-valued numbers in binary64: exact
    below 2^53, rounded to 53 significant bits (nearest, ties to even)
    above.  [mulberry32] never wraps its counter [a], so the counter leaves
    the exact range after enough calls. *)
Definition roundInt53 (z : Z) : Z :=
  if z <? 2 ^ 53 then z
  else
    let e := Z.log2 z - 52 in
    let q := z / 2 ^ e in
    let r := z mod 2 ^ e in
    let half := 2 ^ (e - 1) in
    if r <? half then q * 2 ^ e
    else if half <? r then (q + 1) * 2 ^ e
    else if Z.even q then q * 2 ^ e else (q + 1) * 2 ^ e.

Definition xfnv1a (str : JsString) : Z :=
  ToUint32
    (fold_left (fun h c => imul (xor32 h c) 0x01000193) str 0x811c9dc5).

(** One call of the closure [mulberry32(a)] returns: the 32-bit numerator of
    the result and the closure's new [a]. *)
Definition mulberry32_call (a : Z) : Z * Z :=
  let a := roundInt53 (a + 0x6D2B79F5) in
  let t := a in
  let t := imul (xor32 t (ushr32 t 15)) (or32 t 1) in
  let t := xor32 t (t + imul (xor32 t (ushr32 t 7)) (or32 t 61)) in
  (ToUint32 (xor32 t (ushr32 t 14)), a).

(** The closure [mulberry32(a)] is its captured variable [a]. *)
Definition Rng := Z.
Definition mulberry32 (a : Z) : Rng := a.

(** [rng()] *)
Definition rng_next (g : Rng) : R * Rng :=
  let (u, g') := mulberry32_call g in ((IZR u / 4294967296)%R, g').

(** The first [n] results of a stream. *)
Fixpoint outputs (n : nat) (g : Rng) : list R :=
  match n with
  | O => []
  | S n' => let (x, g') := rng_next g in x :: outputs n' g'
  end.

(** [setSeed]: the seed kept and the stream built from it. *)
Definition setSeed (str : JsString) : JsString * Rng :=
  let safe := firstn MAX_SEED_LEN str in
  (safe, mulberry32 (xfnv1a safe)).

(** Two closures, each holding its own [a], called in any interleaving: the
    schedule says which closure each call goes to ([false]: the first). *)
Fixpoint runTwo (sched : list bool) (g1 g2 : Rng) : list R * list R :=
  match sched with
  | [] => ([], [])
  | false :: rest =>
      let (x, g1') := rng_next g1 in
      let (o1, o2) := runTwo rest g1' g2 in (x :: o1, o2)
  | true :: rest =>
      let (x, g2') := rng_next g2 in
      let (o1, o2) := runTwo rest g1 g2' in (o1, x :: o2)
  end.

(** ** Numbers *)

Local Open Scope R_scope.

(** [%] on numbers: the remainder has the sign of the dividend. *)
Definition Ztrunc (u : R) : Z := if Rle_dec 0 u then Zfloor u else Zceil u.
Definition Rrem (n m : R) : R := n - m * IZR (Ztrunc (n / m)).

(** [const mod = (n, m) => ((n % m) + m) % m], on coordinates and on cell
    indices. *)
Definition mod_ (n m : R) : R := Rrem (Rrem n m + m) m.
Definition modZ (n m : Z) : Z := Z.rem (Z.rem n m + m) m.

Definition clampIdx (ix max : Z) : Z := Z.max 0 (Z.min ix max).

(** ** Entity *)

(** Physics constants (px/s and unitless) *)
Definition REST : R := 1.
Definition VMAX : R := 600.
Definition EPS : R := 1 / 1000.

Module Entity.
Record Entity := mk {
    _id : Z;
    t : nat;              (* index into TypeRegistry *)
    x : R; y : R; r : R; vx : R; vy : R;
    mass : R; side : R; base : R
  }.

Definition set_t (v : nat) (e : Entity) : Entity :=
    mk (_id e) v (x e) (y e) (r e) (vx e) (vy e) (mass e) (side e) (base e).
Definition set_x (v : R) (e : Entity) : Entity :=
    mk (_id e) (t e) v (y e) (r e) (vx e) (vy e) (mass e) (side e) (base e).
Definition set_y (v : R) (e : Entity) : Entity :=
    mk (_id e) (t e) (x e) v (r e) (vx e) (vy e) (mass e) (side e) (base e).
Definition set_vx (v : R) (e : Entity) : Entity :=
    mk (_id e) (t e) (x e) (y e) (r e) v (vy e) (mass e) (side e) (base e).
Definition set_vy (v : R) (e : Entity) : Entity :=
    mk (_id e) (t e) (x e) (y e) (r e) (vx e) v (mass e) (side e) (base e).

  (** [constructor(typeIndex, x, y, r, vx, vy)], given the value of
      [ENTITY_ID] it reads. *)
Definition new (ENTITY_ID : Z) (typeIndex : nat) (x y r vx vy : R) : Entity :=
    mk ENTITY_ID typeIndex x y r vx vy (r * r) (r * sqrt 2) (r * 2).
End Entity.
Abbreviation Entity := Entity.Entity.

(** The functions that [narrowPhase] reaches take the division operator [/]
    as a parameter [div]: the simulation runs them with the division of the
    reals, and a statement that quantifies over [div] speaks of the
    divisors they meet. *)
Definition clampVelWith (div : R -> R -> R) (e : Entity) : Entity :=
  let v2 := Entity.vx e * Entity.vx e + Entity.vy e * Entity.vy e in
  if Rgt_dec v2 (VMAX * VMAX) then
    let s := div VMAX (sqrt v2) in
    Entity.set_vy (Entity.vy e * s) (Entity.set_vx (Entity.vx e * s) e)
  else e.

Definition clampVel : Entity -> Entity := clampVelWith Rdiv.

(** The walls of the bounce mode, one [if] after the other. *)
Definition bounceWalls (w h : R) (e : Entity) : Entity :=
  let e := if Rlt_dec (Entity.x e - Entity.r e) 0
           then Entity.set_vx (Rabs (Entity.vx e)) (Entity.set_x (Entity.r e) e)
           else e in
  let e := if Rgt_dec (Entity.x e + Entity.r e) w
           then Entity.set_vx (- Rabs (Entity.vx e))
                  (Entity.set_x (w - Entity.r e) e)
           else e in
  let e := if Rlt_dec (Entity.y e - Entity.r e) 0
           then Entity.set_vy (Rabs (Entity.vy e)) (Entity.set_y (Entity.r e) e)
           else e in
  let e := if Rgt_dec (Entity.y e + Entity.r e) h
           then Entity.set_vy (- Rabs (Entity.vy e))
                  (Entity.set_y (h - Entity.r e) e)
           else e in
  e.

(** [Entity.update(w, h, dt, spd, wrap)] *)
Definition update (w h dt spd : R) (wrap : bool) (e : Entity) : Entity :=
  let adv := dt * spd in
  let e := Entity.set_y (Entity.y e + Entity.vy e * adv)
             (Entity.set_x (Entity.x e + Entity.vx e * adv) e) in
  let e := if wrap
           then Entity.set_y (mod_ (Entity.y e) h)
                  (Entity.set_x (mod_ (Entity.x e) w) e)
           else bounceWalls w h e in
  clampVel e.

(** ** Simulation state *)

Record World := mkWorld {
  VIEW_W : R; VIEW_H : R;
  CELL : R; GW : Z; GH : Z; WRAP_ACTIVE : bool;
  entities : list Entity;
  ENTITY_ID : Z;
  rng : Rng
}.

Definition set_entities (es : list Entity) (w : World) : World :=
  mkWorld (VIEW_W w) (VIEW_H w) (CELL w) (GW w) (GH w) (WRAP_ACTIVE w)
          es (ENTITY_ID w) (rng w).
Definition set_WRAP_ACTIVE (b : bool) (w : World) : World :=
  mkWorld (VIEW_W w) (VIEW_H w) (CELL w) (GW w) (GH w) b
          (entities w) (ENTITY_ID w) (rng w).
Definition set_rng (g : Rng) (w : World) : World :=
  mkWorld (VIEW_W w) (VIEW_H w) (CELL w) (GW w) (GH w) (WRAP_ACTIVE w)
          (entities w) (ENTITY_ID w) g.
Definition set_grid_dims (gw gh : Z) (w : World) : World :=
  mkWorld (VIEW_W w) (VIEW_H w) (CELL w) gw gh (WRAP_ACTIVE w)
          (entities w) (ENTITY_ID w) (rng w).

(** [entities.push(new Entity(...))], with the [ENTITY_ID++] of the
    constructor. *)
Definition pushEntity (typeIndex : nat) (x y r vx vy : R) (w : World) : World :=
  mkWorld (VIEW_W w) (VIEW_H w) (CELL w) (GW w) (GH w) (WRAP_ACTIVE w)
          (entities w ++ [Entity.new (ENTITY_ID w) typeIndex x y r vx vy])%list
          (ENTITY_ID w + 1) (rng w).

(** ** RNG helpers and spawning *)

Definition rand (min max : R) (g : Rng) : R * Rng :=
  let (u, g) := rng_next g in (u * (max - min) + min, g).

Definition randVel (g : Rng) : (R * R) * Rng :=
  let (u, g) := rng_next g in
  let angle := u * PI * 2 in
  let (m, g) := rand (8 / 10) 2 g in
  let mag := m * 60 in
  ((cos angle * mag, sin angle * mag), g).

Definition overlapsAny (entities : list Entity) (x y r : R) : bool :=
  existsb (fun e =>
    let dx := x - Entity.x e in
    let dy := y - Entity.y e in
    if Rlt_dec (dx * dx + dy * dy) ((r + Entity.r e) * (r + Entity.r e))
    then true else false) entities.

(** The [do ... while (overlapsAny(x, y, radius) && ++tries < maxTries)] of
    [spawn]: [retries] is [maxTries - 1 - tries], the number of times the
    body may still be repeated. *)
Fixpoint tryPlace (retries : nat) (w : World) (radius : R) (g : Rng)
  : (R * R) * Rng :=
  let (x, g) := rand (radius + 2) (VIEW_W w - radius - 2) g in
  let (y, g) := rand (radius + 2) (VIEW_H w - radius - 2) g in
  if overlapsAny (entities w) x y radius then
    match retries with
    | S k => tryPlace k w radius g
    | O => ((x, y), g)
    end
  else ((x, y), g).

Definition maxTries : nat := 50.

(** One iteration of the [for] loop of [spawn]. *)
Definition spawnOne (typeIndex : nat) (radius : R) (w : World) : World :=
  let '((vx, vy), g) := randVel (rng w) in
  let '((x, y), g) := tryPlace (maxTries - 1) w radius g in
  pushEntity typeIndex x y radius vx vy (set_rng g w).

(** [spawn(typeIndex, n, radius)], for an integer [n]: the loop
    [for (let i = 0; i < n; i++)] runs [n] times, none when [n <= 0]. *)
Definition spawn (typeIndex : nat) (n : Z) (radius : R) (w : World) : World :=
  let n := Z.min n MAX_ENTITIES_PER_TYPE in
  Nat.iter (Z.to_nat n) (spawnOne typeIndex radius) w.

(** [clearAll], on the simulation state. *)
Definition clearAll (w : World) : World := set_entities [] w.

(** ** Collisions (grid) *)

(** The grid maps a cell key to its bucket, an array of entity references.
    [cellKey(ix, iy)] is the string [ix + '|' + iy], read back by
    [k.split('|').map(Number)]: the key is the pair of cell coordinates. *)
Definition Grid := JsMap.t (Z * Z) (list nat).

Definition cellKey (ix iy : Z) : Z * Z := (ix, iy).

(** [computeGridDims] *)
Definition computeGridDims (w : World) : World :=
  set_grid_dims (Z.max 1 (Zceil (VIEW_W w / CELL w)))
                (Z.max 1 (Zceil (VIEW_H w / CELL w))) w.

(** The values of [for (let i = lo; i <= hi; i++)]. *)
Definition fromTo (lo hi : Z) : list Z :=
  map (fun k => (lo + Z.of_nat k)%Z) (seq 0 (Z.to_nat (hi - lo + 1))).

(** [let b = grid.get(k); if (!b) { b = []; grid.set(k, b) } b.push(e)] *)
Definition bucketPush (grid : Grid) (k : Z * Z) (ref : nat) : Grid :=
  match JsMap.get grid k with
  | Some b => JsMap.set grid k (b ++ [ref])%list
  | None => JsMap.set grid k [ref]
  end.

(** [insertIntoGrid(e)], [ref] being the reference to [e]. *)
Definition insertIntoGrid (w : World) (grid : Grid) (ref : nat) (e : Entity)
  : Grid :=
  let minx := Zfloor ((Entity.x e - Entity.r e) / CELL w) in
  let maxx := Zfloor ((Entity.x e + Entity.r e) / CELL w) in
  let miny := Zfloor ((Entity.y e - Entity.r e) / CELL w) in
  let maxy := Zfloor ((Entity.y e + Entity.r e) / CELL w) in
  fold_left (fun grid iy =>
    fold_left (fun grid ix =>
      let gx := if WRAP_ACTIVE w then modZ ix (GW w)
                else clampIdx ix (GW w - 1) in
      let gy := if WRAP_ACTIVE w then modZ iy (GH w)
                else clampIdx iy (GH w - 1) in
      bucketPush grid (cellKey gx gy) ref)
      (fromTo minx maxx) grid)
    (fromTo miny maxy) grid.

(** [grid.clear(); for (const e of entities) insertIntoGrid(e)] *)
Definition buildGrid (w : World) : Grid :=
  fold_left (fun grid ie => insertIntoGrid w grid (fst ie) (snd ie))
            (combine (seq 0 (length (entities w))) (entities w)) [].

Definition periodicDeltaWith (div : R -> R -> R) (w : World)
  (ax ay bx by_ : R) : R * R :=
  let dx := bx - ax in
  let dy := by_ - ay in
  if WRAP_ACTIVE w then
    (if Rgt_dec dx (div (VIEW_W w) 2) then dx - VIEW_W w
     else if Rlt_dec dx (div (- VIEW_W w) 2) then dx + VIEW_W w else dx,
     if Rgt_dec dy (div (VIEW_H w) 2) then dy - VIEW_H w
     else if Rlt_dec dy (div (- VIEW_H w) 2) then dy + VIEW_H w else dy)
  else (dx, dy).

Definition periodicDelta : World -> R -> R -> R -> R -> R * R :=
  periodicDeltaWith Rdiv.

(** A string is falsy exactly when it is empty. *)
Definition truthy (s : string) : bool := negb (String.eqb s "").

(** "Determine winner via beats map (ids)": the conversion block of
    [narrowPhase]. *)
Definition convert (a b : Entity) : option (Entity * Entity) :=
  match TypeRegistry !! Entity.t a, TypeRegistry !! Entity.t b with
  | Some ta, Some tb =>
      let aId := TypeDef.id ta in
      let bId := TypeDef.id tb in
      match winnerOf beatsMap aId bId with
      | Some winId =>
          if truthy winId then
            if String.eqb winId aId
            then Some (a, Entity.set_t (Entity.t a) b)
            else Some (Entity.set_t (Entity.t b) a, b)
          else Some (a, b)
      | None => Some (a, b)
      end
  | _, _ => None
  end.

(** [Math.sqrt(dist2) || 0.0001] *)
Definition contactDist (dist2 : R) : R :=
  if Req_dec_T (sqrt dist2) 0 then 1 / 10000 else sqrt dist2.

(** "Separation": both entities are pushed apart along the normal, then
    wrapped in wrap mode. *)
Definition separateWith (div : R -> R -> R) (w : World) (nx ny overlap : R)
  (a b : Entity) : Entity * Entity :=
  let a := Entity.set_y (Entity.y a - div (ny * overlap) 2)
             (Entity.set_x (Entity.x a - div (nx * overlap) 2) a) in
  let b := Entity.set_y (Entity.y b + div (ny * overlap) 2)
             (Entity.set_x (Entity.x b + div (nx * overlap) 2) b) in
  if WRAP_ACTIVE w then
    (Entity.set_y (mod_ (Entity.y a) (VIEW_H w))
       (Entity.set_x (mod_ (Entity.x a) (VIEW_W w)) a),
     Entity.set_y (mod_ (Entity.y b) (VIEW_H w))
       (Entity.set_x (mod_ (Entity.x b) (VIEW_W w)) b))
  else (a, b).

(** "1D elastic along normal with restitution", then the clamp. *)
Definition bounceWith (div : R -> R -> R) (nx ny : R) (a b : Entity)
  : Entity * Entity :=
  let va := Entity.vx a * nx + Entity.vy a * ny in
  let vb := Entity.vx b * nx + Entity.vy b * ny in
  let ma := Entity.mass a in
  let mb := Entity.mass b in
  let vaAfter := div (va * (ma - mb) + 2 * mb * vb) (ma + mb) in
  let vbAfter := div (vb * (mb - ma) + 2 * ma * va) (ma + mb) in
  let dvA := (vaAfter - va) * REST in
  let dvB := (vbAfter - vb) * REST in
  let a := Entity.set_vy (Entity.vy a + dvA * ny)
             (Entity.set_vx (Entity.vx a + dvA * nx) a) in
  let b := Entity.set_vy (Entity.vy b + dvB * ny)
             (Entity.set_vx (Entity.vx b + dvB * nx) b) in
  (clampVelWith div a, clampVelWith div b).

(** [narrowPhase(a, b)]: the two entities as it leaves them. *)
Definition narrowPhaseWith (div : R -> R -> R) (w : World) (a b : Entity)
  : option (Entity * Entity) :=
  let (dx, dy) :=
    periodicDeltaWith div w
      (Entity.x a) (Entity.y a) (Entity.x b) (Entity.y b) in
  let minDist := Entity.r a + Entity.r b in
  let dist2 := dx * dx + dy * dy in
  if Rgt_dec dist2 (minDist * minDist) then Some (a, b)
  else
    match convert a b with
    | None => None
    | Some (a, b) =>
        let dist := contactDist dist2 in
        let nx := div dx dist in
        let ny := div dy dist in
        let overlap := Rmax 0 ((minDist - dist) + EPS) in
        let (a, b) := separateWith div w nx ny overlap a b in
        Some (bounceWith div nx ny a b)
    end.

Definition separate : World -> R -> R -> R -> Entity -> Entity
                      -> Entity * Entity := separateWith Rdiv.
Definition bounce : R -> R -> Entity -> Entity -> Entity * Entity :=
  bounceWith Rdiv.
Definition narrowPhase : World -> Entity -> Entity -> option (Entity * Entity) :=
  narrowPhaseWith Rdiv.

(** [mod] with its [%] as a parameter. *)
Definition modWith (rem : R -> R -> R) (n m : R) : R := rem (rem n m + m) m.

(** The separation and [narrowPhase] with both [/] and [%] as parameters:
    [separateWith] and [narrowPhaseWith] with [mod] taken through
    [modWith]. *)
Definition separateOps (div rem : R -> R -> R) (w : World)
  (nx ny overlap : R) (a b : Entity) : Entity * Entity :=
  let a := Entity.set_y (Entity.y a - div (ny * overlap) 2)
             (Entity.set_x (Entity.x a - div (nx * overlap) 2) a) in
  let b := Entity.set_y (Entity.y b + div (ny * overlap) 2)
             (Entity.set_x (Entity.x b + div (nx * overlap) 2) b) in
  if WRAP_ACTIVE w then
    (Entity.set_y (modWith rem (Entity.y a) (VIEW_H w))
       (Entity.set_x (modWith rem (Entity.x a) (VIEW_W w)) a),
     Entity.set_y (modWith rem (Entity.y b) (VIEW_H w))
       (Entity.set_x (modWith rem (Entity.x b) (VIEW_W w)) b))
  else (a, b).

Definition narrowPhaseOps (div rem : R -> R -> R) (w : World) (a b : Entity)
  : option (Entity * Entity) :=
  let (dx, dy) :=
    periodicDeltaWith div w
      (Entity.x a) (Entity.y a) (Entity.x b) (Entity.y b) in
  let minDist := Entity.r a + Entity.r b in
  let dist2 := dx * dx + dy * dy in
  if Rgt_dec dist2 (minDist * minDist) then Some (a, b)
  else
    match convert a b with
    | None => None
    | Some (a, b) =>
        let dist := contactDist dist2 in
        let nx := div dx dist in
        let ny := div dy dist in
        let overlap := Rmax 0 ((minDist - dist) + EPS) in
        let (a, b) := separateOps div rem w nx ny overlap a b in
        Some (bounceWith div nx ny a b)
    end.

(** The nine cells [handleCollisionsGrid] visits around a cell, as
    [(dx, dy)], in the order of its two loops. *)
Definition neighbourhood : list (Z * Z) :=
  flat_map (fun dy => map (fun dx => (dx, dy)) [-1; 0; 1]%Z) [-1; 0; 1]%Z.

(** The pairs of references one bucket and one neighbour bucket hand to
    [narrowPhase], in the order of the two inner loops. *)
Definition bucketPairs (es : list Entity) (bucket nb : list nat)
  : list (nat * nat) :=
  flat_map (fun a =>
    flat_map (fun b =>
      match es !! a, es !! b with
      | Some ea, Some eb =>
          if Nat.eqb a b then []
          else if (Entity._id ea >? Entity._id eb)%Z then []
          else [(a, b)]
      | _, _ => []
      end) nb) bucket.

(** The calls [narrowPhase(a, b)] of one pass of [handleCollisionsGrid], in
    order.  The loops range over the grid and compare ids; [narrowPhase]
    writes neither, so the calls of a pass are fixed once the grid is
    built. *)
Definition narrowPhaseCalls (w : World) (grid : Grid) : list (nat * nat) :=
  flat_map (fun entry : (Z * Z) * list nat =>
    let '((cx, cy), bucket) := entry in
    flat_map (fun d : Z * Z =>
      let (dx, dy) := d in
      let nx := if WRAP_ACTIVE w then modZ (cx + dx) (GW w) else (cx + dx)%Z in
      let ny := if WRAP_ACTIVE w then modZ (cy + dy) (GH w) else (cy + dy)%Z in
      if ((nx <? 0) || (ny <? 0) || (GW w <=? nx) || (GH w <=? ny))%Z then []
      else
        match JsMap.get grid (cellKey nx ny) with
        | None => []
        | Some nb => bucketPairs (entities w) bucket nb
        end) neighbourhood) grid.

(** One call [narrowPhase(a, b)] on the entity list: both objects are
    mutated in place. *)
Definition resolvePair (w : World) (es : list Entity) (ab : nat * nat)
  : option (list Entity) :=
  let (i, j) := ab in
  match es !! i, es !! j with
  | Some a, Some b =>
      match narrowPhase w a b with
      | Some (a', b') => Some (<[j := b']> (<[i := a']> es))
      | None => None
      end
  | _, _ => Some es
  end.

(** A loop over [l] whose body may throw. *)
Fixpoint foldM {A S} (body : S -> A -> option S) (l : list A) (s : S)
  : option S :=
  match l with
  | [] => Some s
  | x :: l' =>
      match body s x with
      | Some s' => foldM body l' s'
      | None => None
      end
  end.

Definition handleCollisionsGrid (w : World) : option World :=
  let grid := buildGrid w in
  match foldM (resolvePair w) (narrowPhaseCalls w grid) (entities w) with
  | Some es => Some (set_entities es w)
  | None => None
  end.

(** ** Stepping *)

(** What [step] reads from the page. *)
Record Controls := { speedEl_value : R; wallModeEl_value : string }.

(** The first half of [step]: the mode is read and every entity is
    integrated. *)
Definition integrate (dt : R) (ui : Controls) (w : World) : World :=
  let spd := speedEl_value ui in
  let wrap := String.eqb (wallModeEl_value ui) "wrap" in
  let w := set_WRAP_ACTIVE wrap w in
  set_entities
    (map (update (VIEW_W w) (VIEW_H w) dt spd wrap) (entities w)) w.

Definition step (dt : R) (ui : Controls) (w : World) : option World :=
  handleCollisionsGrid (integrate dt ui w).

(** Consecutive calls of [step], one per element of [inputs]. *)
Definition steps (inputs : list (R * Controls)) (w : World) : option World :=
  foldM (fun w i => step (fst i) (snd i) w) inputs w.

(** ** Auxiliary definitions of the statements *)

(** Number of calls a schedule sends to one of the two closures. *)
Definition callsTo (which : bool) (sched : list bool) : nat :=
  length (List.filter (Bool.eqb which) sched).

(** An empty 800 x 600 arena with the default seed. *)
Definition emptyWorld : World :=
  {| VIEW_W := 800; VIEW_H := 600; CELL := 40; GW := 20; GH := 15;
     WRAP_ACTIVE := false; entities := []; ENTITY_ID := 1;
     rng := mulberry32 (xfnv1a (charCodes "rps-12345")) |}.

(** An entity whose type index is an index of the registry. *)
Definition valid_type (e : Entity) : Prop :=
  (Entity.t e < length TypeRegistry)%nat.

(** The speed of an entity is at most [VMAX]. *)
Definition speed_ok (e : Entity) : Prop :=
  sqrt (Entity.vx e * Entity.vx e + Entity.vy e * Entity.vy e) <= VMAX.

(** Boundary containment, in wrap mode and in bounce mode. *)
Definition in_torus (w h : R) (e : Entity) : Prop :=
  (0 <= Entity.x e < w) /\ (0 <= Entity.y e < h).

Definition in_walls (w h : R) (e : Entity) : Prop :=
  (Entity.r e <= Entity.x e <= w - Entity.r e) /\
  (Entity.r e <= Entity.y e <= h - Entity.r e).

(** Two states of one entity that differ at most in the type tag. *)
Definition same_but_type (e e' : Entity) : Prop :=
  e' = Entity.set_t (Entity.t e') e.

(** Two states of one entity with the same identity and body: id, radius,
    mass and shape parameters. *)
Definition same_body (e e' : Entity) : Prop :=
  Entity._id e' = Entity._id e /\ Entity.r e' = Entity.r e /\
  Entity.mass e' = Entity.mass e /\ Entity.side e' = Entity.side e /\
  Entity.base e' = Entity.base e.

(** How many times one pass of [handleCollisionsGrid] hands the unordered
    pair of the entities [i] and [j] to [narrowPhase]. *)
Definition timesResolved (w : World) (i j : nat) : nat :=
  length (List.filter
            (fun c : nat * nat =>
               (Nat.eqb (fst c) i && Nat.eqb (snd c) j)
               || (Nat.eqb (fst c) j && Nat.eqb (snd c) i))
            (narrowPhaseCalls w (buildGrid w))).

(** Two overlapping discs of radius 17 at rest in an 800 x 600 arena with
    walls, the left one touching the left wall; both lie in cell (0, 0). *)
Definition atTheWall : World :=
  {| VIEW_W := 800; VIEW_H := 600; CELL := 40; GW := 20; GH := 15;
     WRAP_ACTIVE := false;
     entities := [ Entity.new 1 0 17 20 17 0 0; Entity.new 2 1 22 20 17 0 0 ];
     ENTITY_ID := 3;
     rng := mulberry32 (xfnv1a (charCodes "rps-12345")) |}.

(** The same arena with three discs of radius 17 at rest in a row: the
    first two lie across the border of the cells (0, 0) and (1, 0), the
    third in cell (1, 0). *)
Definition cluster : World :=
  {| VIEW_W := 800; VIEW_H := 600; CELL := 40; GW := 20; GH := 15;
     WRAP_ACTIVE := false;
     entities := [ Entity.new 1 0 30 20 17 0 0; Entity.new 2 0 40 20 17 0 0;
                   Entity.new 3 0 60 20 17 0 0 ];
     ENTITY_ID := 4;
     rng := mulberry32 (xfnv1a (charCodes "rps-12345")) |}.

(** An entity of radius 17 at rest on the line [y = 20]. *)
Definition on_line (e : Entity) : Prop :=
  valid_type e /\ Entity.y e = 20 /\ Entity.r e = 17
  /\ Entity.vx e = 0 /\ Entity.vy e = 0.

(** The overlap test at the head of [narrowPhase]: [false] when the call
    returns at [if (dist2 > minDist * minDist) return]. *)
Definition overlapping (w : World) (a b : Entity) : bool :=
  let (dx, dy) :=
    periodicDelta w (Entity.x a) (Entity.y a) (Entity.x b) (Entity.y b) in
  let minDist := Entity.r a + Entity.r b in
  if Rgt_dec (dx * dx + dy * dy) (minDist * minDist) then false else true.

(** The calls of a pass that get past the overlap test and run conversion,
    separation and bounce, each on the entities as the calls before it left
    them. *)
Fixpoint responses (w : World) (calls : list (nat * nat)) (es : list Entity)
  : list (nat * nat) :=
  match calls with
  | [] => []
  | ab :: rest =>
      let hit := match es !! fst ab, es !! snd ab with
                 | Some a, Some b => overlapping w a b
                 | _, _ => false
                 end in
      let tail := match resolvePair w es ab with
                  | Some es' => responses w rest es'
                  | None => []
                  end in
      if hit then ab :: tail else tail
  end.

(** No two entities of the world overlap. *)
Definition no_overlap (w : World) : Prop :=
  forall i j a b,
    entities w !! i = Some a -> entities w !! j = Some b -> i <> j ->
    overlapping w a b = false.

(** An entity that fits between the walls. *)
Definition fits (w h : R) (e : Entity) : Prop :=
  2 * Entity.r e <= w /\ 2 * Entity.r e <= h.

(** Controls of a page in bounce mode at speed 1. *)
Definition bounceControls : Controls :=
  {| speedEl_value := 1; wallModeEl_value := "bounce" |}.



(** An entity as the constructor builds it from a positive radius: the
    mass is [r * r], and no step changes either. *)
Definition constructed (e : Entity) : Prop :=
  0 < Entity.r e /\ Entity.mass e = Entity.r e * Entity.r e.

(** Controls of a page in wrap mode at speed 1. *)
Definition wrapControls : Controls :=
  {| speedEl_value := 1; wallModeEl_value := "wrap" |}.


(** What a collision pass keeps of the entity list, for a property [P] of
    entities that [narrowPhase] keeps. *)
Definition pass_inv (P : Entity -> Prop) (n : nat) (es : list Entity) : Prop :=
  Forall valid_type es /\ Forall P es /\ length es = n.

(** ** The rest of the engine *)

(** *** Seeding *)

(** Whether [setSeed] reports a truncation:
    [safe.length !== String(str).length]. *)
Definition setSeedTruncates (str : JsString) : bool :=
  negb (Nat.eqb (length (fst (setSeed str))) (length str)).

(** The part of [mulberry32]'s closure that depends on the counter: the
    32-bit numerator computed from [t = a]. *)
Definition mulberry32_mix (t : Z) : Z :=
  let t := imul (xor32 t (ushr32 t 15)) (or32 t 1) in
  let t := xor32 t (t + imul (xor32 t (ushr32 t 7)) (or32 t 61)) in
  ToUint32 (xor32 t (ushr32 t 14)).

(** The 32-bit numerators of the first [n] results of a stream. *)
Fixpoint numerators (n : nat) (g : Rng) : list Z :=
  match n with
  | O => []
  | S n' => let (u, g') := mulberry32_call g in u :: numerators n' g'
  end.

(** *** Cell size *)

Definition set_CELL (c : R) (w : World) : World :=
  mkWorld (VIEW_W w) (VIEW_H w) c (GW w) (GH w) (WRAP_ACTIVE w)
          (entities w) (ENTITY_ID w) (rng w).

(** [updateCellSize], [r] being [Number(sizeEl.value)]. *)
Definition updateCellSize (r : R) (w : World) : World :=
  computeGridDims (set_CELL (Rmax 24 (r * 2 + 6)) w).

(** The cell ranges [insertIntoGrid] loops over for an entity. *)
Definition cellColumns (w : World) (e : Entity) : list Z :=
  fromTo (Zfloor ((Entity.x e - Entity.r e) / CELL w))
         (Zfloor ((Entity.x e + Entity.r e) / CELL w)).

Definition cellRows (w : World) (e : Entity) : list Z :=
  fromTo (Zfloor ((Entity.y e - Entity.r e) / CELL w))
         (Zfloor ((Entity.y e + Entity.r e) / CELL w)).

(** The reference [ref] is in the bucket of key [k]. *)
Definition inBucket (grid : Grid) (k : Z * Z) (ref : nat) : Prop :=
  exists b, JsMap.get grid k = Some b /\ In ref b.

(** *** Cell keys as strings *)

(** [String(n)] for an integer [n] of magnitude below 10^21: its decimal
    digits, with a minus sign when negative. *)
Definition numberToString (n : Z) : string :=
  NilZero.string_of_int (Z.to_int n).

(** [Number(s)] for [s] a decimal integer literal; [None] on every other
    string, where [Number] would go on to read other forms of literals. *)
Definition stringToNumber (s : string) : option Z :=
  option_map Z.of_int (NilZero.int_of_string s).

(** [const cellKey = (ix, iy) => ix + '|' + iy] *)
Definition cellKeyString (ix iy : Z) : string :=
  numberToString ix ++ "|" ++ numberToString iy.

(** [s.split(sep)] for a separator of one character. *)
Fixpoint split_string (sep : ascii) (s : string) : list string :=
  match s with
  | EmptyString => [EmptyString]
  | String c s' =>
      if Ascii.eqb c sep then EmptyString :: split_string sep s'
      else match split_string sep s' with
           | p :: ps => String c p :: ps
           | [] => [String c EmptyString]
           end
  end.

(** [const [cx, cy] = k.split('|').map(Number)], for a key whose first two
    parts are decimal integer literals. *)
Definition parseCellKey (k : string) : option (Z * Z) :=
  match map stringToNumber (split_string "|" k) with
  | Some cx :: Some cy :: _ => Some (cx, cy)
  | _ => None
  end.

(** *** Counts and the winner *)

(** [computeCounts], for entities of registered types.  (For a type index
    outside the registry [counts[e.t]++] appends a NaN entry, which this
    list of integers does not represent.) *)
Definition computeCounts (w : World) : list Z :=
  fold_left (fun counts e => alter Z.succ (Entity.t e) counts)
            (entities w) (replicate (length TypeRegistry) 0%Z).

(** The end of [updateStatsAndCharts]: the index of the winning type when
    the simulation is running, has entities, and one type is left. *)
Definition winnerIndex (running : bool) (w : World) : option nat :=
  let counts := computeCounts w in
  let typesPresent := length (List.filter (fun v => (0 <? v)%Z) counts) in
  if running && negb (Nat.eqb (length (entities w)) 0)
     && Nat.eqb typesPresent 1
  then fst <$> list_find (fun v => (0 < v)%Z) counts
  else None.

(** *** Initialisation from the controls *)

(** What [initFromControls] reads from the page: the seed field, the size
    field as a number, and the count field of every type as an integer
    ([clampInput] keeps these fields integers; [buildTypeUI] creates one
    per registry entry). *)
Record InitControls := {
  seedInput_value : JsString;
  sizeEl_value : R;
  typeInputEls_value : nat -> Z
}.

(** One round of the [forEach] of [initFromControls]; the state is the
    world, [total] and the notices raised so far (type id and [can]). *)
Definition initType (ctl : InitControls)
  (st : World * Z * list (string * Z)) (it : nat * TypeDef)
  : World * Z * list (string * Z) :=
  let '(w, total, toasts) := st in
  let (i, t) := it in
  let want := Z.min (typeInputEls_value ctl i) MAX_ENTITIES_PER_TYPE in
  let can := Z.max 0 (Z.min want (MAX_TOTAL_ENTITIES - total)) in
  let toasts := if (can <? want)%Z
                then (toasts ++ [(TypeDef.id t, can)])%list else toasts in
  (spawn i can (sizeEl_value ctl) w, (total + can)%Z, toasts).

(** [initFromControls]: the world it leaves and the "Capped ..." notices. *)
Definition initFromControls (ctl : InitControls) (w : World)
  : World * list (string * Z) :=
  let w := mkWorld (VIEW_W w) (VIEW_H w) (CELL w) (GW w) (GH w)
             (WRAP_ACTIVE w) [] 1 (snd (setSeed (seedInput_value ctl))) in
  let '(w, _, toasts) :=
    fold_left (initType ctl)
      (combine (seq 0 (length TypeRegistry)) TypeRegistry) (w, 0%Z, []) in
  (w, toasts).

(** *** The frame loop *)







(** *** Count fields *)

(** The white space that [parseInt] skips, as code units. *)
Definition isWhiteSpace (c : Z) : bool :=
  existsb (Z.eqb c)
    [9; 10; 11; 12; 13; 32; 160; 5760; 8192; 8193; 8194; 8195; 8196; 8197;
     8198; 8199; 8200; 8201; 8202; 8232; 8233; 8239; 8287; 12288; 65279]%Z.

Fixpoint trimStart (s : JsString) : JsString :=
  match s with
  | c :: s' => if isWhiteSpace c then trimStart s' else s
  | [] => []
  end.

Definition isDigit (c : Z) : bool := (48 <=? c)%Z && (c <=? 57)%Z.

(** The value of the longest prefix of decimal digits, and whether there
    is a digit at all. *)
Fixpoint digitsValue (acc : Z) (seen : bool) (s : JsString) : option Z :=
  match s with
  | c :: s' =>
      if isDigit c then digitsValue (acc * 10 + (c - 48))%Z true s'
      else if seen then Some acc else None
  | [] => if seen then Some acc else None
  end.

(** [parseInt(s, 10)]; [None] is NaN.  (The result is the integer the
    digits denote; [parseInt] rounds it to a number, which the clamp of
    [clampInput] does not see, and returns [-0] for a negative zero, which
    the clamp turns into [0].) *)
Definition parseInt10 (s : JsString) : option Z :=
  match trimStart s with
  | 45 :: s' => option_map Z.opp (digitsValue 0 false s')
  | 43 :: s' => digitsValue 0 false s'
  | s' => digitsValue 0 false s'
  end.

(** [clampInput(el)]: the new [el.value] from the old one. *)
Definition clampInput (value : JsString) : JsString :=
  let v := match parseInt10 value with Some v => v | None => 0%Z end in
  let v := Z.max 0 (Z.min v MAX_ENTITIES_PER_TYPE) in
  charCodes (numberToString v).

(** *** Auxiliary definitions of the further statements *)

(** What [spawn(typeIndex, n, radius)] makes of an entity in the world
    [w]: type, radius and mass, a speed of at least 48 and less than 120,
    and a centre at least [radius + 2] from every wall. *)
Definition spawned (w : World) (typeIndex : nat) (radius : R) (e : Entity)
  : Prop :=
  Entity.t e = typeIndex /\ Entity.r e = radius
  /\ Entity.mass e = radius * radius
  /\ 48 * 48 <= Entity.vx e * Entity.vx e + Entity.vy e * Entity.vy e
     < 120 * 120
  /\ radius + 2 <= Entity.x e < VIEW_W w - radius - 2
  /\ radius + 2 <= Entity.y e < VIEW_H w - radius - 2.

(** The ids of the entities are distinct and below [ENTITY_ID], the next
    id the constructor gives out. *)
Definition ids_fresh (w : World) : Prop :=
  NoDup (map Entity._id (entities w))
  /\ Forall (fun e => (Entity._id e < ENTITY_ID w)%Z) (entities w).

(** The number of entities of type index [k]. *)
Definition countType (k : nat) (es : list Entity) : nat :=
  length (List.filter (fun e => Nat.eqb (Entity.t e) k) es).

(** The state [initFromControls] keeps while it goes through the types,
    [i] of which are done: [total] counts the entities, the ids are
    1, 2, ... in order, and no type has more than its cap. *)
Definition init_inv (i : nat) (st : World * Z * list (string * Z)) : Prop :=
  let '(w, total, _) := st in
  total = Z.of_nat (length (entities w))
  /\ (total <= MAX_TOTAL_ENTITIES)%Z
  /\ ENTITY_ID w = (1 + total)%Z
  /\ map Entity._id (entities w)
     = map (fun k => (1 + Z.of_nat k)%Z) (seq 0 (length (entities w)))
  /\ Forall (fun e => (Entity.t e < i)%nat) (entities w)
  /\ forall k, (Z.of_nat (countType k (entities w))
                <= MAX_ENTITIES_PER_TYPE)%Z.

(** The key under which [insertIntoGrid] files the cell [(ix, iy)]. *)
Definition gridKey (w : World) (ix iy : Z) : Z * Z :=
  cellKey (if WRAP_ACTIVE w then modZ ix (GW w) else clampIdx ix (GW w - 1))
          (if WRAP_ACTIVE w then modZ iy (GH w) else clampIdx iy (GH w - 1)).

(** The discs of two entities meet, by the plain distance of the
    centres. *)
Definition touching (a b : Entity) : Prop :=
  (Entity.x b - Entity.x a) * (Entity.x b - Entity.x a)
  + (Entity.y b - Entity.y a) * (Entity.y b - Entity.y a)
  <= (Entity.r a + Entity.r b) * (Entity.r a + Entity.r b).

(** The character [c] occurs in [s]. *)
Fixpoint hasChar (c : ascii) (s : string) : bool :=
  match s with
  | EmptyString => false
  | String c' s' => Ascii.eqb c' c || hasChar c s'
  end.

(** * Properties *)

(** ** The beats rules *)

Section JsMapFacts.
Context {K V : Type} `{EqDecision K}.
Implicit Types (m : JsMap.t K V) (k : K) (v : V).

Lemma JsMap_get_In m k v : JsMap.get m k = Some v -> In (k, v) m.
Proof.
    induction m as [|[k' v'] m IH]; simpl; [discriminate|].
    destruct (decide (k' = k)) as [->|]; intros Hg.
    - injection Hg as ->. now left.
    - right. auto.
Qed.

Lemma JsMap_get_set_eq m k v : JsMap.get (JsMap.set m k v) k = Some v.
Proof.
    induction m as [|[k' v'] m IH]; simpl.
    - now rewrite decide_True.
    - destruct (decide (k' = k)) as [->|Hne]; simpl.
      + now rewrite decide_True.
      + now rewrite decide_False.
Qed.

Lemma JsMap_get_set_ne m k k' v :
    k <> k' -> JsMap.get (JsMap.set m k v) k' = JsMap.get m k'.
Proof.
    intros Hne. induction m as [|[k0 v0] m IH]; simpl.
    - now rewrite decide_False.
    - destruct (decide (k0 = k)) as [->|Hk]; simpl.
      + now rewrite !decide_False.
      + destruct (decide (k0 = k')); auto.
Qed.
End JsMapFacts.

Lemma Set_has_In (s : JsSet) (u : string) : Set_has s u = true <-> In u s.
Proof.
  unfold Set_has. rewrite existsb_exists. split.
  - intros (v & Hin & Heq). apply String.eqb_eq in Heq. now subst.
  - intros Hin. exists u. split; [assumption | apply String.eqb_refl].
Qed.

Lemma get_has_defeats (m : BeatsMap) (a b : string) :
  get_has m a b = true <-> defeats m a b.
Proof.
  unfold get_has, defeats. split.
  - destruct (JsMap.get m a) as [s|] eqn:Hg; [|discriminate].
    intros Hs. exists s. split; [reflexivity | now apply Set_has_In].
  - intros (s & -> & Hin). now apply Set_has_In.
Qed.

Lemma Set_of_In (l : list string) (u : string) : In u (Set_of l) <-> In u l.
Proof.
  induction l as [|v l IH]; simpl; [tauto|].
  rewrite filter_In, IH. split.
  - intros [->|[Hin _]]; auto.
  - intros [->|Hin]; [now left|].
    destruct (String.eqb v u) eqn:Heq.
    + apply String.eqb_eq in Heq. now left.
    + right. split; [assumption | reflexivity].
Qed.

Lemma firstError_None {A} (body : A -> option RuleError) (l : list A) :
  firstError body l = None -> forall u, In u l -> body u = None.
Proof.
  induction l as [|v l IH]; simpl; [tauto|].
  destruct (body v) eqn:Hb; [discriminate|].
  intros Hrest u [<-|Hin]; auto.
Qed.

(** What a run of [validateRules] that does not throw has checked. *)
Lemma validateRules_sound (ids : list string) (m : BeatsMap) (a b : string) :
  validateRules ids m = None -> defeats m a b ->
  In a ids /\ In b ids /\ a <> b /\ get_has m b a = false.
Proof.
  intros Hv (s & Hget & Hin).
  apply JsMap_get_In in Hget.
  unfold validateRules in Hv.
  pose proof (firstError_None _ _ Hv _ Hget) as Ha. simpl in Ha.
  destruct (Set_has (Set_of ids) a) eqn:Hia; [simpl in Ha|discriminate].
  pose proof (firstError_None _ _ Ha _ Hin) as Hb. simpl in Hb.
  destruct (Set_has (Set_of ids) b) eqn:Hib; [simpl in Hb|discriminate].
  destruct (String.eqb b a) eqn:Heq; [discriminate|].
  destruct (get_has m b a); [discriminate|].
  apply String.eqb_neq in Heq.
  apply (proj1 (Set_has_In _ _)), (proj1 (Set_of_In _ _)) in Hia.
  apply (proj1 (Set_has_In _ _)), (proj1 (Set_of_In _ _)) in Hib.
  repeat split; try assumption. congruence.
Qed.

Lemma validateRules_beatsMap : validateRules TypeIds beatsMap = None.
Proof. vm_compute. reflexivity. Qed.

(** C5. [winnerOf(A, B)] is: no winner when [A] equals [B]; [A] when [A]'s
    defeat-set contains [B]; otherwise [B] when [B]'s defeat-set contains
    [A]; otherwise no winner.  This holds for any beats map.  In a map that
    [validateRules] accepts without throwing, [A] beats [B] only for known,
    distinct types and never together with [B] beats [A]; the configured
    map is accepted. *)
Theorem winnerOf_spec (m : BeatsMap) (ids : list string) (a b : string) :
  (a = b -> winnerOf m a b = None) /\
  (a <> b -> defeats m a b -> winnerOf m a b = Some a) /\
  (a <> b -> ~ defeats m a b -> defeats m b a -> winnerOf m a b = Some b) /\
  (a <> b -> ~ defeats m a b -> ~ defeats m b a -> winnerOf m a b = None) /\
  (validateRules ids m = None -> defeats m a b ->
   In a ids /\ In b ids /\ a <> b /\ ~ defeats m b a) /\
  validateRules TypeIds beatsMap = None.
Proof.
  unfold winnerOf.
  split; [|split; [|split; [|split; [|split]]]].
  - intros ->. now rewrite String.eqb_refl.
  - intros Hne Hab. apply String.eqb_neq in Hne. rewrite Hne.
    apply get_has_defeats in Hab. now rewrite Hab.
  - intros Hne Hnab Hba. apply String.eqb_neq in Hne. rewrite Hne.
    destruct (get_has m a b) eqn:Hab.
    + apply get_has_defeats in Hab. contradiction.
    + apply get_has_defeats in Hba. now rewrite Hba.
  - intros Hne Hnab Hnba. apply String.eqb_neq in Hne. rewrite Hne.
    destruct (get_has m a b) eqn:Hab.
    + apply get_has_defeats in Hab. contradiction.
    + destruct (get_has m b a) eqn:Hba; [|reflexivity].
      apply get_has_defeats in Hba. contradiction.
  - intros Hv Hab.
    destruct (validateRules_sound _ _ _ _ Hv Hab) as (Ha & Hb & Hne & Hf).
    repeat split; try assumption.
    intros Hba. apply get_has_defeats in Hba. congruence.
  - exact validateRules_beatsMap.
Qed.

(** C10. For a beats map that [validateRules] accepts, [winnerOf] does not
    depend on the order of its arguments. *)
Theorem winnerOf_sym (m : BeatsMap) (ids : list string) (a b : string) :
  validateRules ids m = None -> winnerOf m a b = winnerOf m b a.
Proof.
  intros Hv. unfold winnerOf.
  destruct (String.eqb a b) eqn:Hab.
  - apply String.eqb_eq in Hab. subst. now rewrite String.eqb_refl.
  - assert (String.eqb b a = false) as ->.
    { apply String.eqb_neq. apply String.eqb_neq in Hab. congruence. }
    destruct (get_has m a b) eqn:H1, (get_has m b a) eqn:H2; try reflexivity.
    apply get_has_defeats in H1.
    destruct (validateRules_sound _ _ _ _ Hv H1) as (_ & _ & _ & Hf).
    congruence.
Qed.

Lemma winnerOf_sym_witness :
  winnerOf beatsMap "circle" "square" = winnerOf beatsMap "square" "circle".
Proof. apply (winnerOf_sym beatsMap TypeIds). vm_compute. reflexivity. Defined.

Example winnerOf_rock_scissors :
  winnerOf beatsMap "circle" "triangle" = Some "circle"
  /\ winnerOf beatsMap "triangle" "circle" = Some "circle"
  /\ winnerOf beatsMap "spock" "spock" = None.
Proof. repeat split; reflexivity. Qed.

(** ** The generator *)

(** The published test vectors of 32-bit FNV-1a. *)
Example xfnv1a_vectors :
  xfnv1a (charCodes "") = 0x811c9dc5%Z
  /\ xfnv1a (charCodes "a") = 0xe40c292c%Z
  /\ xfnv1a (charCodes "foobar") = 0xbf9cf968%Z.
Proof. repeat split; vm_compute; reflexivity. Qed.

Lemma ToUint32_range (z : Z) : (0 <= ToUint32 z < 4294967296)%Z.
Proof. unfold ToUint32. apply Z.mod_pos_bound. reflexivity. Qed.

Lemma rng_next_range (g : Rng) : 0 <= fst (rng_next g) < 1.
Proof.
  unfold rng_next, mulberry32_call. cbv zeta. simpl fst.
  match goal with |- context [IZR (ToUint32 ?z)] =>
    pose proof (ToUint32_range z) as [Hlo Hhi]; set (u := ToUint32 z) in *
  end.
  apply IZR_le in Hlo. apply IZR_lt in Hhi. split.
  - apply Rmult_le_pos; [exact Hlo | lra].
  - apply (Rmult_lt_reg_r 4294967296); [lra|].
    unfold Rdiv. rewrite Rmult_assoc, Rinv_l by lra. lra.
Qed.

Lemma outputs_range (n : nat) (g : Rng) :
  Forall (fun u => 0 <= u < 1) (outputs n g).
Proof.
  revert g. induction n as [|n IH]; intros g; cbn [outputs]; [constructor|].
  pose proof (rng_next_range g) as Hr.
  destruct (rng_next g) as [u g']. constructor; [exact Hr | apply IH].
Qed.

Lemma runTwo_outputs (sched : list bool) (g1 g2 : Rng) :
  runTwo sched g1 g2 =
  (outputs (callsTo false sched) g1, outputs (callsTo true sched) g2).
Proof.
  revert g1 g2. induction sched as [|[|] sched IH]; intros g1 g2.
  - reflexivity.
  - cbn [runTwo].
    change (callsTo true (true :: sched)) with (S (callsTo true sched)).
    change (callsTo false (true :: sched)) with (callsTo false sched).
    cbn [outputs]. destruct (rng_next g2) as [u g2']. now rewrite IH.
  - cbn [runTwo].
    change (callsTo false (false :: sched)) with (S (callsTo false sched)).
    change (callsTo true (false :: sched)) with (callsTo true sched).
    cbn [outputs]. destruct (rng_next g1) as [u g1']. now rewrite IH.
Qed.

(** C6. Two streams built independently from the same seed string, called
    in any interleaving, each produce the outputs of the seed in order: the
    first [N] outputs of one are the first [N] outputs of the other.  Every
    output lies in [0, 1).  [setSeed] builds this stream from the first
    [MAX_SEED_LEN] code units of the string. *)
Theorem rng_determinism (S : JsString) (sched : list bool) (N : nat) :
  let stream1 := mulberry32 (xfnv1a S) in
  let stream2 := mulberry32 (xfnv1a S) in
  fst (runTwo sched stream1 stream2)
    = outputs (callsTo false sched) (mulberry32 (xfnv1a S)) /\
  snd (runTwo sched stream1 stream2)
    = outputs (callsTo true sched) (mulberry32 (xfnv1a S)) /\
  firstn N (outputs (N + callsTo false sched) stream1)
    = firstn N (outputs (N + callsTo true sched) stream2) /\
  Forall (fun u => 0 <= u < 1) (outputs N stream1) /\
  snd (setSeed S) = mulberry32 (xfnv1a (firstn MAX_SEED_LEN S)) /\
  ((length S <= MAX_SEED_LEN)%nat -> snd (setSeed S) = stream1).
Proof.
  cbv zeta. rewrite runTwo_outputs. simpl fst. simpl snd.
  split; [reflexivity|]. split; [reflexivity|].
  split; [|split; [apply outputs_range|split; [reflexivity|]]].
  - assert (Hpre : forall n k g, firstn n (outputs (n + k) g) = outputs n g).
    { induction n as [|n IH]; intros k g; [reflexivity|].
      cbn [outputs Nat.add]. destruct (rng_next g) as [u g'].
      cbn [firstn]. now rewrite IH. }
    now rewrite !Hpre.
  - intros Hlen. unfold setSeed. cbn [snd].
    now rewrite firstn_all2 by exact Hlen.
Qed.

(** ** Spawning *)

Lemma spawnOne_entities (typeIndex : nat) (radius : R) (w : World) :
  exists e, entities (spawnOne typeIndex radius w) = (entities w ++ [e])%list
            /\ Entity.t e = typeIndex.
Proof.
  unfold spawnOne.
  destruct (randVel (rng w)) as [[vx vy] g].
  destruct (tryPlace (maxTries - 1) w radius g) as [[px py] g'].
  eexists. split; reflexivity.
Qed.

Lemma iter_spawnOne_entities (typeIndex : nat) (radius : R) (k : nat) (w : World) :
  exists new,
    entities (Nat.iter k (spawnOne typeIndex radius) w) = (entities w ++ new)%list
    /\ length new = k
    /\ Forall (fun e => Entity.t e = typeIndex) new.
Proof.
  induction k as [|k (new & Heq & Hlen & Hall)]; simpl.
  - exists []. rewrite app_nil_r. repeat split. constructor.
  - destruct (spawnOne_entities typeIndex radius
                (Nat.iter k (spawnOne typeIndex radius) w)) as (e & He & Ht).
    exists (new ++ [e])%list. rewrite He, Heq, <- app_assoc.
    repeat split.
    + rewrite length_app. simpl. lia.
    + apply Forall_app. split; [assumption | now constructor].
Qed.

(** C7. For a requested count [n] (a non-negative integer),
    [spawn(typeIndex, n, radius)] appends exactly [min(n, 500)] entities,
    all of type [typeIndex], and leaves the entities it found in place;
    the function is total, so nothing is raised for the excess. *)
Theorem spawn_count (typeIndex : nat) (n : Z) (radius : R) (w : World) :
  (0 <= n)%Z ->
  exists new,
    entities (spawn typeIndex n radius w) = (entities w ++ new)%list
    /\ Z.of_nat (length new) = Z.min n MAX_ENTITIES_PER_TYPE
    /\ MAX_ENTITIES_PER_TYPE = 500%Z
    /\ Forall (fun e => Entity.t e = typeIndex) new.
Proof.
  intros Hn. unfold spawn.
  destruct (iter_spawnOne_entities typeIndex radius
              (Z.to_nat (Z.min n MAX_ENTITIES_PER_TYPE)) w)
    as (new & Heq & Hlen & Hall).
  exists new. repeat split; try assumption.
  rewrite Hlen. apply Z2Nat.id. unfold MAX_ENTITIES_PER_TYPE. lia.
Qed.

(** Requesting 10,000 of one type spawns exactly 500. *)
Lemma spawn_count_witness :
  exists new,
    entities (spawn 0 10000 12 emptyWorld) = (entities emptyWorld ++ new)%list
    /\ Z.of_nat (length new) = 500%Z
    /\ MAX_ENTITIES_PER_TYPE = 500%Z
    /\ Forall (fun e => Entity.t e = 0%nat) new.
Proof. apply (spawn_count 0 10000 12 emptyWorld). lia. Defined.

(** ** Numbers *)

Lemma Rrem_bounds (n m : R) : 0 < m -> - m < Rrem n m < m.
Proof.
  intros Hm. unfold Rrem, Ztrunc.
  assert (Hn : n = m * (n / m)) by (field; lra).
  set (q := n / m) in *.
  destruct (Rle_dec 0 q) as [Hq|Hq].
  - pose proof (Zfloor_bound q) as [Hlo Hhi]. nra.
  - pose proof (Zceil_bound q) as [Hlo Hhi]. nra.
Qed.

Lemma Rrem_nonneg (n m : R) : 0 < m -> 0 <= n -> 0 <= Rrem n m < m.
Proof.
  intros Hm Hn0. unfold Rrem, Ztrunc.
  assert (Hn : n = m * (n / m)) by (field; lra).
  assert (Hq0 : 0 <= n / m).
  { apply Rmult_le_pos; [assumption|]. apply Rlt_le, Rinv_0_lt_compat, Hm. }
  set (q := n / m) in *.
  destruct (Rle_dec 0 q) as [Hq|Hq]; [|contradiction].
  pose proof (Zfloor_bound q) as [Hlo Hhi]. nra.
Qed.

Lemma mod_range (n m : R) : 0 < m -> 0 <= mod_ n m < m.
Proof.
  intros Hm. unfold mod_. apply Rrem_nonneg; [assumption|].
  pose proof (Rrem_bounds n m Hm). lra.
Qed.

(** ** Entities *)

(** Unfolds the setters and the projections of [Entity]. *)
Ltac entity_norm :=
  cbv [Entity.set_t Entity.set_x Entity.set_y Entity.set_vx Entity.set_vy
       Entity._id Entity.t Entity.x Entity.y Entity.r Entity.vx Entity.vy
       Entity.mass Entity.side Entity.base].

(** Reduces the projections of entities built by the setters. *)
Ltac entity_proj :=
  cbn [Entity.set_t Entity.set_x Entity.set_y Entity.set_vx Entity.set_vy
       Entity._id Entity.t Entity.x Entity.y Entity.r Entity.vx Entity.vy
       Entity.mass Entity.side Entity.base].

Lemma set_t_same (e : Entity) : Entity.set_t (Entity.t e) e = e.
Proof. now destruct e. Qed.

Lemma VMAX_pos : 0 < VMAX.
Proof. unfold VMAX. lra. Qed.

Lemma speed_ok_sq (e : Entity) :
  Entity.vx e * Entity.vx e + Entity.vy e * Entity.vy e <= VMAX * VMAX ->
  speed_ok e.
Proof.
  intros Hle. unfold speed_ok.
  rewrite <- (sqrt_square VMAX) by (pose proof VMAX_pos; lra).
  now apply sqrt_le_1_alt.
Qed.

Lemma clampVel_shape (e : Entity) :
  exists vx' vy',
    clampVel e = Entity.set_vy vy' (Entity.set_vx vx' e)
    /\ vx' * vx' + vy' * vy' <= VMAX * VMAX.
Proof.
  unfold clampVel, clampVelWith. cbv zeta.
  set (v2 := Entity.vx e * Entity.vx e + Entity.vy e * Entity.vy e).
  destruct (Rgt_dec v2 (VMAX * VMAX)) as [Hgt|Hle].
  - eexists _, _. split; [reflexivity|].
    assert (Hv2 : 0 < v2) by (pose proof VMAX_pos; nra).
    pose proof (sqrt_lt_R0 v2 Hv2) as Hs.
    pose proof (sqrt_sqrt v2 (Rlt_le _ _ Hv2)) as Hss.
    apply Req_le. set (s := sqrt v2) in *.
    replace (VMAX * VMAX) with (v2 * (VMAX * VMAX) / (s * s))
      by (rewrite Hss; field; lra).
    unfold v2. field. lra.
  - exists (Entity.vx e), (Entity.vy e). split; [now destruct e|].
    fold v2. lra.
Qed.

Lemma clampVel_speed_ok (e : Entity) : speed_ok (clampVel e).
Proof.
  destruct (clampVel_shape e) as (vx' & vy' & -> & Hle).
  now apply speed_ok_sq.
Qed.

Lemma winnerOf_cases (m : BeatsMap) (a b u : string) :
  winnerOf m a b = Some u -> a <> b /\ (u = a \/ u = b).
Proof.
  unfold winnerOf.
  destruct (String.eqb a b) eqn:Hab; [discriminate|].
  apply String.eqb_neq in Hab.
  destruct (get_has m a b); [intros [= <-]; auto|].
  destruct (get_has m b a); [intros [= <-]; auto | discriminate].
Qed.

Lemma registry_truthy (k : nat) (td : TypeDef) :
  TypeRegistry !! k = Some td -> truthy (TypeDef.id td) = true.
Proof.
  do 5 (destruct k as [|k]; [intros [= <-]; reflexivity|]).
  discriminate.
Qed.

Lemma valid_type_lookup (e : Entity) :
  valid_type e -> exists td, TypeRegistry !! Entity.t e = Some td.
Proof. intros Hv. now apply lookup_lt_is_Some_2. Qed.

(** The conversion block on two entities of known types: the winner is
    left as it is and the loser gets the winner's type index. *)
Lemma convert_cases (a b : Entity) (ta tb : TypeDef) :
  TypeRegistry !! Entity.t a = Some ta ->
  TypeRegistry !! Entity.t b = Some tb ->
  match winnerOf beatsMap (TypeDef.id ta) (TypeDef.id tb) with
  | Some u =>
      if String.eqb u (TypeDef.id ta)
      then convert a b = Some (a, Entity.set_t (Entity.t a) b)
      else u = TypeDef.id tb /\
           convert a b = Some (Entity.set_t (Entity.t b) a, b)
  | None => convert a b = Some (a, b)
  end.
Proof.
  intros Ha Hb. unfold convert. rewrite Ha, Hb.
  destruct (winnerOf beatsMap (TypeDef.id ta) (TypeDef.id tb)) as [u|] eqn:Hw;
    [|reflexivity].
  destruct (winnerOf_cases _ _ _ _ Hw) as [Hne [->| ->]].
  - rewrite (registry_truthy _ _ Ha), String.eqb_refl. reflexivity.
  - rewrite (registry_truthy _ _ Hb).
    destruct (String.eqb (TypeDef.id tb) (TypeDef.id ta)) eqn:Heq.
    + apply String.eqb_eq in Heq. congruence.
    + split; reflexivity.
Qed.

Lemma convert_shape (a b : Entity) :
  valid_type a -> valid_type b ->
  exists ta tb,
    convert a b = Some (Entity.set_t ta a, Entity.set_t tb b)
    /\ (ta = Entity.t a \/ ta = Entity.t b)
    /\ (tb = Entity.t a \/ tb = Entity.t b).
Proof.
  intros Hva Hvb.
  destruct (valid_type_lookup a Hva) as [tda Ha].
  destruct (valid_type_lookup b Hvb) as [tdb Hb].
  pose proof (convert_cases a b tda tdb Ha Hb) as Hc.
  destruct (winnerOf beatsMap (TypeDef.id tda) (TypeDef.id tdb)) as [u|].
  - destruct (String.eqb u (TypeDef.id tda)).
    + exists (Entity.t a), (Entity.t a). rewrite set_t_same. auto.
    + destruct Hc as [_ Hc].
      exists (Entity.t b), (Entity.t b). rewrite set_t_same. auto.
  - exists (Entity.t a), (Entity.t b). rewrite !set_t_same. auto.
Qed.

Lemma separate_shape (w : World) (nx ny overlap : R) (a b : Entity) :
  exists xa ya xb yb,
    separate w nx ny overlap a b =
      (Entity.set_y ya (Entity.set_x xa a), Entity.set_y yb (Entity.set_x xb b))
    /\ (WRAP_ACTIVE w = true -> 0 < VIEW_W w -> 0 < VIEW_H w ->
        (0 <= xa < VIEW_W w /\ 0 <= ya < VIEW_H w) /\
        (0 <= xb < VIEW_W w /\ 0 <= yb < VIEW_H w)).
Proof.
  unfold separate, separateWith. cbv zeta.
  destruct (WRAP_ACTIVE w).
  - eexists _, _, _, _. split.
    + destruct a, b. reflexivity.
    + intros _ HW HH. repeat split; now apply mod_range.
  - eexists _, _, _, _. split; [reflexivity | discriminate].
Qed.

Lemma bounce_shape (nx ny : R) (a b : Entity) :
  exists vxa vya vxb vyb,
    bounce nx ny a b =
      (Entity.set_vy vya (Entity.set_vx vxa a),
       Entity.set_vy vyb (Entity.set_vx vxb b))
    /\ vxa * vxa + vya * vya <= VMAX * VMAX
    /\ vxb * vxb + vyb * vyb <= VMAX * VMAX.
Proof.
  unfold bounce, bounceWith. cbv zeta. fold clampVel.
  match goal with |- context [(clampVel ?a', clampVel ?b')] =>
    destruct (clampVel_shape a') as (vxa & vya & -> & Ha);
    destruct (clampVel_shape b') as (vxb & vyb & -> & Hb)
  end.
  exists vxa, vya, vxb, vyb. split; [|split; assumption].
  destruct a, b. reflexivity.
Qed.

(** What one call of [narrowPhase] does to a pair of valid entities: it
    returns, and either leaves both as they are or rewrites type, position
    and velocity of both, with clamped velocities and, in wrap mode,
    wrapped positions. *)
Lemma narrowPhase_shape (w : World) (a b : Entity) :
  valid_type a -> valid_type b ->
  exists a' b',
    narrowPhase w a b = Some (a', b') /\
    ((a' = a /\ b' = b) \/
     exists ta tb xa ya xb yb vxa vya vxb vyb,
       convert a b = Some (Entity.set_t ta a, Entity.set_t tb b)
       /\ a' = Entity.set_vy vya (Entity.set_vx vxa
                 (Entity.set_y ya (Entity.set_x xa (Entity.set_t ta a))))
       /\ b' = Entity.set_vy vyb (Entity.set_vx vxb
                 (Entity.set_y yb (Entity.set_x xb (Entity.set_t tb b))))
       /\ (ta = Entity.t a \/ ta = Entity.t b)
       /\ (tb = Entity.t a \/ tb = Entity.t b)
       /\ vxa * vxa + vya * vya <= VMAX * VMAX
       /\ vxb * vxb + vyb * vyb <= VMAX * VMAX
       /\ (WRAP_ACTIVE w = true -> 0 < VIEW_W w -> 0 < VIEW_H w ->
           (0 <= xa < VIEW_W w /\ 0 <= ya < VIEW_H w) /\
           (0 <= xb < VIEW_W w /\ 0 <= yb < VIEW_H w))).
Proof.
  intros Hva Hvb. unfold narrowPhase, narrowPhaseWith.
  destruct (periodicDeltaWith Rdiv w _ _ _ _) as [dx dy].
  cbv zeta.
  destruct (Rgt_dec _ _) as [Hfar|Hnear].
  - exists a, b. split; [reflexivity | now left].
  - destruct (convert_shape a b Hva Hvb) as (ta & tb & Hc & Hta & Htb).
    rewrite Hc. fold separate.
    match goal with |- context [separate w ?nx ?ny ?o ?a1 ?b1] =>
      destruct (separate_shape w nx ny o a1 b1)
        as (xa & ya & xb & yb & -> & Hpos);
      fold (bounce nx ny);
      match goal with |- context [bounce nx ny ?a2 ?b2] =>
        destruct (bounce_shape nx ny a2 b2)
          as (vxa & vya & vxb & vyb & -> & Hsa & Hsb)
      end
    end.
    eexists _, _. split; [reflexivity|]. right.
    exists ta, tb, xa, ya, xb, yb, vxa, vya, vxb, vyb.
    repeat split; try assumption; apply Hpos; assumption.
Qed.

Lemma narrowPhase_valid (w : World) (a b a' b' : Entity) :
  valid_type a -> valid_type b -> narrowPhase w a b = Some (a', b') ->
  valid_type a' /\ valid_type b'.
Proof.
  intros Hva Hvb Hnp.
  destruct (narrowPhase_shape w a b Hva Hvb) as (a1 & b1 & Heq & Hsh).
  rewrite Heq in Hnp. injection Hnp as <- <-.
  destruct Hsh as [[-> ->]|Hsh]; [auto|].
  destruct Hsh as (ta & tb & xa & ya & xb & yb & vxa & vya & vxb & vyb
                   & _ & -> & -> & Hta & Htb & _).
  unfold valid_type in *. simpl.
  destruct Hta as [-> | ->], Htb as [-> | ->]; auto.
Qed.

Lemma narrowPhase_speed_ok (w : World) (a b a' b' : Entity) :
  valid_type a -> valid_type b -> speed_ok a -> speed_ok b ->
  narrowPhase w a b = Some (a', b') -> speed_ok a' /\ speed_ok b'.
Proof.
  intros Hva Hvb Hsa Hsb Hnp.
  destruct (narrowPhase_shape w a b Hva Hvb) as (a1 & b1 & Heq & Hsh).
  rewrite Heq in Hnp. injection Hnp as <- <-.
  destruct Hsh as [[-> ->]|Hsh]; [auto|].
  destruct Hsh as (ta & tb & xa & ya & xb & yb & vxa & vya & vxb & vyb
                   & _ & -> & -> & _ & _ & Ha & Hb & _).
  split; apply speed_ok_sq; simpl; assumption.
Qed.

Lemma narrowPhase_in_torus (w : World) (a b a' b' : Entity) :
  WRAP_ACTIVE w = true -> 0 < VIEW_W w -> 0 < VIEW_H w ->
  valid_type a -> valid_type b ->
  in_torus (VIEW_W w) (VIEW_H w) a -> in_torus (VIEW_W w) (VIEW_H w) b ->
  narrowPhase w a b = Some (a', b') ->
  in_torus (VIEW_W w) (VIEW_H w) a' /\ in_torus (VIEW_W w) (VIEW_H w) b'.
Proof.
  intros Hwrap HW HH Hva Hvb Hta Htb Hnp.
  destruct (narrowPhase_shape w a b Hva Hvb) as (a1 & b1 & Heq & Hsh).
  rewrite Heq in Hnp. injection Hnp as <- <-.
  destruct Hsh as [[-> ->]|Hsh]; [auto|].
  destruct Hsh as (ta & tb & xa & ya & xb & yb & vxa & vya & vxb & vyb
                   & _ & -> & -> & _ & _ & _ & _ & Hpos).
  destruct (Hpos Hwrap HW HH) as [Ha Hb]. split; assumption.
Qed.

(** ** The collision pass and the step *)

Section Invariant.
Variable w : World.
Variable P : Entity -> Prop.
Hypothesis narrowPhase_P : forall a b a' b',
  valid_type a -> valid_type b -> P a -> P b ->
  narrowPhase w a b = Some (a', b') -> P a' /\ P b'.

Lemma resolvePair_inv (n : nat) (es : list Entity) (ab : nat * nat) :
  pass_inv P n es ->
  exists es', resolvePair w es ab = Some es' /\ pass_inv P n es'.
Proof.
  intros (Hv & HP & Hlen). destruct ab as [i j]. unfold resolvePair.
  destruct (es !! i) as [a|] eqn:Hi; [|exists es; repeat split; assumption].
  destruct (es !! j) as [b|] eqn:Hj; [|exists es; repeat split; assumption].
  pose proof (Forall_lookup_1 _ _ _ _ Hv Hi) as Hva.
  pose proof (Forall_lookup_1 _ _ _ _ Hv Hj) as Hvb.
  pose proof (Forall_lookup_1 _ _ _ _ HP Hi) as HPa.
  pose proof (Forall_lookup_1 _ _ _ _ HP Hj) as HPb.
  destruct (narrowPhase_shape w a b Hva Hvb) as (a' & b' & Heq & _).
  rewrite Heq. eexists. split; [reflexivity|].
  destruct (narrowPhase_valid _ _ _ _ _ Hva Hvb Heq) as [Hva' Hvb'].
  destruct (narrowPhase_P _ _ _ _ Hva Hvb HPa HPb Heq) as [HPa' HPb'].
  repeat split.
  - now apply Forall_insert; [apply Forall_insert|].
  - now apply Forall_insert; [apply Forall_insert|].
  - now rewrite !length_insert.
Qed.

Lemma foldM_resolvePair_inv (n : nat) (calls : list (nat * nat))
  (es : list Entity) :
  pass_inv P n es ->
  exists es', foldM (resolvePair w) calls es = Some es' /\ pass_inv P n es'.
Proof.
  revert es. induction calls as [|ab calls IH]; intros es Hinv; simpl.
  - now exists es.
  - destruct (resolvePair_inv n es ab Hinv) as (es1 & -> & Hinv1).
    now apply IH.
Qed.

Lemma handleCollisionsGrid_inv :
  Forall valid_type (entities w) -> Forall P (entities w) ->
  exists es',
    handleCollisionsGrid w = Some (set_entities es' w)
    /\ pass_inv P (length (entities w)) es'.
Proof.
  intros Hv HP. unfold handleCollisionsGrid.
  destruct (foldM_resolvePair_inv (length (entities w))
              (narrowPhaseCalls w (buildGrid w)) (entities w))
    as (es' & -> & Hinv).
  - repeat split; assumption.
  - now exists es'.
Qed.
End Invariant.

Lemma update_shape (W H dt spd : R) (wrap : bool) (e : Entity) :
  exists x' y' vx' vy',
    update W H dt spd wrap e =
      Entity.set_vy vy' (Entity.set_vx vx'
        (Entity.set_y y' (Entity.set_x x' e)))
    /\ vx' * vx' + vy' * vy' <= VMAX * VMAX
    /\ (wrap = true -> 0 < W -> 0 < H -> (0 <= x' < W) /\ (0 <= y' < H))
    /\ (wrap = false -> 2 * Entity.r e <= W -> 2 * Entity.r e <= H ->
        (Entity.r e <= x' <= W - Entity.r e) /\
        (Entity.r e <= y' <= H - Entity.r e)).
Proof.
  unfold update. cbv zeta.
  match goal with |- context [clampVel ?e'] =>
    destruct (clampVel_shape e') as (vx' & vy' & -> & Hv)
  end.
  destruct wrap.
  - eexists _, _, vx', vy'. split; [destruct e; reflexivity|].
    split; [assumption|]. split; [|discriminate].
    intros _ HW HH. simpl. split; now apply mod_range.
  - unfold bounceWalls. cbv zeta.
    destruct e as [i ty x0 y0 r0 vx0 vy0 m0 s0 b0]. simpl.
    repeat (match goal with
            | |- context [Rlt_dec ?p ?q] => destruct (Rlt_dec p q)
            | |- context [Rgt_dec ?p ?q] => destruct (Rgt_dec p q)
            end; simpl in *);
      (eexists _, _, vx', vy'; split; [entity_norm; reflexivity|];
       split; [assumption|]; split; [discriminate|];
       intros _ HW HH; lra).
Qed.

Lemma update_valid (W H dt spd : R) (wrap : bool) (e : Entity) :
  valid_type e -> valid_type (update W H dt spd wrap e).
Proof.
  destruct (update_shape W H dt spd wrap e) as (x' & y' & vx' & vy' & -> & _).
  trivial.
Qed.

Lemma update_speed_ok (W H dt spd : R) (wrap : bool) (e : Entity) :
  speed_ok (update W H dt spd wrap e).
Proof. unfold update. cbv zeta. apply clampVel_speed_ok. Qed.

(** A property that [update] establishes and [narrowPhase] keeps holds of
    every entity after the step, which returns and keeps the number of
    entities, the validity of their types and the arena. *)
Lemma step_inv (P : Entity -> Prop) (dt : R) (ui : Controls) (w : World) :
  let wrap := String.eqb (wallModeEl_value ui) "wrap" in
  (forall e, In e (entities w) ->
     P (update (VIEW_W w) (VIEW_H w) dt (speedEl_value ui) wrap e)) ->
  (forall w1 a b a' b',
     WRAP_ACTIVE w1 = wrap -> VIEW_W w1 = VIEW_W w -> VIEW_H w1 = VIEW_H w ->
     valid_type a -> valid_type b -> P a -> P b ->
     narrowPhase w1 a b = Some (a', b') -> P a' /\ P b') ->
  Forall valid_type (entities w) ->
  exists w',
    step dt ui w = Some w'
    /\ Forall valid_type (entities w')
    /\ Forall P (entities w')
    /\ length (entities w') = length (entities w)
    /\ VIEW_W w' = VIEW_W w /\ VIEW_H w' = VIEW_H w.
Proof.
  intros wrap Hupd Hnp Hv. unfold step, integrate. fold wrap. cbv zeta.
  set (w1 := set_entities _ (set_WRAP_ACTIVE wrap w)).
  destruct (handleCollisionsGrid_inv w1 P) as (es' & -> & Hv' & HP' & Hlen).
  - intros a b a' b'. now apply Hnp.
  - simpl. apply List.Forall_forall. intros e' Hin.
    apply in_map_iff in Hin as (e & <- & Hin).
    apply update_valid. rewrite List.Forall_forall in Hv. now apply Hv.
  - simpl. apply List.Forall_forall. intros e' Hin.
    apply in_map_iff in Hin as (e & <- & Hin). now apply Hupd.
  - eexists. split; [reflexivity|]. simpl in *.
    rewrite length_map in Hlen. repeat split; assumption.
Qed.

(** C3. The number of entities is the same after any number of consecutive
    steps, whatever the time steps and the controls: from a state whose
    entities have registered types every step returns, and the list has
    the length it had.  [clearAll] is what empties it. *)
Theorem step_preserves_count (inputs : list (R * Controls)) (w : World) :
  Forall valid_type (entities w) ->
  (exists w',
     steps inputs w = Some w'
     /\ length (entities w') = length (entities w)) /\
  length (entities (clearAll w)) = 0%nat.
Proof.
  intros Hv. split; [|reflexivity].
  revert w Hv. unfold steps.
  induction inputs as [|[dt ui] inputs IH]; intros w Hv; simpl.
  - now exists w.
  - destruct (step_inv (fun _ => True) dt ui w)
      as (w1 & -> & Hv1 & _ & Hlen & _); auto.
    destruct (IH w1 Hv1) as (w' & -> & Hlen').
    exists w'. split; [reflexivity | congruence].
Qed.

(** Every call of [narrowPhase] that returns either changes nothing or ends
    with the clamp on both entities. *)
Lemma narrowPhase_clamped (w : World) (a b a' b' : Entity) :
  narrowPhase w a b = Some (a', b') ->
  (a' = a /\ b' = b) \/ (speed_ok a' /\ speed_ok b').
Proof.
  unfold narrowPhase, narrowPhaseWith.
  destruct (periodicDeltaWith Rdiv w _ _ _ _) as [dx dy]. cbv zeta.
  destruct (Rgt_dec _ _); [intros [= <- <-]; now left|].
  destruct (convert a b) as [[a1 b1]|]; [|discriminate].
  destruct (separateWith Rdiv w _ _ _ a1 b1) as [a2 b2].
  unfold bounceWith. cbv zeta. fold clampVel.
  intros [= <- <-]. right. split; apply clampVel_speed_ok.
Qed.

(** ** The narrow phase *)

Lemma convert_same_but_type (a b a' b' : Entity) :
  convert a b = Some (a', b') -> same_but_type a a' /\ same_but_type b b'.
Proof.
  unfold convert, same_but_type.
  destruct (TypeRegistry !! Entity.t a) as [ta|]; [|discriminate].
  destruct (TypeRegistry !! Entity.t b) as [tb|]; [|discriminate].
  destruct (winnerOf beatsMap _ _) as [u|].
  - destruct (truthy u); [destruct (String.eqb u _)|];
      intros [= <- <-]; simpl; now rewrite ?set_t_same.
  - intros [= <- <-]. now rewrite !set_t_same.
Qed.

(** C9. On two entities of registered types the conversion block returns
    and changes nothing but a type tag: when the winner is [a]'s type, [a]
    is untouched and [b] gets [a]'s type; when it is [b]'s type, [b] is
    untouched and [a] gets [b]'s type; without a winner, and in particular
    for equal types, both are untouched.  A whole call of [narrowPhase]
    keeps id, radius, mass and shape parameters of both entities, and
    leaves them with the types the conversion block gave them. *)
Theorem convert_frame (a b : Entity) (ta tb : TypeDef) :
  TypeRegistry !! Entity.t a = Some ta ->
  TypeRegistry !! Entity.t b = Some tb ->
  exists a' b',
    convert a b = Some (a', b')
    /\ same_but_type a a' /\ same_but_type b b'
    /\ (winnerOf beatsMap (TypeDef.id ta) (TypeDef.id tb) = Some (TypeDef.id ta)
        -> a' = a /\ Entity.t b' = Entity.t a)
    /\ (winnerOf beatsMap (TypeDef.id ta) (TypeDef.id tb) = Some (TypeDef.id tb)
        -> Entity.t a' = Entity.t b /\ b' = b)
    /\ (winnerOf beatsMap (TypeDef.id ta) (TypeDef.id tb) = None
        -> a' = a /\ b' = b)
    /\ (Entity.t a = Entity.t b -> a' = a /\ b' = b)
    /\ (forall w a2 b2, narrowPhase w a b = Some (a2, b2) ->
          same_body a a2 /\ same_body b b2 /\
          ((a2 = a /\ b2 = b) \/
           (Entity.t a2 = Entity.t a' /\ Entity.t b2 = Entity.t b'))).
Proof.
  intros Ha Hb.
  assert (Hva : valid_type a) by (eapply lookup_lt_Some; eassumption).
  assert (Hvb : valid_type b) by (eapply lookup_lt_Some; eassumption).
  destruct (convert_shape a b Hva Hvb) as (ka & kb & Hc & _ & _).
  pose proof (convert_cases a b ta tb Ha Hb) as Hcases.
  pose proof (convert_same_but_type _ _ _ _ Hc) as [Hsa Hsb].
  eexists _, _. split; [exact Hc|].
  split; [exact Hsa|]. split; [exact Hsb|].
  split; [|split; [|split; [|split]]].
  - intros Hw. rewrite Hw, String.eqb_refl, Hc in Hcases.
    injection Hcases as E1 E2. rewrite E1, E2. split; reflexivity.
  - intros Hw. rewrite Hw in Hcases.
    destruct (winnerOf_cases _ _ _ _ Hw) as [Hne _].
    destruct (String.eqb (TypeDef.id tb) (TypeDef.id ta)) eqn:Heq.
    + apply String.eqb_eq in Heq. congruence.
    + destruct Hcases as [_ Hcases]. rewrite Hc in Hcases.
      injection Hcases as E1 E2. rewrite E1, E2. split; reflexivity.
  - intros Hw. rewrite Hw, Hc in Hcases.
    injection Hcases as E1 E2. rewrite E1, E2. split; reflexivity.
  - intros Ht. rewrite Ht, Hb in Ha. injection Ha as ->.
    unfold winnerOf in Hcases. rewrite String.eqb_refl, Hc in Hcases.
    injection Hcases as E1 E2. rewrite E1, E2. split; reflexivity.
  - intros w a2 b2 Hnp.
    destruct (narrowPhase_shape w a b Hva Hvb) as (a1 & b1 & Heq & Hsh).
    rewrite Heq in Hnp. injection Hnp as <- <-.
    destruct Hsh as [[-> ->]|Hsh].
    + repeat split; now left.
    + destruct Hsh as (ka' & kb' & xa & ya & xb & yb & vxa & vya & vxb & vyb
                       & Hc' & -> & -> & _).
      rewrite Hc in Hc'. injection Hc' as E1 E2.
      repeat split. right. rewrite <- E1, <- E2. split; reflexivity.
Qed.

Lemma clampVelWith_eq (div : R -> R -> R) (e : Entity) :
  (forall p q, q <> 0 -> div p q = p / q) -> clampVelWith div e = clampVel e.
Proof.
  intros Hdiv. unfold clampVel, clampVelWith. cbv zeta.
  destruct (Rgt_dec _ _) as [Hgt|]; [|reflexivity].
  rewrite Hdiv; [reflexivity|].
  apply Rgt_not_eq, sqrt_lt_R0. pose proof VMAX_pos. nra.
Qed.

Lemma contactDist_pos (dist2 : R) : 0 < contactDist dist2.
Proof.
  unfold contactDist. destruct (Req_dec_T (sqrt dist2) 0) as [|Hne]; [lra|].
  pose proof (sqrt_pos dist2). lra.
Qed.

Lemma modWith_eq (rem : R -> R -> R) (n m : R) :
  (forall p q, q <> 0 -> rem p q = Rrem p q) -> m <> 0 ->
  modWith rem n m = mod_ n m.
Proof. intros Hrem Hm. unfold modWith, mod_. now rewrite !Hrem. Qed.

(** On constructed entities, and in wrap mode in a viewport of non-zero
    width and height, [narrowPhase] meets no zero divisor. *)
Lemma narrowPhaseOps_eq (div rem : R -> R -> R) (w : World) (a b : Entity) :
  (forall p q, q <> 0 -> div p q = p / q) ->
  (forall p q, q <> 0 -> rem p q = Rrem p q) ->
  constructed a -> constructed b ->
  (WRAP_ACTIVE w = true -> VIEW_W w <> 0 /\ VIEW_H w <> 0) ->
  narrowPhaseOps div rem w a b = narrowPhase w a b.
Proof.
  intros Hdiv Hrem [Hra Hma] [Hrb Hmb] Hw.
  assert (Hm : 0 < Entity.mass a + Entity.mass b) by nra.
  unfold narrowPhase, narrowPhaseWith, narrowPhaseOps.
  assert (Hpd : forall ax ay bx by_,
             periodicDeltaWith div w ax ay bx by_
             = periodicDeltaWith Rdiv w ax ay bx by_).
  { intros. unfold periodicDeltaWith. rewrite !Hdiv by lra. reflexivity. }
  rewrite Hpd.
  destruct (periodicDeltaWith Rdiv w _ _ _ _) as [dx dy]. cbv zeta.
  destruct (Rgt_dec _ _); [reflexivity|].
  destruct (convert a b) as [[a1 b1]|] eqn:Hc; [|reflexivity].
  destruct (convert_same_but_type _ _ _ _ Hc) as [Hsa Hsb].
  pose proof (contactDist_pos (dx * dx + dy * dy)) as Hd.
  rewrite !(Hdiv _ (contactDist _)) by lra.
  assert (Hsep : forall nx ny o,
             separateOps div rem w nx ny o a1 b1
             = separateWith Rdiv w nx ny o a1 b1).
  { intros. unfold separateOps, separateWith. rewrite !Hdiv by lra.
    destruct (WRAP_ACTIVE w); [|reflexivity].
    destruct (Hw eq_refl) as [HW HH].
    now rewrite !modWith_eq by assumption. }
  rewrite Hsep. fold separate.
  match goal with |- context [separate w ?nx ?ny ?o a1 b1] =>
    destruct (separate_shape w nx ny o a1 b1) as (xa & ya & xb & yb & -> & _)
  end.
  f_equal. unfold bounceWith. cbv zeta.
  rewrite !clampVelWith_eq by assumption.
  rewrite Hsa, Hsb. entity_proj.
  rewrite !Hdiv by lra. reflexivity.
Qed.


(** *** A remainder by zero in the re-wrap *)




(** ** The velocity cap *)

Lemma update_constructed (W H dt spd : R) (wrap : bool) (e : Entity) :
  constructed e -> constructed (update W H dt spd wrap e).
Proof.
  destruct (update_shape W H dt spd wrap e) as (x' & y' & vx' & vy' & -> & _).
  trivial.
Qed.

Lemma narrowPhase_constructed (w : World) (a b a' b' : Entity) :
  valid_type a -> valid_type b -> constructed a -> constructed b ->
  narrowPhase w a b = Some (a', b') -> constructed a' /\ constructed b'.
Proof.
  intros Hva Hvb Hca Hcb Hnp.
  destruct (narrowPhase_shape w a b Hva Hvb) as (a1 & b1 & Heq & Hsh).
  rewrite Heq in Hnp. injection Hnp as <- <-.
  destruct Hsh as [[-> ->]|
    (ta & tb & xa & ya & xb & yb & vxa & vya & vxb & vyb & _ & -> & -> & _)].
  - now split.
  - split; assumption.
Qed.

(** C4. After a step every entity's speed [sqrt(vx^2 + vy^2)] is at most
    [VMAX], for entities as the constructor builds them (positive radius,
    mass [r * r]) and, in wrap mode, a viewport whose width and height are
    not zero; the step keeps these conditions, so the bound holds after
    any number of steps.  The clamp follows every change of a velocity:
    [update] ends with it, and a call of [narrowPhase] either changes
    nothing or ends with it on both entities, whatever a division or a
    remainder by zero would yield. *)
Theorem velocity_cap (dt : R) (ui : Controls) (w : World) :
  Forall valid_type (entities w) ->
  Forall constructed (entities w) ->
  (String.eqb (wallModeEl_value ui) "wrap" = true ->
   VIEW_W w <> 0 /\ VIEW_H w <> 0) ->
  (exists w',
     step dt ui w = Some w'
     /\ Forall speed_ok (entities w')
     /\ Forall valid_type (entities w')
     /\ Forall constructed (entities w')
     /\ VIEW_W w' = VIEW_W w /\ VIEW_H w' = VIEW_H w)
  /\ (forall W H dt spd wrap e, speed_ok (update W H dt spd wrap e))
  /\ (forall div rem w a b a' b',
        (forall p q, q <> 0 -> div p q = p / q) ->
        (forall p q, q <> 0 -> rem p q = Rrem p q) ->
        constructed a -> constructed b ->
        (WRAP_ACTIVE w = true -> VIEW_W w <> 0 /\ VIEW_H w <> 0) ->
        narrowPhaseOps div rem w a b = Some (a', b') ->
        (a' = a /\ b' = b) \/ (speed_ok a' /\ speed_ok b')).
Proof.
  intros Hv Hc Hw. split; [|split; [exact update_speed_ok|]].
  - destruct (step_inv (fun e => speed_ok e /\ constructed e) dt ui w)
      as (w' & Hs & Hv' & Hok & _ & HW & HH).
    + intros e Hin. split; [apply update_speed_ok|].
      apply update_constructed.
      rewrite List.Forall_forall in Hc. now apply Hc.
    + intros w1 a b a' b' _ _ _ Hva Hvb [Hoa Hca] [Hob Hcb] Hnp.
      destruct (narrowPhase_speed_ok _ _ _ _ _ Hva Hvb Hoa Hob Hnp)
        as [Hsa Hsb].
      destruct (narrowPhase_constructed _ _ _ _ _ Hva Hvb Hca Hcb Hnp)
        as [Hca' Hcb'].
      split; split; assumption.
    + exact Hv.
    + exists w'. split; [exact Hs|].
      split; [eapply Forall_impl; [exact Hok|]; now intros e [He _]|].
      split; [exact Hv'|].
      split; [eapply Forall_impl; [exact Hok|]; now intros e [_ He]|].
      now split.
  - intros div rem w1 a b a' b' Hdiv Hrem Hca Hcb Hw1 Hnp.
    rewrite (narrowPhaseOps_eq div rem w1 a b Hdiv Hrem Hca Hcb Hw1) in Hnp.
    exact (narrowPhase_clamped _ _ _ _ _ Hnp).
Qed.

Lemma atTheWall_valid : Forall valid_type (entities atTheWall).
Proof. repeat constructor; unfold valid_type; simpl; lia. Qed.

(** ** The calls of one collision pass *)

Lemma bucketPairs_In (es : list Entity) (bucket nb : list nat) (i j : nat) :
  In (i, j) (bucketPairs es bucket nb) ->
  exists a b, es !! i = Some a /\ es !! j = Some b /\ i <> j
              /\ (Entity._id a <= Entity._id b)%Z.
Proof.
  unfold bucketPairs. intros Hin.
  apply in_flat_map in Hin as (i' & _ & Hin).
  apply in_flat_map in Hin as (j' & _ & Hin).
  destruct (es !! i') as [a|] eqn:Hi; [|contradiction].
  destruct (es !! j') as [b|] eqn:Hj; [|contradiction].
  destruct (Nat.eqb i' j') eqn:Hij; [contradiction|].
  destruct (Entity._id a >? Entity._id b)%Z eqn:Hgt; [contradiction|].
  destruct Hin as [[= <- <-]|[]].
  exists a, b. apply Nat.eqb_neq in Hij. repeat split; try assumption. lia.
Qed.

Lemma narrowPhaseCalls_In (w : World) (grid : Grid) (i j : nat) :
  In (i, j) (narrowPhaseCalls w grid) ->
  exists a b, entities w !! i = Some a /\ entities w !! j = Some b /\ i <> j
              /\ (Entity._id a <= Entity._id b)%Z.
Proof.
  unfold narrowPhaseCalls. intros Hin.
  apply in_flat_map in Hin as ([[cx cy] bucket] & _ & Hin).
  apply in_flat_map in Hin as ([dx dy] & _ & Hin).
  destruct (_ || _)%bool; [contradiction|].
  destruct (JsMap.get grid _) as [nb|]; [|contradiction].
  now apply bucketPairs_In in Hin.
Qed.

Lemma NoDup_ids_lookup (es : list Entity) (i j : nat) (a b : Entity) :
  NoDup (map Entity._id es) ->
  es !! i = Some a -> es !! j = Some b -> Entity._id a = Entity._id b ->
  i = j.
Proof.
  intros Hnd Hi Hj Hid.
  apply (NoDup_lookup (map Entity._id es) i j (Entity._id a)); [assumption| |].
  - change (map Entity._id es) with (Entity._id <$> es).
    now rewrite list_lookup_fmap, Hi.
  - change (map Entity._id es) with (Entity._id <$> es).
    rewrite list_lookup_fmap, Hj. simpl. now rewrite Hid.
Qed.

(** C1, as the code has it.  In one pass of [handleCollisionsGrid] over
    entities with distinct ids, every call [narrowPhase(a, b)] is on two
    distinct entities with [a._id < b._id], so no pair is handed over in
    both orders.  (The same ordered pair may be handed over once for every
    bucket holding [a] and neighbouring bucket holding [b].) *)
Theorem narrowPhaseCalls_ordered (w : World) (grid : Grid) (i j : nat) :
  NoDup (map Entity._id (entities w)) ->
  In (i, j) (narrowPhaseCalls w grid) ->
  (exists a b,
      entities w !! i = Some a /\ entities w !! j = Some b /\ i <> j
      /\ (Entity._id a < Entity._id b)%Z)
  /\ ~ In (j, i) (narrowPhaseCalls w grid).
Proof.
  intros Hnd Hin.
  destruct (narrowPhaseCalls_In w grid i j Hin)
    as (a & b & Hi & Hj & Hne & Hle).
  assert (Hid : Entity._id a <> Entity._id b).
  { intros Hid. apply Hne. now apply (NoDup_ids_lookup _ _ _ _ _ Hnd Hi Hj). }
  split.
  - exists a, b. repeat split; try assumption. lia.
  - intros Hji.
    destruct (narrowPhaseCalls_In w grid j i Hji)
      as (b' & a' & Hj' & Hi' & _ & Hle').
    rewrite Hi in Hi'. rewrite Hj in Hj'.
    injection Hi' as <-. injection Hj' as <-. lia.
Qed.

(** Evaluates the cell indices of a concrete entity. *)
Ltac eval_floors :=
  repeat match goal with
    | |- context [Zfloor ?u] =>
        first [ rewrite (Zfloor_eq 0 u) by lra
              | rewrite (Zfloor_eq 1 u) by lra
              | rewrite (Zfloor_eq 2 u) by lra ]
    end.

Lemma cluster_grid :
  buildGrid cluster
  = [ ((0, 0)%Z, [0; 1]%nat); ((1, 0)%Z, [0; 1; 2]%nat) ].
Proof.
  cbv [buildGrid cluster entities length seq combine fold_left fst snd
       insertIntoGrid Entity.new Entity.x Entity.y Entity.r CELL
       WRAP_ACTIVE GW GH].
  eval_floors. reflexivity.
Qed.

Lemma cluster_calls :
  narrowPhaseCalls cluster (buildGrid cluster)
  = [ (0, 1); (0, 1); (0, 2); (1, 2); (0, 1); (0, 1); (0, 2); (1, 2) ]%nat.
Proof. rewrite cluster_grid. reflexivity. Qed.

Lemma narrowPhaseCalls_ordered_witness :
  (exists a b,
      entities cluster !! 0%nat = Some a
      /\ entities cluster !! 1%nat = Some b /\ 0%nat <> 1%nat
      /\ (Entity._id a < Entity._id b)%Z)
  /\ ~ In (1, 0)%nat (narrowPhaseCalls cluster (buildGrid cluster)).
Proof.
  apply (narrowPhaseCalls_ordered cluster (buildGrid cluster) 0 1).
  - cbv [map entities cluster Entity._id Entity.new].
    apply (bool_decide_unpack (NoDup [1%Z; 2%Z; 3%Z])). vm_compute. exact I.
  - rewrite cluster_calls. now left.
Defined.

(** *** A pair that one pass resolves twice *)

Lemma clampVel_within (e : Entity) :
  Entity.vx e * Entity.vx e + Entity.vy e * Entity.vy e <= VMAX * VMAX ->
  clampVel e = e.
Proof.
  intros Hle. unfold clampVel, clampVelWith. cbv zeta.
  destruct (Rgt_dec _ _); [lra | reflexivity].
Qed.

Lemma contactDist_square (d : R) : 0 < d -> contactDist (d * d) = d.
Proof.
  intros Hd. unfold contactDist. rewrite sqrt_square by lra.
  destruct (Req_dec_T d 0); [lra | reflexivity].
Qed.


Lemma narrowPhase_miss (w : World) (a b : Entity) :
  overlapping w a b = false -> narrowPhase w a b = Some (a, b).
Proof.
  unfold overlapping, narrowPhase, narrowPhaseWith, periodicDelta.
  destruct (periodicDeltaWith Rdiv w _ _ _ _) as [dx dy]. cbv zeta.
  destruct (Rgt_dec _ _); [reflexivity | discriminate].
Qed.

Lemma overlapping_on_line (w : World) (a b : Entity) :
  WRAP_ACTIVE w = false -> on_line a -> on_line b ->
  overlapping w a b
  = if Rgt_dec (Rabs (Entity.x b - Entity.x a)) 34 then false else true.
Proof.
  intros Hw (_ & Hya & Hra & _) (_ & Hyb & Hrb & _).
  unfold overlapping, periodicDelta, periodicDeltaWith.
  rewrite Hw, Hya, Hyb, Hra, Hrb.
  set (dx := Entity.x b - Entity.x a).
  destruct (Rgt_dec _ _) as [H1|H1], (Rgt_dec (Rabs dx) 34) as [H2|H2];
    try reflexivity; exfalso.
  - apply H2. unfold Rabs. destruct (Rcase_abs dx); nra.
  - apply H1. unfold Rabs in H2. destruct (Rcase_abs dx); nra.
Qed.

Lemma narrowPhase_on_line (w : World) (a b : Entity) :
  WRAP_ACTIVE w = false -> on_line a -> on_line b ->
  0 < Entity.x b - Entity.x a <= 34 ->
  exists a' b',
    narrowPhase w a b = Some (a', b') /\ on_line a' /\ on_line b'
    /\ Entity.x a' = Entity.x a - (34 - (Entity.x b - Entity.x a) + EPS) / 2
    /\ Entity.x b' = Entity.x b + (34 - (Entity.x b - Entity.x a) + EPS) / 2.
Proof.
  intros Hw (Hva & Hya & Hra & Hvxa & Hvya) (Hvb & Hyb & Hrb & Hvxb & Hvyb) Hdx.
  unfold narrowPhase, narrowPhaseWith, periodicDeltaWith. rewrite Hw. cbv zeta.
  rewrite Hya, Hyb, Hra, Hrb.
  set (dx := Entity.x b - Entity.x a) in *.
  replace (dx * dx + (20 - 20) * (20 - 20)) with (dx * dx) by ring.
  destruct (Rgt_dec _ _) as [Hfar|_]; [nra|].
  destruct (convert_shape a b Hva Hvb) as (ta & tb & -> & Hta & Htb).
  rewrite contactDist_square by lra.
  replace (dx / dx) with 1 by (field; lra).
  replace ((20 - 20) / dx) with 0 by (field; lra).
  unfold Rmax. destruct (Rle_dec 0 (17 + 17 - dx + EPS)) as [_|Hn];
    [|exfalso; unfold EPS in Hn; lra].
  unfold separateWith. rewrite Hw. cbv zeta.
  unfold bounceWith. cbv zeta. fold clampVel.
  entity_proj. rewrite Hvxa, Hvya, Hvxb, Hvyb, Hya, Hyb.
  match goal with |- context [(clampVel ?a1, clampVel ?b1)] =>
    assert (Ha1 : clampVel a1 = a1)
      by (apply clampVel_within; entity_proj; unfold Rdiv, VMAX; nra);
    assert (Hb1 : clampVel b1 = b1)
      by (apply clampVel_within; entity_proj; unfold Rdiv, VMAX; nra);
    rewrite Ha1, Hb1; clear Ha1 Hb1
  end.
  eexists _, _. split; [reflexivity|].
  unfold on_line, valid_type in *. entity_proj.
  repeat split; try (unfold Rdiv, REST; lra).
  - destruct Hta as [-> | ->]; assumption.
  - destruct Htb as [-> | ->]; assumption.
Qed.

Lemma responses_miss (w : World) (es : list Entity) (i j : nat)
  (rest : list (nat * nat)) (a b : Entity) :
  WRAP_ACTIVE w = false ->
  es !! i = Some a -> es !! j = Some b -> on_line a -> on_line b ->
  34 < Entity.x b - Entity.x a ->
  responses w ((i, j) :: rest) es = responses w rest es.
Proof.
  intros Hw Hi Hj Ha Hb Hdx.
  assert (Hmiss : overlapping w a b = false).
  { rewrite (overlapping_on_line w a b Hw Ha Hb).
    destruct (Rgt_dec _ _) as [|Hn]; [reflexivity|].
    exfalso. apply Hn. rewrite Rabs_pos_eq; lra. }
  cbn [responses fst snd]. unfold resolvePair.
  rewrite Hi, Hj, Hmiss, (narrowPhase_miss w a b Hmiss).
  now rewrite (list_insert_id es i a Hi), (list_insert_id es j b Hj).
Qed.

Lemma responses_hit (w : World) (es : list Entity) (i j : nat)
  (rest : list (nat * nat)) (a b : Entity) :
  WRAP_ACTIVE w = false ->
  es !! i = Some a -> es !! j = Some b -> on_line a -> on_line b ->
  0 < Entity.x b - Entity.x a <= 34 ->
  exists a' b',
    on_line a' /\ on_line b'
    /\ Entity.x a' = Entity.x a - (34 - (Entity.x b - Entity.x a) + EPS) / 2
    /\ Entity.x b' = Entity.x b + (34 - (Entity.x b - Entity.x a) + EPS) / 2
    /\ responses w ((i, j) :: rest) es
       = (i, j) :: responses w rest (<[j := b']> (<[i := a']> es)).
Proof.
  intros Hw Hi Hj Ha Hb Hdx.
  assert (Hhit : overlapping w a b = true).
  { rewrite (overlapping_on_line w a b Hw Ha Hb).
    destruct (Rgt_dec _ _) as [Hgt|]; [|reflexivity].
    exfalso. rewrite Rabs_pos_eq in Hgt; lra. }
  destruct (narrowPhase_on_line w a b Hw Ha Hb Hdx)
    as (a' & b' & Hnp & Ha' & Hb' & Hxa & Hxb).
  exists a', b'. do 4 (split; [assumption|]).
  cbn [responses fst snd]. unfold resolvePair.
  now rewrite Hi, Hj, Hhit, Hnp.
Qed.

Lemma cluster_on_line : Forall on_line (entities cluster).
Proof.
  repeat constructor; unfold valid_type; simpl; lia.
Qed.

Lemma cluster_responses :
  exists rest,
    responses cluster (narrowPhaseCalls cluster (buildGrid cluster))
      (entities cluster)
    = (0, 1)%nat :: (1, 2)%nat :: (0, 1)%nat :: rest.
Proof.
  rewrite cluster_calls.
  pose proof cluster_on_line as Hl.
  change (entities cluster)
    with [ Entity.new 1 0 30 20 17 0 0; Entity.new 2 0 40 20 17 0 0;
           Entity.new 3 0 60 20 17 0 0 ] in *.
  apply Forall_cons_1 in Hl as [Ha Hl].
  apply Forall_cons_1 in Hl as [Hb Hl].
  apply Forall_cons_1 in Hl as [Hc _].
  set (a := Entity.new 1 0 30 20 17 0 0) in *.
  set (b := Entity.new 2 0 40 20 17 0 0) in *.
  set (c := Entity.new 3 0 60 20 17 0 0) in *.
  assert (Hxa : Entity.x a = 30) by reflexivity.
  assert (Hxb : Entity.x b = 40) by reflexivity.
  assert (Hxc : Entity.x c = 60) by reflexivity.
  clearbody a b c.
  (* call 1: (a, b) overlap *)
  destruct (responses_hit cluster [a; b; c] 0 1
              [ (0, 1); (0, 2); (1, 2); (0, 1); (0, 1); (0, 2); (1, 2) ]%nat
              a b eq_refl eq_refl eq_refl Ha Hb)
    as (a1 & b1 & Ha1 & Hb1 & Hxa1 & Hxb1 & ->); [lra|].
  cbn [insert list_insert].
  unfold EPS in *. rewrite Hxa, Hxb in Hxa1, Hxb1.
  (* calls 2 and 3: apart *)
  rewrite (responses_miss cluster [a1; b1; c] 0 1 _ a1 b1 eq_refl eq_refl eq_refl
             Ha1 Hb1) by lra.
  rewrite (responses_miss cluster [a1; b1; c] 0 2 _ a1 c eq_refl eq_refl eq_refl
             Ha1 Hc) by lra.
  (* call 4: (b, c) overlap, which pushes b back onto a *)
  destruct (responses_hit cluster [a1; b1; c] 1 2
              [ (0, 1); (0, 1); (0, 2); (1, 2) ]%nat
              b1 c eq_refl eq_refl eq_refl Hb1 Hc)
    as (b2 & c2 & Hb2 & Hc2 & Hxb2 & Hxc2 & ->); [lra|].
  cbn [insert list_insert].
  unfold EPS in *. rewrite Hxb1, Hxc in Hxb2, Hxc2.
  (* call 5: (a, b) overlap again *)
  destruct (responses_hit cluster [a1; b2; c2] 0 1
              [ (0, 1); (0, 2); (1, 2) ]%nat
              a1 b2 eq_refl eq_refl eq_refl Ha1 Hb2)
    as (a3 & b3 & _ & _ & _ & _ & ->); [lra|].
  eexists. reflexivity.
Qed.

(** C1 refuted.  In [cluster] one pass hands the pair of the first two
    discs to [narrowPhase] four times, and two of these calls get past the
    overlap test and run the full response: the first call separates the
    pair, the call on the second and third disc pushes the second back onto
    the first, and the next call on the pair finds it overlapping again. *)
Lemma cluster_pair_resolved_twice :
  timesResolved cluster 0 1 = 4%nat
  /\ ~ (timesResolved cluster 0 1 <= 1)%nat
  /\ exists rest,
       responses cluster (narrowPhaseCalls cluster (buildGrid cluster))
         (entities cluster)
       = (0, 1)%nat :: (1, 2)%nat :: (0, 1)%nat :: rest.
Proof.
  assert (H4 : timesResolved cluster 0 1 = 4%nat).
  { unfold timesResolved. rewrite cluster_calls. reflexivity. }
  split; [exact H4|]. split; [rewrite H4; lia|]. exact cluster_responses.
Qed.

(** ** Boundary containment *)

Lemma foldM_resolvePair_apart (w : World) (es : list Entity)
  (calls : list (nat * nat)) :
  (forall i j a b, es !! i = Some a -> es !! j = Some b -> i <> j ->
                   overlapping w a b = false) ->
  (forall i j, In (i, j) calls -> i <> j) ->
  foldM (resolvePair w) calls es = Some es.
Proof.
  intros Hno. induction calls as [|[i j] calls IH]; intros Hne; [reflexivity|].
  cbn [foldM]. unfold resolvePair.
  destruct (es !! i) as [a|] eqn:Hi; [|apply IH; intros; apply Hne; now right].
  destruct (es !! j) as [b|] eqn:Hj; [|apply IH; intros; apply Hne; now right].
  rewrite (narrowPhase_miss w a b).
  - rewrite (list_insert_id es i a Hi), (list_insert_id es j b Hj).
    apply IH. intros; apply Hne; now right.
  - apply (Hno i j); try assumption. apply Hne. now left.
Qed.

(** A pass over entities of which no two overlap changes nothing. *)
Lemma handleCollisionsGrid_apart (w : World) :
  no_overlap w -> handleCollisionsGrid w = Some w.
Proof.
  intros Hno. unfold handleCollisionsGrid.
  rewrite foldM_resolvePair_apart; [now destruct w|exact Hno|].
  intros i j Hin.
  destruct (narrowPhaseCalls_In w _ i j Hin) as (a & b & _ & _ & Hne & _).
  exact Hne.
Qed.

(** C2, as the code has it.  In wrap mode every entity is in
    [0 <= x < width], [0 <= y < height] after a step in an arena of positive
    size.  In bounce mode entities that fit the arena are within
    [radius <= x <= width - radius], [radius <= y <= height - radius] when
    the integration of the step ends, and the step ends in that state when
    no two entities overlap; the collision pass wraps the positions it
    corrects in wrap mode only. *)
Theorem boundary_containment (dt : R) (ui : Controls) (w : World) :
  Forall valid_type (entities w) -> 0 < VIEW_W w -> 0 < VIEW_H w ->
  (wallModeEl_value ui = "wrap" ->
   exists w',
     step dt ui w = Some w'
     /\ Forall (in_torus (VIEW_W w) (VIEW_H w)) (entities w')) /\
  (wallModeEl_value ui <> "wrap" ->
   Forall (fits (VIEW_W w) (VIEW_H w)) (entities w) ->
   Forall (in_walls (VIEW_W w) (VIEW_H w)) (entities (integrate dt ui w))
   /\ (no_overlap (integrate dt ui w) ->
       step dt ui w = Some (integrate dt ui w))).
Proof.
  intros Hv HW HH. split.
  - intros Hmode.
    destruct (step_inv (in_torus (VIEW_W w) (VIEW_H w)) dt ui w)
      as (w' & Hs & _ & Hok & _).
    + rewrite Hmode. intros e _. simpl.
      destruct (update_shape (VIEW_W w) (VIEW_H w) dt (speedEl_value ui) true e)
        as (x' & y' & vx' & vy' & -> & _ & Hpos & _).
      exact (Hpos eq_refl HW HH).
    + rewrite Hmode. intros w1 a b a' b' Hwrap HW1 HH1. rewrite <- HW1, <- HH1.
      apply narrowPhase_in_torus; [exact Hwrap | lra | lra].
    + assumption.
    + now exists w'.
  - intros Hmode Hfits. split.
    + unfold integrate. cbv zeta.
      apply String.eqb_neq in Hmode. rewrite Hmode. simpl.
      apply List.Forall_forall. intros e' Hin.
      apply in_map_iff in Hin as (e & <- & Hin).
      rewrite List.Forall_forall in Hfits. destruct (Hfits e Hin) as [Hrw Hrh].
      destruct (update_shape (VIEW_W w) (VIEW_H w) dt (speedEl_value ui) false e)
        as (x' & y' & vx' & vy' & -> & _ & _ & Hpos).
      exact (Hpos eq_refl Hrw Hrh).
    + intros Hno. unfold step. now apply handleCollisionsGrid_apart.
Qed.

Lemma boundary_containment_witness :
  (wallModeEl_value bounceControls = "wrap" ->
   exists w',
     step (1 / 60) bounceControls atTheWall = Some w'
     /\ Forall (in_torus (VIEW_W atTheWall) (VIEW_H atTheWall)) (entities w')) /\
  (wallModeEl_value bounceControls <> "wrap" ->
   Forall (fits (VIEW_W atTheWall) (VIEW_H atTheWall)) (entities atTheWall) ->
   Forall (in_walls (VIEW_W atTheWall) (VIEW_H atTheWall))
     (entities (integrate (1 / 60) bounceControls atTheWall))
   /\ (no_overlap (integrate (1 / 60) bounceControls atTheWall) ->
       step (1 / 60) bounceControls atTheWall
       = Some (integrate (1 / 60) bounceControls atTheWall))).
Proof.
  apply (boundary_containment (1 / 60) bounceControls atTheWall).
  - repeat constructor; unfold valid_type; simpl; lia.
  - simpl. lra.
  - simpl. lra.
Defined.

(** *** A step in bounce mode that ends outside the walls *)

Lemma bounceWalls_inside (W H : R) (e : Entity) :
  in_walls W H e -> bounceWalls W H e = e.
Proof.
  intros [[Hx1 Hx2] [Hy1 Hy2]]. unfold bounceWalls.
  destruct (Rlt_dec (Entity.x e - Entity.r e) 0); [lra|]. cbv zeta.
  destruct (Rgt_dec (Entity.x e + Entity.r e) W); [lra|].
  destruct (Rlt_dec (Entity.y e - Entity.r e) 0); [lra|].
  destruct (Rgt_dec (Entity.y e + Entity.r e) H); [lra|].
  reflexivity.
Qed.

(** An entity at rest within the walls is left as it is by [update]. *)
Lemma update_at_rest (W H dt spd : R) (e : Entity) :
  Entity.vx e = 0 -> Entity.vy e = 0 -> in_walls W H e ->
  update W H dt spd false e = e.
Proof.
  intros Hvx Hvy Hin. unfold update. cbv zeta.
  rewrite Hvx, Hvy.
  replace (Entity.set_y _ (Entity.set_x _ e)) with e.
  - rewrite bounceWalls_inside by assumption.
    apply clampVel_within. rewrite Hvx, Hvy. unfold VMAX. lra.
  - destruct e. entity_norm. f_equal; lra.
Qed.

(** Where the separation leaves the first entity of an overlapping pair
    in bounce mode. *)
Lemma narrowPhase_bounce_mode (w : World) (a b a' b' : Entity) :
  WRAP_ACTIVE w = false ->
  narrowPhase w a b = Some (a', b') ->
  let dx := Entity.x b - Entity.x a in
  let dy := Entity.y b - Entity.y a in
  let minDist := Entity.r a + Entity.r b in
  dx * dx + dy * dy <= minDist * minDist ->
  Entity.r a' = Entity.r a /\
  Entity.x a' =
    Entity.x a
    - dx / contactDist (dx * dx + dy * dy)
      * Rmax 0 (minDist - contactDist (dx * dx + dy * dy) + EPS) / 2.
Proof.
  intros Hwrap Hnp dx dy minDist Hnear.
  unfold narrowPhase, narrowPhaseWith, periodicDeltaWith in Hnp.
  rewrite Hwrap in Hnp. cbv zeta in Hnp. fold dx dy minDist in Hnp.
  destruct (Rgt_dec _ _) as [Hfar|_] in Hnp; [lra|].
  destruct (convert a b) as [[a1 b1]|] eqn:Hc; [|discriminate].
  destruct (convert_same_but_type _ _ _ _ Hc) as [Hsa Hsb].
  unfold separateWith in Hnp. rewrite Hwrap in Hnp. cbv zeta in Hnp.
  unfold bounceWith in Hnp. cbv zeta in Hnp. fold clampVel in Hnp.
  injection Hnp as <- _.
  match goal with |- context [clampVel ?e] =>
    destruct (clampVel_shape e) as (vx' & vy' & -> & _)
  end.
  rewrite Hsa. entity_proj. split; reflexivity.
Qed.

Lemma atTheWall_grid :
  buildGrid atTheWall = [ ((0, 0)%Z, [0; 1]%nat) ].
Proof.
  cbv [buildGrid atTheWall entities length seq combine fold_left fst snd
       insertIntoGrid Entity.new Entity.x Entity.y Entity.r CELL
       WRAP_ACTIVE GW GH].
  eval_floors. reflexivity.
Qed.

Lemma atTheWall_in_walls :
  Forall (in_walls (VIEW_W atTheWall) (VIEW_H atTheWall)) (entities atTheWall).
Proof.
  repeat constructor; cbv [atTheWall VIEW_W VIEW_H Entity.new]; entity_norm; lra.
Qed.

(** C2 refuted in bounce mode: the two discs of [atTheWall] lie within the
    walls, and one step leaves the left one at [x = 2.4995], less than its
    radius 17. *)
Lemma atTheWall_step_leaves_walls :
  Forall (in_walls (VIEW_W atTheWall) (VIEW_H atTheWall)) (entities atTheWall)
  /\ exists w' e,
       step (1 / 60) bounceControls atTheWall = Some w'
       /\ entities w' !! 0%nat = Some e
       /\ Entity.x e = 4999 / 2000 /\ Entity.r e = 17
       /\ ~ Forall (in_walls (VIEW_W atTheWall) (VIEW_H atTheWall))
                   (entities w').
Proof.
  split; [exact atTheWall_in_walls|].
  pose proof atTheWall_in_walls as Hin.
  apply Forall_cons_1 in Hin as [Hin1 Hin2].
  apply Forall_cons_1 in Hin2 as [Hin2 _].
  unfold step, integrate. cbv zeta.
  change (String.eqb (wallModeEl_value bounceControls) "wrap") with false.
  change (entities (set_WRAP_ACTIVE false atTheWall)) with (entities atTheWall).
  change (VIEW_W (set_WRAP_ACTIVE false atTheWall)) with (VIEW_W atTheWall).
  change (VIEW_H (set_WRAP_ACTIVE false atTheWall)) with (VIEW_H atTheWall).
  change (entities atTheWall)
    with [Entity.new 1 0 17 20 17 0 0; Entity.new 2 1 22 20 17 0 0] at 1.
  cbn [map].
  rewrite !update_at_rest by (reflexivity || assumption).
  change (set_entities _ (set_WRAP_ACTIVE false atTheWall)) with atTheWall.
  unfold handleCollisionsGrid. rewrite atTheWall_grid.
  change (narrowPhaseCalls atTheWall [((0, 0)%Z, [0; 1]%nat)])
    with [(0, 1)%nat].
  cbn [foldM]. unfold resolvePair.
  change (entities atTheWall !! 0%nat) with (Some (Entity.new 1 0 17 20 17 0 0)).
  change (entities atTheWall !! 1%nat) with (Some (Entity.new 2 1 22 20 17 0 0)).
  cbv iota beta.
  destruct (narrowPhase atTheWall _ _) as [[a' b']|] eqn:Hnp.
  - destruct (narrowPhase_bounce_mode atTheWall _ _ _ _ eq_refl Hnp) as [Hr Hx].
    { cbv [Entity.new]. entity_norm. lra. }
    revert Hr Hx. cbv [Entity.new]. entity_proj. intros Hr Hx.
    replace ((22 - 17) * (22 - 17) + (20 - 20) * (20 - 20)) with (5 * 5)
      in Hx by lra.
    rewrite contactDist_square in Hx by lra.
    assert (HxR : Entity.x a' = 4999 / 2000).
    { rewrite Hx. unfold Rmax, EPS.
      destruct (Rle_dec 0 (17 + 17 - 5 + 1 / 1000)); lra. }
    exists (set_entities (<[1%nat := b']> (<[0%nat := a']> (entities atTheWall)))
              atTheWall), a'.
    split; [reflexivity|]. split; [reflexivity|]. split; [exact HxR|].
    split; [exact Hr|].
    intros Hall. apply Forall_cons_1 in Hall as [[[Hlo _] _] _]. lra.
  - exfalso.
    pose proof atTheWall_valid as Hv.
    apply Forall_cons_1 in Hv as [Hv1 Hv2].
    apply Forall_cons_1 in Hv2 as [Hv2 _].
    destruct (narrowPhase_shape atTheWall _ _ Hv1 Hv2) as (a' & b' & Heq & _).
    congruence.
Qed.

(** ** Instances *)

Lemma step_preserves_count_witness :
  (exists w',
     steps [(1 / 60, bounceControls); (1 / 60, bounceControls)] atTheWall
       = Some w'
     /\ length (entities w') = length (entities atTheWall)) /\
  length (entities (clearAll atTheWall)) = 0%nat.
Proof.
  apply (step_preserves_count
           [(1 / 60, bounceControls); (1 / 60, bounceControls)] atTheWall).
  repeat constructor; unfold valid_type; simpl; lia.
Defined.

Lemma velocity_cap_witness :
  exists w',
    step (1 / 60) wrapControls atTheWall = Some w'
    /\ Forall speed_ok (entities w')
    /\ Forall valid_type (entities w')
    /\ Forall constructed (entities w')
    /\ VIEW_W w' = VIEW_W atTheWall /\ VIEW_H w' = VIEW_H atTheWall.
Proof.
  apply (velocity_cap (1 / 60) wrapControls atTheWall).
  - repeat constructor; unfold valid_type; simpl; lia.
  - repeat constructor; simpl; lra.
  - intros _. simpl. split; lra.
Defined.

Lemma convert_frame_witness :
  exists a' b',
    convert (Entity.new 1 0 17 20 17 0 0) (Entity.new 2 1 22 20 17 0 0)
      = Some (a', b')
    /\ Entity.t a' = 1%nat /\ b' = Entity.new 2 1 22 20 17 0 0.
Proof.
  destruct (convert_frame
              (Entity.new 1 0 17 20 17 0 0) (Entity.new 2 1 22 20 17 0 0)
              {| TypeDef.id := "circle"; TypeDef.label := "Circles (Rock)";
                 TypeDef.cssVar := "--circle" |}
              {| TypeDef.id := "square"; TypeDef.label := "Squares (Paper)";
                 TypeDef.cssVar := "--square" |}
              eq_refl eq_refl)
    as (a' & b' & Hc & _ & _ & _ & Hb & _).
  exists a', b'. split; [exact Hc|]. exact (Hb eq_refl).
Defined.




(** * Further properties of the engine *)

(** ** Rules *)

Lemma firstError_Some {A} (body : A -> option RuleError) (l : list A) (u : A) :
  In u l -> body u <> None -> firstError body l <> None.
Proof.
  induction l as [|v l IH]; simpl; [tauto|].
  intros [->|Hin] Hb.
  - destruct (body u); [discriminate | contradiction].
  - destruct (body v); [discriminate | auto].
Qed.

Lemma firstError_None_iff {A} (body : A -> option RuleError) (l : list A) :
  firstError body l = None <-> forall u, In u l -> body u = None.
Proof.
  split; [apply firstError_None|].
  intros Hall. destruct (firstError body l) as [e|] eqn:He; [|reflexivity].
  exfalso. induction l as [|v l IH]; simpl in He; [discriminate|].
  destruct (body v) eqn:Hv.
  - rewrite Hall in Hv by now left. discriminate.
  - apply IH; [|assumption]. intros u Hu. apply Hall. now right.
Qed.

(** X1. [validateRules] returns without throwing exactly when every entry
    of the map has a known key and every target it lists is known, differs
    from the key, and does not list the key in its own entry. *)
Theorem validateRules_iff (ids : list string) (m : BeatsMap) :
  validateRules ids m = None <->
  (forall a outs, In (a, outs) m ->
     In a ids /\
     forall b, In b outs -> In b ids /\ b <> a /\ get_has m b a = false).
Proof.
  unfold validateRules. cbv zeta. rewrite firstError_None_iff. split.
  - intros Hall a outs Hin. specialize (Hall _ Hin). simpl in Hall.
    destruct (Set_has (Set_of ids) a) eqn:Ha; [simpl in Hall|discriminate].
    apply (proj1 (Set_has_In _ _)), (proj1 (Set_of_In _ _)) in Ha.
    split; [assumption|]. intros b Hb.
    pose proof (firstError_None _ _ Hall _ Hb) as Hc. simpl in Hc.
    destruct (Set_has (Set_of ids) b) eqn:Hib; [simpl in Hc|discriminate].
    apply (proj1 (Set_has_In _ _)), (proj1 (Set_of_In _ _)) in Hib.
    destruct (String.eqb b a) eqn:Heq; [discriminate|].
    apply String.eqb_neq in Heq.
    destruct (get_has m b a); [discriminate|]. repeat split; assumption.
  - intros Hall [a outs] Hin. destruct (Hall a outs Hin) as [Ha Hb].
    apply (proj2 (Set_of_In _ _)), (proj2 (Set_has_In _ _)) in Ha.
    rewrite Ha. simpl. apply firstError_None_iff. intros b Hin'.
    destruct (Hb b Hin') as (Hib & Hne & Hf).
    apply (proj2 (Set_of_In _ _)), (proj2 (Set_has_In _ _)) in Hib.
    rewrite Hib. simpl. apply String.eqb_neq in Hne. now rewrite Hne, Hf.
Qed.

(** In the configured rules every two distinct types have a winner. *)
Lemma beats_decided (i j : nat) (ti tj : TypeDef) :
  TypeRegistry !! i = Some ti -> TypeRegistry !! j = Some tj -> i <> j ->
  winnerOf beatsMap (TypeDef.id ti) (TypeDef.id tj) <> None.
Proof.
  do 5 (destruct i as [|i];
        [do 5 (destruct j as [|j];
               [intros [= <-] [= <-] Hne;
                first [now contradiction Hne | discriminate]|]);
         discriminate|]).
  discriminate.
Qed.

(** X2. A call of [narrowPhase] on two overlapping entities of registered
    types returns and leaves both with the same type, which is the type
    one of them had: equal types stay, and of two different types one
    always beats the other. *)
Theorem narrowPhase_same_type (w : World) (a b : Entity) :
  valid_type a -> valid_type b -> overlapping w a b = true ->
  exists a' b',
    narrowPhase w a b = Some (a', b')
    /\ Entity.t a' = Entity.t b'
    /\ (Entity.t a' = Entity.t a \/ Entity.t a' = Entity.t b).
Proof.
  intros Hva Hvb Hov.
  destruct (valid_type_lookup a Hva) as [ta Ha].
  destruct (valid_type_lookup b Hvb) as [tb Hb].
  pose proof (convert_cases a b ta tb Ha Hb) as Hc.
  assert (Hconv : exists k, convert a b
                            = Some (Entity.set_t k a, Entity.set_t k b)
                            /\ (k = Entity.t a \/ k = Entity.t b)).
  { destruct (decide (Entity.t a = Entity.t b)) as [Heq|Hne].
    - exists (Entity.t a). split; [|now left].
      rewrite Heq, Hb in Ha. injection Ha as ->.
      unfold winnerOf in Hc. rewrite String.eqb_refl in Hc.
      now rewrite Heq at 2; rewrite !set_t_same.
    - pose proof (beats_decided _ _ _ _ Ha Hb Hne) as Hdec.
      destruct (winnerOf beatsMap _ _) as [u|]; [|contradiction].
      destruct (String.eqb u (TypeDef.id ta)).
      + exists (Entity.t a). rewrite set_t_same. auto.
      + destruct Hc as [_ Hc]. exists (Entity.t b). rewrite set_t_same. auto. }
  destruct Hconv as (k & Hconv & Hk).
  unfold overlapping, periodicDelta in Hov.
  unfold narrowPhase, narrowPhaseWith.
  destruct (periodicDeltaWith Rdiv w _ _ _ _) as [dx dy]. cbv zeta in *.
  destruct (Rgt_dec _ _); [discriminate|].
  rewrite Hconv. fold separate.
  match goal with |- context [separate w ?nx ?ny ?o ?a1 ?b1] =>
    destruct (separate_shape w nx ny o a1 b1)
      as (xa & ya & xb & yb & -> & _);
    fold (bounce nx ny);
    match goal with |- context [bounce nx ny ?a2 ?b2] =>
      destruct (bounce_shape nx ny a2 b2)
        as (vxa & vya & vxb & vyb & -> & _)
    end
  end.
  eexists _, _. split; [reflexivity|]. simpl. auto.
Qed.

Lemma narrowPhase_same_type_witness :
  exists a' b',
    narrowPhase atTheWall (Entity.new 1 0 17 20 17 0 0)
                (Entity.new 2 1 22 20 17 0 0) = Some (a', b')
    /\ Entity.t a' = Entity.t b'
    /\ (Entity.t a' = Entity.t (Entity.new 1 0 17 20 17 0 0)
        \/ Entity.t a' = Entity.t (Entity.new 2 1 22 20 17 0 0)).
Proof.
  apply narrowPhase_same_type.
  - unfold valid_type. cbn. lia.
  - unfold valid_type. cbn. lia.
  - unfold overlapping, periodicDelta, periodicDeltaWith, Entity.new.
    cbn [WRAP_ACTIVE atTheWall]. entity_norm.
    destruct (Rgt_dec _ _) as [Hfar|_]; [lra | reflexivity].
Defined.

(** X3. A step creates no type: when no entity has the type index [k]
    before a step, none has it after. *)
Theorem step_no_new_type (dt : R) (ui : Controls) (w : World) (k : nat) :
  Forall valid_type (entities w) ->
  Forall (fun e => Entity.t e <> k) (entities w) ->
  exists w',
    step dt ui w = Some w'
    /\ Forall (fun e => Entity.t e <> k) (entities w').
Proof.
  intros Hv Hk.
  destruct (step_inv (fun e => Entity.t e <> k) dt ui w)
    as (w' & Hs & _ & Hok & _).
  - intros e Hin.
    destruct (update_shape (VIEW_W w) (VIEW_H w) dt (speedEl_value ui)
                (String.eqb (wallModeEl_value ui) "wrap") e)
      as (x' & y' & vx' & vy' & -> & _).
    simpl. rewrite List.Forall_forall in Hk. now apply Hk.
  - intros w1 a b a' b' _ _ _ Hva Hvb Hta Htb Hnp.
    destruct (narrowPhase_shape w1 a b Hva Hvb) as (a1 & b1 & Heq & Hsh).
    rewrite Heq in Hnp. injection Hnp as <- <-.
    destruct Hsh as [[-> ->]|Hsh]; [auto|].
    destruct Hsh as (ta & tb & xa & ya & xb & yb & vxa & vya & vxb & vyb
                     & _ & -> & -> & Hta' & Htb' & _).
    simpl. destruct Hta' as [-> | ->], Htb' as [-> | ->]; auto.
  - assumption.
  - now exists w'.
Qed.

Lemma step_no_new_type_witness :
  exists w',
    step (1 / 60) bounceControls cluster = Some w'
    /\ Forall (fun e => Entity.t e <> 1%nat) (entities w').
Proof.
  apply step_no_new_type.
  - repeat constructor; unfold valid_type; cbn; lia.
  - repeat constructor; cbn; lia.
Defined.

(** ** Seeding and random numbers *)

(** X4. [setSeed] keeps the first 128 code units of the seed, reports a
    truncation exactly for longer strings, and builds the same stream for
    two strings that agree on their first 128 code units. *)
Theorem setSeed_truncation (s1 s2 : JsString) :
  fst (setSeed s1) = firstn 128 s1
  /\ (length (fst (setSeed s1)) <= 128)%nat
  /\ (setSeedTruncates s1 = true <-> (128 < length s1)%nat)
  /\ (firstn 128 s1 = firstn 128 s2 -> setSeed s1 = setSeed s2).
Proof.
  unfold setSeedTruncates, setSeed, MAX_SEED_LEN. cbn [fst snd].
  split; [reflexivity|]. split; [apply firstn_le_length|]. split.
  - rewrite length_firstn, negb_true_iff, Nat.eqb_neq. lia.
  - intros ->. reflexivity.
Qed.

Lemma ToInt32_mod (z : Z) : ToInt32 (z mod 2 ^ 32) = ToInt32 z.
Proof. unfold ToInt32. now rewrite Z.mod_mod by lia. Qed.

Lemma ToUint32_mod (z : Z) : ToUint32 (z mod 2 ^ 32) = ToUint32 z.
Proof. unfold ToUint32. now rewrite Z.mod_mod by lia. Qed.

Lemma xor32_mod_l (t u : Z) : xor32 (t mod 2 ^ 32) u = xor32 t u.
Proof. unfold xor32. now rewrite ToInt32_mod. Qed.

Lemma or32_mod_l (t u : Z) : or32 (t mod 2 ^ 32) u = or32 t u.
Proof. unfold or32. now rewrite ToInt32_mod. Qed.

Lemma ushr32_mod_l (t n : Z) : ushr32 (t mod 2 ^ 32) n = ushr32 t n.
Proof. unfold ushr32. now rewrite ToUint32_mod. Qed.

(** The results of a stream depend on its counter modulo 2^32 only. *)
Lemma mulberry32_mix_mod (t : Z) :
  mulberry32_mix (t mod 2 ^ 32) = mulberry32_mix t.
Proof.
  unfold mulberry32_mix.
  rewrite xor32_mod_l, or32_mod_l, ushr32_mod_l. reflexivity.
Qed.

Lemma mulberry32_call_mix (a : Z) :
  mulberry32_call a
  = (mulberry32_mix (roundInt53 (a + 0x6D2B79F5)),
     roundInt53 (a + 0x6D2B79F5)).
Proof. unfold mulberry32_call, mulberry32_mix. cbv zeta. reflexivity. Qed.

Lemma roundInt53_small (z : Z) : (z < 2 ^ 53)%Z -> roundInt53 z = z.
Proof.
  intros Hlt. unfold roundInt53.
  destruct (Z.ltb_spec z (2 ^ 53)) as [_|Hge]; [reflexivity|].
  exfalso. apply (Z.lt_irrefl z). eapply Z.lt_le_trans; eassumption.
Qed.

Lemma mulberry32_call_exact (a : Z) :
  (a + 0x6D2B79F5 < 2 ^ 53)%Z ->
  mulberry32_call a
  = (mulberry32_mix ((a + 0x6D2B79F5) mod 2 ^ 32), (a + 0x6D2B79F5)%Z).
Proof.
  intros Hlt. rewrite mulberry32_call_mix, roundInt53_small by exact Hlt.
  now rewrite mulberry32_mix_mod.
Qed.

Lemma outputs_numerators (n : nat) (g : Rng) :
  outputs n g = map (fun u => IZR u / 4294967296) (numerators n g).
Proof.
  revert g. induction n as [|n IH]; intros g; [reflexivity|].
  cbn [outputs numerators]. unfold rng_next.
  destruct (mulberry32_call g) as [u g']. cbn [map]. now rewrite IH.
Qed.

(** X5. While the counter of a stream stays below 2^53 it is the plain sum
    [a + k * 0x6D2B79F5], never wrapped and never rounded, and the [k]-th
    result is computed from that sum modulo 2^32: for its first [n] calls
    the stream is the one of a generator that wraps its counter to 32
    bits. *)
Theorem mulberry32_counter_exact (a : Z) (n : nat) :
  (a + Z.of_nat n * 0x6D2B79F5 < 2 ^ 53)%Z ->
  numerators n (mulberry32 a)
  = map (fun k => mulberry32_mix
                    ((a + Z.of_nat k * 0x6D2B79F5) mod 2 ^ 32)) (seq 1 n)
  /\ outputs n (mulberry32 a)
     = map (fun u => IZR u / 4294967296) (numerators n (mulberry32 a)).
Proof.
  intros Hlt. split; [|apply outputs_numerators].
  unfold mulberry32. revert a Hlt. induction n as [|n IH]; intros a Hlt.
  - reflexivity.
  - rewrite Nat2Z.inj_succ in Hlt.
    set (c := 0x6D2B79F5%Z) in *. assert (Hc : (0 < c)%Z) by reflexivity.
    set (p := (2 ^ 53)%Z) in *.
    cbn [numerators]. fold c. rewrite mulberry32_call_exact by (fold c p; nia).
    cbn [seq map]. f_equal.
    fold c. rewrite IH by (fold c p; nia).
    rewrite <- (seq_shift n 1), map_map.
    apply map_ext. intros k. f_equal. f_equal. lia.
Qed.

Lemma mulberry32_counter_exact_witness :
  numerators 2 (mulberry32 0)
  = map (fun k => mulberry32_mix
                    ((0 + Z.of_nat k * 0x6D2B79F5) mod 2 ^ 32)) (seq 1 2)
  /\ outputs 2 (mulberry32 0)
     = map (fun u => IZR u / 4294967296) (numerators 2 (mulberry32 0)).
Proof. apply mulberry32_counter_exact. reflexivity. Defined.

Lemma rand_bounds (min max : R) (g : Rng) :
  min < max -> min <= fst (rand min max g) < max.
Proof.
  intros Hlt. unfold rand.
  pose proof (rng_next_range g) as Hu.
  destruct (rng_next g) as [u g']. cbn [fst] in *. nra.
Qed.

(** X6. [rand(min, max)] lies in [min, max) when [min < max], and is
    [min] itself when [min] equals [max]. *)
Theorem rand_range (min max : R) (g : Rng) :
  min <= max ->
  min <= fst (rand min max g) <= max
  /\ (min < max -> fst (rand min max g) < max).
Proof.
  intros Hle. split.
  - destruct (Rle_lt_or_eq_dec min max Hle) as [Hlt| ->].
    + pose proof (rand_bounds min max g Hlt). lra.
    + unfold rand. destruct (rng_next g) as [u g']. cbn [fst]. lra.
  - intros Hlt. now apply rand_bounds.
Qed.

Lemma rand_range_witness :
  19 <= fst (rand 19 781 (rng emptyWorld)) <= 781
  /\ (19 < 781 -> fst (rand 19 781 (rng emptyWorld)) < 781).
Proof. apply rand_range. lra. Defined.

Lemma randVel_bounds (g : Rng) :
  let vx := fst (fst (randVel g)) in
  let vy := snd (fst (randVel g)) in
  48 * 48 <= vx * vx + vy * vy < 120 * 120.
Proof.
  cbv zeta. unfold randVel.
  destruct (rng_next g) as [u g1].
  pose proof (rand_bounds (8 / 10) 2 g1 ltac:(lra)) as Hm.
  destruct (rand (8 / 10) 2 g1) as [m g2]. cbn [fst snd] in *.
  set (angle := u * PI * 2).
  assert (Hsq : cos angle * (m * 60) * (cos angle * (m * 60))
                + sin angle * (m * 60) * (sin angle * (m * 60))
                = (m * 60) * (m * 60)).
  { pose proof (sin2_cos2 angle) as Hsc. unfold Rsqr in Hsc.
    replace (cos angle * (m * 60) * (cos angle * (m * 60))
             + sin angle * (m * 60) * (sin angle * (m * 60)))
      with ((sin angle * sin angle + cos angle * cos angle)
            * ((m * 60) * (m * 60))) by ring.
    rewrite Hsc. ring. }
  rewrite Hsq. nra.
Qed.

(** X7. [randVel] draws a velocity whose speed is at least 48 and less
    than 120 px/s, below the cap [VMAX]: [clampVel] leaves a freshly
    drawn velocity as it is. *)
Theorem randVel_speed (g : Rng) (e : Entity) :
  let vx := fst (fst (randVel g)) in
  let vy := snd (fst (randVel g)) in
  48 <= sqrt (vx * vx + vy * vy) < 120
  /\ sqrt (vx * vx + vy * vy) < VMAX
  /\ clampVel (Entity.set_vy vy (Entity.set_vx vx e))
     = Entity.set_vy vy (Entity.set_vx vx e).
Proof.
  cbv zeta. pose proof (randVel_bounds g) as Hb. cbv zeta in Hb.
  set (vx := fst (fst (randVel g))) in *.
  set (vy := snd (fst (randVel g))) in *.
  assert (Hs : 48 <= sqrt (vx * vx + vy * vy) < 120).
  { split.
    - rewrite <- (sqrt_square 48) by lra. apply sqrt_le_1_alt. lra.
    - rewrite <- (sqrt_square 120) by lra. apply sqrt_lt_1_alt. lra. }
  split; [exact Hs|]. split; [unfold VMAX; lra|].
  apply clampVel_within. entity_proj. unfold VMAX. lra.
Qed.

(** ** Spawning and initialisation *)

Lemma tryPlace_range (retries : nat) (w : World) (radius : R) (g : Rng) :
  radius + 2 < VIEW_W w - radius - 2 ->
  radius + 2 < VIEW_H w - radius - 2 ->
  radius + 2 <= fst (fst (tryPlace retries w radius g)) < VIEW_W w - radius - 2
  /\ radius + 2 <= snd (fst (tryPlace retries w radius g))
     < VIEW_H w - radius - 2.
Proof.
  intros HW HH. revert g. induction retries as [|k IH]; intros g;
    cbn [tryPlace];
    pose proof (rand_bounds _ _ g HW) as Hx;
    destruct (rand (radius + 2) (VIEW_W w - radius - 2) g) as [px g1];
    pose proof (rand_bounds _ _ g1 HH) as Hy;
    destruct (rand (radius + 2) (VIEW_H w - radius - 2) g1) as [py g2];
    destruct (overlapsAny (entities w) px py radius); auto.
Qed.

(** One round of [spawn]: the entity pushed and the counters. *)
Lemma spawnOne_spec (typeIndex : nat) (radius : R) (w : World) :
  exists e,
    entities (spawnOne typeIndex radius w) = (entities w ++ [e])%list
    /\ ENTITY_ID (spawnOne typeIndex radius w) = (ENTITY_ID w + 1)%Z
    /\ VIEW_W (spawnOne typeIndex radius w) = VIEW_W w
    /\ VIEW_H (spawnOne typeIndex radius w) = VIEW_H w
    /\ Entity._id e = ENTITY_ID w
    /\ Entity.t e = typeIndex
    /\ (radius + 2 < VIEW_W w - radius - 2 ->
        radius + 2 < VIEW_H w - radius - 2 ->
        spawned w typeIndex radius e).
Proof.
  unfold spawnOne.
  pose proof (randVel_bounds (rng w)) as Hv. cbv zeta in Hv.
  destruct (randVel (rng w)) as [[vx vy] g]. cbn [fst snd] in Hv.
  pose proof (tryPlace_range (maxTries - 1) w radius g) as Hp.
  destruct (tryPlace (maxTries - 1) w radius g) as [[px py] g'].
  cbn [fst snd] in Hp.
  eexists. split; [reflexivity|]. do 5 (split; [reflexivity|]).
  intros HW HH. destruct (Hp HW HH) as [Hx Hy].
  unfold spawned. cbn. repeat split; try reflexivity; lra.
Qed.

Lemma iter_spawnOne_spec (typeIndex : nat) (radius : R) (k : nat) (w : World) :
  let w' := Nat.iter k (spawnOne typeIndex radius) w in
  exists new,
    entities w' = (entities w ++ new)%list
    /\ length new = k
    /\ ENTITY_ID w' = (ENTITY_ID w + Z.of_nat k)%Z
    /\ VIEW_W w' = VIEW_W w /\ VIEW_H w' = VIEW_H w
    /\ map Entity._id new
       = map (fun i => (ENTITY_ID w + Z.of_nat i)%Z) (seq 0 k)
    /\ Forall (fun e => Entity.t e = typeIndex) new
    /\ (radius + 2 < VIEW_W w - radius - 2 ->
        radius + 2 < VIEW_H w - radius - 2 ->
        Forall (spawned w typeIndex radius) new).
Proof.
  cbv zeta. induction k as [|k IH].
  - exists []. cbn. rewrite app_nil_r.
    repeat split; try lia; constructor.
  - destruct IH as (new & Heq & Hlen & Hid & HW & HH & Hids & Hty & Hsp).
    rewrite !Nat.iter_succ.
    destruct (spawnOne_spec typeIndex radius
                (Nat.iter k (spawnOne typeIndex radius) w))
      as (e & He & Hid' & HW' & HH' & Hide & Htye & Hspe).
    exists (new ++ [e])%list. rewrite He, Heq, <- app_assoc.
    split; [reflexivity|]. split; [rewrite length_app; simpl; lia|].
    split; [lia|]. split; [congruence|]. split; [congruence|].
    split; [|split].
    + rewrite map_app, Hids, seq_S, map_app. cbn [map]. rewrite Hide, Hid.
      reflexivity.
    + apply Forall_app. split; [exact Hty | now constructor].
    + intros Hw Hh. apply Forall_app. split; [auto|]. constructor; [|constructor].
      rewrite HW, HH in Hspe. specialize (Hspe Hw Hh).
      unfold spawned in *. now rewrite HW, HH in Hspe.
Qed.

(** X8. In an arena wider and higher than [2 * radius + 4], every entity
    that [spawn] appends has the requested type and radius, the mass
    [radius * radius], a speed of at least 48 and less than 120, and its
    centre at least [radius + 2] from every wall. *)
Theorem spawn_placement (typeIndex : nat) (n : Z) (radius : R) (w : World) :
  2 * radius + 4 < VIEW_W w -> 2 * radius + 4 < VIEW_H w ->
  exists new,
    entities (spawn typeIndex n radius w) = (entities w ++ new)%list
    /\ Forall (spawned w typeIndex radius) new
    /\ Forall (in_walls (VIEW_W w) (VIEW_H w)) new
    /\ Forall speed_ok new.
Proof.
  intros HW HH. unfold spawn.
  destruct (iter_spawnOne_spec typeIndex radius
              (Z.to_nat (Z.min n MAX_ENTITIES_PER_TYPE)) w)
    as (new & Heq & _ & _ & _ & _ & _ & _ & Hsp).
  specialize (Hsp ltac:(lra) ltac:(lra)).
  exists new. split; [exact Heq|]. split; [exact Hsp|].
  split; eapply Forall_impl; try exact Hsp.
  - intros e (_ & Hr & _ & _ & Hx & Hy). unfold in_walls. rewrite Hr. lra.
  - intros e (_ & _ & _ & Hv & _). apply speed_ok_sq. unfold VMAX. lra.
Qed.

Lemma spawn_placement_witness :
  exists new,
    entities (spawn 0 3 17 emptyWorld) = (entities emptyWorld ++ new)%list
    /\ Forall (spawned emptyWorld 0 17) new
    /\ Forall (in_walls (VIEW_W emptyWorld) (VIEW_H emptyWorld)) new
    /\ Forall speed_ok new.
Proof. apply spawn_placement; cbn; lra. Defined.

(** X9. [spawn] gives the entities it appends the consecutive ids from
    [ENTITY_ID] on and advances [ENTITY_ID] past them; ids that were
    distinct and below [ENTITY_ID] stay so. *)
Theorem spawn_ids (typeIndex : nat) (n : Z) (radius : R) (w : World) :
  let w' := spawn typeIndex n radius w in
  exists new,
    entities w' = (entities w ++ new)%list
    /\ map Entity._id new
       = map (fun i => (ENTITY_ID w + Z.of_nat i)%Z) (seq 0 (length new))
    /\ ENTITY_ID w' = (ENTITY_ID w + Z.of_nat (length new))%Z
    /\ (ids_fresh w -> ids_fresh w').
Proof.
  cbv zeta. unfold spawn.
  destruct (iter_spawnOne_spec typeIndex radius
              (Z.to_nat (Z.min n MAX_ENTITIES_PER_TYPE)) w)
    as (new & Heq & Hlen & Hid & _ & _ & Hids & _ & _).
  exists new. rewrite Hlen. split; [exact Heq|]. split; [exact Hids|].
  split; [exact Hid|].
  intros [Hnd Hlt]. unfold ids_fresh. rewrite Heq, Hid, map_app, Hids. split.
  - apply NoDup_app. split; [exact Hnd|]. split.
    + intros u Hu Hu'. apply list_elem_of_In in Hu, Hu'.
      apply in_map_iff in Hu as (e & <- & He).
      apply in_map_iff in Hu' as (i & Hi & _).
      rewrite List.Forall_forall in Hlt. specialize (Hlt e He). lia.
    + apply NoDup_fmap_2; [|apply NoDup_seq]. intros i j Hij. lia.
  - apply Forall_app. split.
    + eapply Forall_impl; [exact Hlt|]. intros e He. simpl in He. lia.
    + apply List.Forall_forall. intros e He.
      assert (Hin : In (Entity._id e) (map Entity._id new))
        by (apply in_map; exact He).
      rewrite Hids in Hin. apply in_map_iff in Hin as (i & Hi & Hseq).
      apply in_seq in Hseq. lia.
Qed.

Lemma countType_app (k : nat) (es es' : list Entity) :
  countType k (es ++ es') = (countType k es + countType k es')%nat.
Proof. unfold countType. now rewrite List.filter_app, length_app. Qed.

Lemma countType_le (k : nat) (es : list Entity) :
  (countType k es <= length es)%nat.
Proof. unfold countType. apply List.filter_length_le. Qed.

Lemma countType_other (k i : nat) (es : list Entity) :
  Forall (fun e => Entity.t e = i) es -> k <> i -> countType k es = 0%nat.
Proof.
  intros Hall Hne. unfold countType.
  induction Hall as [|e es He _ IH]; [reflexivity|]. cbn [List.filter].
  destruct (Nat.eqb_spec (Entity.t e) k); [congruence | exact IH].
Qed.

Lemma countType_zero (k : nat) (es : list Entity) :
  countType k es = 0%nat <-> Forall (fun e => Entity.t e <> k) es.
Proof.
  unfold countType. induction es as [|e es IH]; cbn [List.filter].
  - split; [constructor | reflexivity].
  - destruct (Nat.eqb_spec (Entity.t e) k) as [Heq|Hne]; cbn [length].
    + split; [discriminate|]. intros Hall. apply Forall_cons_1 in Hall. tauto.
    + rewrite IH. split.
      * now constructor.
      * intros Hall. now apply Forall_cons_1 in Hall.
Qed.

Lemma map_seq_from (f : nat -> Z) (a n : nat) :
  map f (seq a n) = map (fun i => f (a + i)%nat) (seq 0 n).
Proof.
  revert a. induction n as [|n IH]; intros a; [reflexivity|].
  cbn [seq map]. rewrite Nat.add_0_r. f_equal.
  rewrite IH, <- (seq_shift n 0), map_map.
  apply map_ext. intros i. f_equal. lia.
Qed.

Lemma spawn_spec (typeIndex : nat) (n : Z) (radius : R) (w : World) :
  (0 <= n)%Z ->
  exists new,
    entities (spawn typeIndex n radius w) = (entities w ++ new)%list
    /\ Z.of_nat (length new) = Z.min n MAX_ENTITIES_PER_TYPE
    /\ ENTITY_ID (spawn typeIndex n radius w)
       = (ENTITY_ID w + Z.of_nat (length new))%Z
    /\ map Entity._id new
       = map (fun i => (ENTITY_ID w + Z.of_nat i)%Z) (seq 0 (length new))
    /\ Forall (fun e => Entity.t e = typeIndex) new.
Proof.
  intros Hn. unfold spawn.
  destruct (iter_spawnOne_spec typeIndex radius
              (Z.to_nat (Z.min n MAX_ENTITIES_PER_TYPE)) w)
    as (new & Heq & Hlen & Hid & _ & _ & Hids & Hty & _).
  exists new. rewrite Hlen. repeat split; try assumption.
  apply Z2Nat.id. unfold MAX_ENTITIES_PER_TYPE. lia.
Qed.

Lemma initType_inv (ctl : InitControls) (i : nat) (t : TypeDef)
  (st : World * Z * list (string * Z)) :
  init_inv i st -> init_inv (S i) (initType ctl st (i, t)).
Proof.
  destruct st as [[w total] toasts].
  intros (Htot & Hcap & Hid & Hids & Hty & Hcnt).
  unfold initType, init_inv.
  set (can := Z.max 0 (Z.min (Z.min (typeInputEls_value ctl i)
                                MAX_ENTITIES_PER_TYPE)
                         (MAX_TOTAL_ENTITIES - total))).
  assert (Hcan : (0 <= can <= MAX_ENTITIES_PER_TYPE
                  /\ total + can <= MAX_TOTAL_ENTITIES)%Z).
  { unfold can, MAX_ENTITIES_PER_TYPE, MAX_TOTAL_ENTITIES in *. lia. }
  destruct (spawn_spec i can (sizeEl_value ctl) w (proj1 (proj1 Hcan)))
    as (new & Heq & Hlen & Hnid & Hnids & Hnty).
  fold can. rewrite Heq, length_app, Hnid.
  assert (Hlen' : Z.of_nat (length new) = can) by lia.
  split; [lia|]. split; [lia|]. split; [lia|]. split; [|split].
  - rewrite map_app, Hids, Hnids, seq_app, map_app. f_equal. cbn [Nat.add].
    rewrite (map_seq_from _ (length (entities w))).
    apply map_ext. intros k. lia.
  - apply Forall_app. split.
    + eapply Forall_impl; [exact Hty|]. intros e He. simpl in He. lia.
    + eapply Forall_impl; [exact Hnty|]. intros e He. simpl in He. lia.
  - intros k. rewrite countType_app.
    destruct (decide (k = i)) as [->|Hne].
    + assert (Hz : countType i (entities w) = 0%nat).
      { apply countType_zero. eapply Forall_impl; [exact Hty|].
        intros e He. simpl in He. lia. }
      rewrite Hz. pose proof (countType_le i new). lia.
    + rewrite (countType_other k i new Hnty Hne). specialize (Hcnt k). lia.
Qed.

Lemma fold_initType_inv (ctl : InitControls) (ts : list TypeDef) :
  forall (i : nat) (st : World * Z * list (string * Z)),
    init_inv i st ->
    init_inv (i + length ts)
      (fold_left (initType ctl) (combine (seq i (length ts)) ts) st).
Proof.
  induction ts as [|t ts IH]; intros i st Hinv.
  - rewrite Nat.add_0_r. exact Hinv.
  - cbn [length seq combine fold_left].
    replace (i + S (length ts))%nat with (S i + length ts)%nat by lia.
    apply IH, initType_inv, Hinv.
Qed.

(** X10. Whatever the count fields ask for, [initFromControls] leaves at
    most [MAX_TOTAL_ENTITIES] entities and at most [MAX_ENTITIES_PER_TYPE]
    of a type, all of registered types, with the ids 1, 2, ... in the
    order of the list, and [ENTITY_ID] one past the last. *)
Theorem initFromControls_caps (ctl : InitControls) (w0 : World) :
  let w := fst (initFromControls ctl w0) in
  (Z.of_nat (length (entities w)) <= MAX_TOTAL_ENTITIES)%Z
  /\ (forall k, (Z.of_nat (countType k (entities w))
                 <= MAX_ENTITIES_PER_TYPE)%Z)
  /\ Forall valid_type (entities w)
  /\ map Entity._id (entities w)
     = map (fun k => (1 + Z.of_nat k)%Z) (seq 0 (length (entities w)))
  /\ ENTITY_ID w = (1 + Z.of_nat (length (entities w)))%Z.
Proof.
  cbv zeta. unfold initFromControls.
  set (w1 := mkWorld _ _ _ _ _ _ [] 1 _).
  assert (H0 : init_inv 0 (w1, 0%Z, [])).
  { unfold init_inv, w1. cbn [entities ENTITY_ID length seq map].
    unfold MAX_TOTAL_ENTITIES, MAX_ENTITIES_PER_TYPE.
    repeat split; try lia; try constructor.
    intros k. cbn. lia. }
  pose proof (fold_initType_inv ctl TypeRegistry 0 _ H0) as H.
  destruct (fold_left _ _ _) as [[w total] toasts].
  destruct H as (Htot & Hcap & Hid & Hids & Hty & Hcnt).
  cbn [fst]. split; [lia|]. split; [exact Hcnt|]. split; [|split].
  - eapply Forall_impl; [exact Hty|]. intros e He. exact He.
  - exact Hids.
  - lia.
Qed.

Lemma fold_initType_exact (ctl : InitControls) (ts : list TypeDef) :
  forall (i : nat) (w : World) (total : Z),
    (forall k, 0 <= typeInputEls_value ctl k <= MAX_ENTITIES_PER_TYPE)%Z ->
    (total + fold_right Z.add 0%Z
               (map (typeInputEls_value ctl) (seq i (length ts)))
     <= MAX_TOTAL_ENTITIES)%Z ->
    Forall (fun e => (Entity.t e < i)%nat) (entities w) ->
    let '(w', _, toasts) :=
      fold_left (initType ctl) (combine (seq i (length ts)) ts)
                (w, total, []) in
    toasts = []
    /\ (forall k, (k < i)%nat ->
                  countType k (entities w') = countType k (entities w))
    /\ (forall k, (i <= k < i + length ts)%nat ->
                  Z.of_nat (countType k (entities w'))
                  = typeInputEls_value ctl k).
Proof.
  induction ts as [|t ts IH]; intros i w total Hv Hsum Hty.
  - cbn. split; [reflexivity|]. split; [reflexivity|]. intros k Hk. lia.
  - cbn [length seq map fold_right] in Hsum.
    cbn [length seq combine fold_left]. unfold initType at 2.
    assert (Hrest : (0 <= fold_right Z.add 0%Z
                          (map (typeInputEls_value ctl)
                               (seq (S i) (length ts))))%Z).
    { generalize (seq (S i) (length ts)). intros l.
      induction l as [|a l IHl]; cbn [map fold_right]; [lia|].
      specialize (Hv a). lia. }
    pose proof (Hv i) as Hvi.
    rewrite (Z.min_l (typeInputEls_value ctl i)) by lia.
    rewrite (Z.min_l (typeInputEls_value ctl i)) by lia.
    rewrite Z.max_r by lia. rewrite Z.ltb_irrefl.
    destruct (spawn_spec i (typeInputEls_value ctl i) (sizeEl_value ctl) w
                (proj1 Hvi)) as (new & Heq & Hlen & _ & _ & Hnty).
    rewrite Z.min_l in Hlen by lia.
    specialize (IH (S i) (spawn i (typeInputEls_value ctl i)
                            (sizeEl_value ctl) w)
                  (total + typeInputEls_value ctl i)%Z Hv).
    destruct (fold_left _ _ _) as [[w' total'] toasts].
    destruct IH as (Ht & Hlow & Hhigh).
    + lia.
    + rewrite Heq. apply Forall_app. split.
      * eapply Forall_impl; [exact Hty|]. intros e He. simpl in He. lia.
      * eapply Forall_impl; [exact Hnty|]. intros e He. simpl in He. lia.
    + split; [exact Ht|]. split.
      * intros k Hk. rewrite Hlow by lia. rewrite Heq, countType_app.
        rewrite (countType_other k i new Hnty) by lia. lia.
      * intros k Hk. destruct (decide (k = i)) as [->|Hne].
        -- rewrite Hlow by lia. rewrite Heq, countType_app.
           assert (Hz : countType i (entities w) = 0%nat).
           { apply countType_zero. eapply Forall_impl; [exact Hty|].
             intros e He. simpl in He. lia. }
           assert (Hall : countType i new = length new).
           { unfold countType. clear - Hnty.
             induction Hnty as [|e es He _ IHn]; [reflexivity|].
             cbn [List.filter]. rewrite He, Nat.eqb_refl. cbn [length].
             now rewrite IHn. }
           lia.
        -- apply Hhigh. lia.
Qed.

(** X11. When every count field holds a number from 0 to
    [MAX_ENTITIES_PER_TYPE] and the fields add up to at most
    [MAX_TOTAL_ENTITIES], [initFromControls] creates exactly the requested
    number of entities of every type and raises no "Capped" notice. *)
Theorem initFromControls_exact (ctl : InitControls) (w0 : World) :
  (forall k, 0 <= typeInputEls_value ctl k <= MAX_ENTITIES_PER_TYPE)%Z ->
  (fold_right Z.add 0%Z
     (map (typeInputEls_value ctl) (seq 0 (length TypeRegistry)))
   <= MAX_TOTAL_ENTITIES)%Z ->
  snd (initFromControls ctl w0) = []
  /\ forall k, (k < length TypeRegistry)%nat ->
       Z.of_nat (countType k (entities (fst (initFromControls ctl w0))))
       = typeInputEls_value ctl k.
Proof.
  intros Hv Hsum. unfold initFromControls.
  set (w1 := mkWorld _ _ _ _ _ _ [] 1 _).
  pose proof (fold_initType_exact ctl TypeRegistry 0 w1 0%Z Hv) as H.
  destruct (fold_left _ _ _) as [[w total] toasts].
  destruct H as (Ht & _ & Hhigh).
  - lia.
  - constructor.
  - cbn [fst snd]. split; [exact Ht|]. intros k Hk. apply Hhigh. lia.
Qed.

Lemma initFromControls_exact_witness :
  let ctl := {| seedInput_value := charCodes "rps-12345";
                sizeEl_value := 17;
                typeInputEls_value := fun _ => 2%Z |} in
  snd (initFromControls ctl emptyWorld) = []
  /\ forall k, (k < length TypeRegistry)%nat ->
       Z.of_nat (countType k (entities (fst (initFromControls ctl emptyWorld))))
       = typeInputEls_value ctl k.
Proof.
  apply initFromControls_exact.
  - intros k. cbn. unfold MAX_ENTITIES_PER_TYPE. lia.
  - cbn. unfold MAX_TOTAL_ENTITIES. lia.
Defined.

(** ** Counts and the winner *)

Lemma fold_alter_lookup (es : list Entity) :
  forall (c : list Z) (k : nat),
    fold_left (fun counts e => alter Z.succ (Entity.t e) counts) es c !! k
    = (fun v => (v + Z.of_nat (countType k es))%Z) <$> c !! k.
Proof.
  induction es as [|e es IH]; intros c k; cbn [fold_left].
  - destruct (c !! k) as [v|]; cbn; [f_equal; unfold countType; cbn; lia|].
    reflexivity.
  - rewrite IH, list_lookup_alter. unfold countType. cbn [List.filter].
    destruct (decide (Entity.t e = k)) as [->|Hne].
    + rewrite Nat.eqb_refl. cbn [length].
      destruct (c !! k) as [v|]; cbn; [f_equal; lia | reflexivity].
    + destruct (Nat.eqb_spec (Entity.t e) k); [contradiction|]. reflexivity.
Qed.

Lemma fold_alter_length (es : list Entity) :
  forall c : list Z,
    length (fold_left (fun counts e => alter Z.succ (Entity.t e) counts) es c)
    = length c.
Proof.
  induction es as [|e es IH]; intros c; cbn [fold_left]; [reflexivity|].
  now rewrite IH, length_alter.
Qed.

Lemma computeCounts_lookup (w : World) (k : nat) :
  (k < length TypeRegistry)%nat ->
  computeCounts w !! k = Some (Z.of_nat (countType k (entities w))).
Proof.
  intros Hk. unfold computeCounts.
  rewrite fold_alter_lookup, lookup_replicate_2 by exact Hk. reflexivity.
Qed.

Lemma computeCounts_lookup_inv (w : World) (k : nat) (v : Z) :
  computeCounts w !! k = Some v ->
  (k < length TypeRegistry)%nat /\ v = Z.of_nat (countType k (entities w)).
Proof.
  intros H. assert (Hk : (k < length TypeRegistry)%nat).
  { apply lookup_lt_Some in H. unfold computeCounts in H.
    now rewrite fold_alter_length, length_replicate in H. }
  split; [exact Hk|]. rewrite computeCounts_lookup in H by exact Hk.
  congruence.
Qed.

Lemma countType_pos (k : nat) (es : list Entity) :
  (0 < countType k es)%nat <-> exists e, In e es /\ Entity.t e = k.
Proof.
  unfold countType. induction es as [|e es IH]; cbn [List.filter].
  - split; [cbn; lia | intros (e & [] & _)].
  - destruct (Nat.eqb_spec (Entity.t e) k) as [Heq|Hne]; cbn [length].
    + split; [|lia]. intros _. exists e. split; [now left | exact Heq].
    + rewrite IH. split.
      * intros (e' & Hin & He). exists e'. split; [now right | exact He].
      * intros (e' & [->|Hin] & He); [contradiction|]. now exists e'.
Qed.

Lemma countType_sum (n : nat) (es : list Entity) :
  Forall (fun e => (Entity.t e < n)%nat) es ->
  fold_right Nat.add 0%nat (map (fun k => countType k es) (seq 0 n))
  = length es.
Proof.
  intros Hall. induction Hall as [|e es He _ IH].
  - induction (seq 0 n) as [|a l IHl]; [reflexivity|]. cbn. exact IHl.
  - cbn [length]. rewrite <- IH. clear IH.
    assert (Hin : In (Entity.t e) (seq 0 n)) by (apply in_seq; lia).
    assert (Hnd : List.NoDup (seq 0 n)) by apply List.seq_NoDup.
    induction (seq 0 n) as [|a l IHl]; [destruct Hin|].
    cbn [map fold_right]. inversion Hnd as [|? ? Hna Hnd']; subst.
    unfold countType at 1 3. cbn [List.filter].
    destruct (Nat.eqb_spec (Entity.t e) a) as [Heq|Hne]; cbn [length].
    + cbn [Nat.add]. f_equal. f_equal.
      assert (Hni : ~ In (Entity.t e) l) by now rewrite Heq.
      clear - Hni. induction l as [|b l IHl]; [reflexivity|].
      cbn [map fold_right]. unfold countType at 1 3. cbn [List.filter].
      destruct (Nat.eqb_spec (Entity.t e) b) as [Heq|Hne].
      * exfalso. apply Hni. now left.
      * f_equal. apply IHl. intros Hin. apply Hni. now right.
    + destruct Hin as [Heq|Hin]; [congruence|].
      fold (countType a es). rewrite (IHl Hin Hnd'). lia.
Qed.

(** X12. For entities of registered types [computeCounts] returns one
    count per registry entry, the entry of a type being the number of
    entities of that type; the counts add up to the number of entities. *)
Theorem computeCounts_spec (w : World) :
  Forall valid_type (entities w) ->
  length (computeCounts w) = length TypeRegistry
  /\ (forall k, (k < length TypeRegistry)%nat ->
        computeCounts w !! k = Some (Z.of_nat (countType k (entities w))))
  /\ fold_right Z.add 0%Z (computeCounts w)
     = Z.of_nat (length (entities w)).
Proof.
  intros Hv. split; [|split].
  - unfold computeCounts. now rewrite fold_alter_length, length_replicate.
  - intros k Hk. now apply computeCounts_lookup.
  - rewrite <- (countType_sum (length TypeRegistry) (entities w) Hv).
    assert (Hc : computeCounts w
                 = map (fun k => Z.of_nat (countType k (entities w)))
                       (seq 0 (length TypeRegistry))).
    { apply list_eq. intros k.
      destruct (lt_dec k (length TypeRegistry)) as [Hk|Hk].
      - rewrite computeCounts_lookup by exact Hk.
        rewrite list_lookup_fmap, lookup_seq_lt by exact Hk. reflexivity.
      - rewrite !lookup_ge_None_2; [reflexivity | |].
        + rewrite length_map, length_seq. lia.
        + unfold computeCounts.
          rewrite fold_alter_length, length_replicate. lia. }
    rewrite Hc. generalize (seq 0 (length TypeRegistry)). intros l.
    induction l as [|a l IHl]; [reflexivity|].
    cbn [map fold_right]. rewrite IHl. lia.
Qed.

Lemma computeCounts_spec_witness :
  length (computeCounts atTheWall) = length TypeRegistry
  /\ (forall k, (k < length TypeRegistry)%nat ->
        computeCounts atTheWall !! k
        = Some (Z.of_nat (countType k (entities atTheWall))))
  /\ fold_right Z.add 0%Z (computeCounts atTheWall)
     = Z.of_nat (length (entities atTheWall)).
Proof.
  apply computeCounts_spec.
  repeat constructor; unfold valid_type; cbn; lia.
Defined.

Lemma filter_pos_none (c : list Z) :
  length (List.filter (fun v => (0 <? v)%Z) c) = 0%nat
  <-> forall j u, c !! j = Some u -> ~ (0 < u)%Z.
Proof.
  induction c as [|a c IH]; cbn [List.filter].
  - split; [intros _ j u H; now rewrite lookup_nil in H | reflexivity].
  - destruct (Z.ltb_spec 0 a) as [Ha|Ha]; cbn [length].
    + split; [discriminate|]. intros H. exfalso. now apply (H 0%nat a).
    + rewrite IH. split.
      * intros H [|j] u Hj; cbn in Hj; [injection Hj as <-; lia|].
        now apply (H j).
      * intros H j u Hj. now apply (H (S j)).
Qed.

Lemma unique_positive (c : list Z) :
  forall k : nat,
    (length (List.filter (fun v => (0 <? v)%Z) c) = 1%nat
     /\ fst <$> list_find (fun v => (0 < v)%Z) c = Some k)
    <-> ((exists v, c !! k = Some v /\ (0 < v)%Z)
         /\ forall j u, c !! j = Some u -> (0 < u)%Z -> j = k).
Proof.
  induction c as [|a c IH]; intros k.
  - cbn. split; [intros [H _]; discriminate|].
    intros [(v & H & _) _]. now rewrite lookup_nil in H.
  - cbn [List.filter list_find].
    destruct (Z.ltb_spec 0 a) as [Ha|Ha]; cbn [length].
    + rewrite decide_True by exact Ha. cbn. split.
      * intros [Hlen Hk]. injection Hlen as Hlen. injection Hk as <-.
        split; [exists a; now split|].
        intros [|j] u Hj Hu; [reflexivity|]. cbn in Hj.
        exfalso. now apply (proj1 (filter_pos_none c) Hlen j u).
      * intros [_ Huniq]. pose proof (Huniq 0%nat a eq_refl Ha) as <-.
        split; [|reflexivity]. f_equal. apply filter_pos_none.
        intros j u Hj Hu. now pose proof (Huniq (S j) u Hj Hu).
    + rewrite decide_False by lia. split.
      * intros [Hlen Hk].
        destruct (list_find _ c) as [[k' v']|] eqn:Hf; [|discriminate].
        cbn in Hk. injection Hk as <-.
        destruct (proj1 (IH k')) as [Hex Huniq].
        { now split. }
        split; [exact Hex|].
        intros [|j] u Hj Hu; cbn in Hj; [injection Hj as <-; lia|].
        f_equal. now apply (Huniq j u).
      * intros [(v & Hk & Hv) Huniq].
        destruct k as [|k]; [cbn in Hk; injection Hk as <-; lia|].
        cbn in Hk. destruct (proj2 (IH k)) as [Hlen Hf].
        { split; [now exists v|]. intros j u Hj Hu.
          pose proof (Huniq (S j) u Hj Hu). lia. }
        split; [exact Hlen|].
        destruct (list_find _ c) as [[k' v']|]; [|discriminate].
        cbn in Hf |- *. congruence.
Qed.

(** X13. With entities of registered types, the check at the end of
    [updateStatsAndCharts] finds a winner exactly when the simulation is
    running, there is an entity, and all entities have one type; the
    winner is the index of that type. *)
Theorem winnerIndex_iff (running : bool) (w : World) (k : nat) :
  Forall valid_type (entities w) ->
  winnerIndex running w = Some k
  <-> running = true /\ entities w <> []
      /\ Forall (fun e => Entity.t e = k) (entities w).
Proof.
  intros Hv. unfold winnerIndex. cbv zeta.
  assert (Hne : negb (Nat.eqb (length (entities w)) 0) = true
                <-> entities w <> []).
  { destruct (entities w); cbn; split; congruence. }
  split.
  - intros H. destruct running; [|discriminate]. cbn [andb] in H.
    destruct (negb _) eqn:Hn; [|discriminate]. cbn [andb] in H.
    destruct (Nat.eqb_spec
                (length (List.filter (fun v => (0 <? v)%Z) (computeCounts w)))
                1) as [Hlen|]; [|discriminate].
    destruct (proj1 (unique_positive (computeCounts w) k) (conj Hlen H))
      as [_ Huniq].
    split; [reflexivity|]. split; [now apply Hne|].
    rewrite List.Forall_forall in Hv |- *. intros e He.
    apply (Huniq (Entity.t e)
                 (Z.of_nat (countType (Entity.t e) (entities w)))).
    + apply computeCounts_lookup, Hv, He.
    + assert (0 < countType (Entity.t e) (entities w))%nat; [|lia].
      apply countType_pos. now exists e.
  - intros (-> & Hnn & Hall). cbn [andb].
    rewrite (proj2 Hne Hnn). cbn [andb].
    destruct (entities w) as [|e0 es] eqn:Hes; [contradiction|].
    assert (Hk : (k < length TypeRegistry)%nat).
    { apply Forall_cons_1 in Hv, Hall. destruct Hv as [Hv0 _].
      destruct Hall as [<- _]. exact Hv0. }
    destruct (proj2 (unique_positive (computeCounts w) k)) as [Hlen Hf].
    { split.
      - exists (Z.of_nat (countType k (entities w))).
        split; [now apply computeCounts_lookup|].
        assert (0 < countType k (entities w))%nat; [|lia].
        apply countType_pos. exists e0. rewrite Hes.
        split; [now left|]. apply Forall_cons_1 in Hall. tauto.
      - intros j u Hj Hu. apply computeCounts_lookup_inv in Hj.
        destruct Hj as [_ ->].
        assert (Hp : (0 < countType j (entities w))%nat) by lia.
        apply countType_pos in Hp. destruct Hp as (e & He & <-).
        rewrite Hes in He. rewrite List.Forall_forall in Hall.
        now apply Hall. }
    rewrite Hlen. cbn. exact Hf.
Qed.

Lemma winnerIndex_iff_witness :
  winnerIndex true cluster = Some 0%nat
  <-> true = true /\ entities cluster <> []
      /\ Forall (fun e => Entity.t e = 0%nat) (entities cluster).
Proof.
  apply winnerIndex_iff.
  repeat constructor; unfold valid_type; cbn; lia.
Defined.

(** ** Remainders and the velocity clamp *)

Lemma Rrem_shift (n m : R) : exists k : Z, Rrem n m = n + IZR k * m.
Proof.
  unfold Rrem. exists (- Ztrunc (n / m))%Z. rewrite opp_IZR. ring.
Qed.

(** X14. For a positive modulus, [mod] on numbers is the floored
    remainder [n - m * floor(n / m)]: it lies in [0, m), differs from [n]
    by a whole multiple of [m], and leaves an [n] of that range as it
    is. *)
Theorem mod_floor (n m : R) :
  0 < m ->
  mod_ n m = n - m * IZR (Zfloor (n / m))
  /\ 0 <= mod_ n m < m
  /\ (0 <= n < m -> mod_ n m = n).
Proof.
  intros Hm. pose proof (mod_range n m Hm) as Hr.
  assert (Hfl : mod_ n m = n - m * IZR (Zfloor (n / m))).
  { unfold mod_ in *.
    destruct (Rrem_shift n m) as [k Hk].
    destruct (Rrem_shift (Rrem n m + m) m) as [k' Hk'].
    set (v := Rrem (Rrem n m + m) m) in *.
    assert (Hv : v = n + IZR (k + k' + 1) * m).
    { rewrite !plus_IZR. rewrite Hk', Hk. simpl. ring. }
    set (z := (k + k' + 1)%Z) in *.
    assert (Hq : Zfloor (n / m) = (- z)%Z).
    { apply Zfloor_eq. rewrite opp_IZR.
      assert (Hn : n / m = v / m - IZR z).
      { rewrite Hv. field. lra. }
      rewrite Hn.
      assert (0 <= v / m < 1).
      { split.
        - apply Rmult_le_pos; [lra|]. apply Rlt_le, Rinv_0_lt_compat, Hm.
        - apply (Rmult_lt_reg_r m); [exact Hm|].
          replace (v / m * m) with v by (field; lra). lra. }
      lra. }
    rewrite Hq, opp_IZR, Hv. ring. }
  split; [exact Hfl|]. split; [exact Hr|].
  intros Hn. rewrite Hfl.
  assert (Hq : Zfloor (n / m) = 0%Z).
  { apply Zfloor_eq. simpl. split.
    - apply Rmult_le_pos; [lra|]. apply Rlt_le, Rinv_0_lt_compat, Hm.
    - apply (Rmult_lt_reg_r m); [exact Hm|].
      replace (n / m * m) with n by (field; lra). lra. }
  rewrite Hq. simpl. ring.
Qed.

Lemma mod_floor_witness :
  mod_ (-3) 800 = -3 - 800 * IZR (Zfloor (-3 / 800))
  /\ 0 <= mod_ (-3) 800 < 800
  /\ (0 <= -3 < 800 -> mod_ (-3) 800 = -3).
Proof. apply mod_floor. lra. Defined.

Lemma modZ_mod_eq (n m : Z) : (0 < m)%Z -> modZ n m = (n mod m)%Z.
Proof.
  intros Hm. unfold modZ.
  assert (Hb : (- m < Z.rem n m < m)%Z).
  { pose proof (Z.rem_bound_abs n m). lia. }
  rewrite Z.rem_mod_nonneg by lia.
  pose proof (Z.quot_rem' n m) as Hq.
  replace (Z.rem n m + m)%Z with (n + (1 - n ÷ m) * m)%Z by lia.
  apply Z.mod_add. lia.
Qed.

(** X15. For a positive modulus, [mod] on integers (the cell indices of
    the wrap mode) is the floored remainder: it lies in [0, m) and
    differs from [n] by a multiple of [m]. *)
Theorem modZ_mod (n m : Z) :
  (0 < m)%Z ->
  modZ n m = (n mod m)%Z /\ (0 <= modZ n m < m)%Z
  /\ (exists k, modZ n m = n + k * m)%Z.
Proof.
  intros Hm. rewrite modZ_mod_eq by exact Hm.
  split; [reflexivity|]. split; [now apply Z.mod_pos_bound|].
  exists (- (n / m))%Z. pose proof (Z.div_mod n m). lia.
Qed.

Lemma modZ_mod_witness :
  modZ (-1) 20 = ((-1) mod 20)%Z /\ (0 <= modZ (-1) 20 < 20)%Z
  /\ (exists k, modZ (-1) 20 = -1 + k * 20)%Z.
Proof. apply modZ_mod. lia. Defined.

(** X16. [clampVel] keeps the direction of the velocity and brings the
    speed down to [VMAX]: the new velocity is the old one times a factor
    in (0, 1], and its length is the smaller of the old length and
    [VMAX]; nothing else of the entity changes. *)
Theorem clampVel_direction (e : Entity) :
  exists s,
    0 < s <= 1
    /\ clampVel e
       = Entity.set_vy (Entity.vy e * s) (Entity.set_vx (Entity.vx e * s) e)
    /\ sqrt (Entity.vx (clampVel e) * Entity.vx (clampVel e)
             + Entity.vy (clampVel e) * Entity.vy (clampVel e))
       = Rmin (sqrt (Entity.vx e * Entity.vx e + Entity.vy e * Entity.vy e))
              VMAX.
Proof.
  unfold clampVel, clampVelWith. cbv zeta.
  set (v2 := Entity.vx e * Entity.vx e + Entity.vy e * Entity.vy e).
  pose proof VMAX_pos as HV.
  assert (Hv2 : 0 <= v2) by (unfold v2; nra).
  destruct (Rgt_dec v2 (VMAX * VMAX)) as [Hgt|Hle].
  - assert (Hs : VMAX < sqrt v2).
    { rewrite <- (sqrt_square VMAX) by lra. apply sqrt_lt_1_alt.
      split; [nra | lra]. }
    exists (VMAX / sqrt v2). split; [|split; [reflexivity|]].
    + split.
      * apply Rdiv_lt_0_compat; lra.
      * apply (Rmult_le_reg_r (sqrt v2)); [lra|].
        replace (VMAX / sqrt v2 * sqrt v2) with VMAX by (field; lra). lra.
    + entity_proj. rewrite Rmin_right by lra.
      replace (Entity.vx e * (VMAX / sqrt v2) * (Entity.vx e * (VMAX / sqrt v2))
               + Entity.vy e * (VMAX / sqrt v2)
                 * (Entity.vy e * (VMAX / sqrt v2)))
        with (v2 * (VMAX / sqrt v2) * (VMAX / sqrt v2)) by (unfold v2; ring).
      replace (v2 * (VMAX / sqrt v2) * (VMAX / sqrt v2)) with (VMAX * VMAX).
      * apply sqrt_square. lra.
      * rewrite <- (sqrt_sqrt v2) at 1 by exact Hv2. field. lra.
  - exists 1. split; [lra|]. split.
    + destruct e. entity_norm. now rewrite !Rmult_1_r.
    + fold v2. rewrite Rmin_left; [reflexivity|].
      rewrite <- (sqrt_square VMAX) by lra. apply sqrt_le_1_alt. lra.
Qed.

(** ** Walls *)

Lemma bounceWalls_x (w h : R) (e : Entity) :
  2 * Entity.r e <= w ->
  (Entity.x e - Entity.r e < 0 ->
   Entity.x (bounceWalls w h e) = Entity.r e
   /\ Entity.vx (bounceWalls w h e) = Rabs (Entity.vx e))
  /\ (Entity.x e + Entity.r e > w ->
      Entity.x (bounceWalls w h e) = w - Entity.r e
      /\ Entity.vx (bounceWalls w h e) = - Rabs (Entity.vx e))
  /\ (Entity.r e <= Entity.x e <= w - Entity.r e ->
      Entity.x (bounceWalls w h e) = Entity.x e
      /\ Entity.vx (bounceWalls w h e) = Entity.vx e).
Proof.
  intros Hw. unfold bounceWalls. cbv zeta.
  destruct (Rlt_dec (Entity.x e - Entity.r e) 0) as [H1|H1]; entity_proj;
    (destruct (Rgt_dec _ w) as [H2|H2]; entity_proj);
    (destruct (Rlt_dec _ 0) as [H3|H3]; entity_proj);
    (destruct (Rgt_dec _ h) as [H4|H4]; entity_proj);
    (split; [|split]); intros Hc; (split; [reflexivity || lra|]);
    reflexivity || lra.
Qed.

Lemma bounceWalls_y (w h : R) (e : Entity) :
  2 * Entity.r e <= h ->
  (Entity.y e - Entity.r e < 0 ->
   Entity.y (bounceWalls w h e) = Entity.r e
   /\ Entity.vy (bounceWalls w h e) = Rabs (Entity.vy e))
  /\ (Entity.y e + Entity.r e > h ->
      Entity.y (bounceWalls w h e) = h - Entity.r e
      /\ Entity.vy (bounceWalls w h e) = - Rabs (Entity.vy e))
  /\ (Entity.r e <= Entity.y e <= h - Entity.r e ->
      Entity.y (bounceWalls w h e) = Entity.y e
      /\ Entity.vy (bounceWalls w h e) = Entity.vy e).
Proof.
  intros Hw. unfold bounceWalls. cbv zeta.
  destruct (Rlt_dec (Entity.x e - Entity.r e) 0) as [H1|H1]; entity_proj;
    (destruct (Rgt_dec _ w) as [H2|H2]; entity_proj);
    (destruct (Rlt_dec _ 0) as [H3|H3]; entity_proj);
    (destruct (Rgt_dec _ h) as [H4|H4]; entity_proj);
    (split; [|split]); intros Hc; (split; [reflexivity || lra|]);
    reflexivity || lra.
Qed.

Lemma bounceWalls_speed (w h : R) (e : Entity) :
  Rabs (Entity.vx (bounceWalls w h e)) = Rabs (Entity.vx e)
  /\ Rabs (Entity.vy (bounceWalls w h e)) = Rabs (Entity.vy e)
  /\ Entity.r (bounceWalls w h e) = Entity.r e.
Proof.
  unfold bounceWalls. cbv zeta.
  destruct (Rlt_dec (Entity.x e - Entity.r e) 0) as [H1|H1]; entity_proj;
    (destruct (Rgt_dec _ w) as [H2|H2]; entity_proj);
    (destruct (Rlt_dec _ 0) as [H3|H3]; entity_proj);
    (destruct (Rgt_dec _ h) as [H4|H4]; entity_proj);
    rewrite ?Rabs_Ropp, ?Rabs_Rabsolu; repeat split; reflexivity.
Qed.

(** X17. In the bounce mode, for an entity that fits between the walls
    and is not faster than [VMAX], [update] reflects elastically: the two
    components of the velocity keep their size; an entity whose advanced
    position crosses a wall is put against that wall with the velocity
    pointing inwards, and an entity that crosses none is moved by
    [velocity * dt * spd] with its velocity unchanged. *)
Theorem update_bounce_reflects (W H dt spd : R) (e : Entity) :
  Entity.vx e * Entity.vx e + Entity.vy e * Entity.vy e <= VMAX * VMAX ->
  2 * Entity.r e <= W -> 2 * Entity.r e <= H ->
  let x1 := Entity.x e + Entity.vx e * (dt * spd) in
  let y1 := Entity.y e + Entity.vy e * (dt * spd) in
  let e' := update W H dt spd false e in
  Rabs (Entity.vx e') = Rabs (Entity.vx e)
  /\ Rabs (Entity.vy e') = Rabs (Entity.vy e)
  /\ (x1 - Entity.r e < 0 -> Entity.x e' = Entity.r e /\ 0 <= Entity.vx e')
  /\ (x1 + Entity.r e > W ->
      Entity.x e' = W - Entity.r e /\ Entity.vx e' <= 0)
  /\ (Entity.r e <= x1 <= W - Entity.r e ->
      Entity.x e' = x1 /\ Entity.vx e' = Entity.vx e)
  /\ (y1 - Entity.r e < 0 -> Entity.y e' = Entity.r e /\ 0 <= Entity.vy e')
  /\ (y1 + Entity.r e > H ->
      Entity.y e' = H - Entity.r e /\ Entity.vy e' <= 0)
  /\ (Entity.r e <= y1 <= H - Entity.r e ->
      Entity.y e' = y1 /\ Entity.vy e' = Entity.vy e).
Proof.
  intros Hv HW HH. cbv zeta. unfold update. cbv zeta.
  set (e1 := Entity.set_y _ (Entity.set_x _ e)).
  assert (Hr : Entity.r e1 = Entity.r e) by reflexivity.
  assert (Hx : Entity.x e1 = Entity.x e + Entity.vx e * (dt * spd))
    by reflexivity.
  assert (Hy : Entity.y e1 = Entity.y e + Entity.vy e * (dt * spd))
    by reflexivity.
  assert (Hvx : Entity.vx e1 = Entity.vx e) by reflexivity.
  assert (Hvy : Entity.vy e1 = Entity.vy e) by reflexivity.
  clearbody e1.
  destruct (bounceWalls_speed W H e1) as (Hax & Hay & _).
  rewrite Hvx in Hax. rewrite Hvy in Hay.
  rewrite clampVel_within.
  2:{ assert (Hsq : forall u, u * u = Rabs u * Rabs u).
      { intros u. unfold Rabs. destruct (Rcase_abs u); ring. }
      rewrite (Hsq (Entity.vx _)), (Hsq (Entity.vy _)), Hax, Hay,
        <- !Hsq. exact Hv. }
  rewrite <- Hx, <- Hy, <- Hr, <- Hvx, <- Hvy.
  rewrite <- Hr in HW, HH.
  destruct (bounceWalls_x W H e1 HW) as (Hx1 & Hx2 & Hx3).
  destruct (bounceWalls_y W H e1 HH) as (Hy1 & Hy2 & Hy3).
  pose proof (Rabs_pos (Entity.vx e1)) as Hpx.
  pose proof (Rabs_pos (Entity.vy e1)) as Hpy.
  split; [now rewrite Hvx|]. split; [now rewrite Hvy|].
  split; [intros Hc; destruct (Hx1 Hc) as [-> ->]; split; [reflexivity|lra]|].
  split; [intros Hc; destruct (Hx2 Hc) as [-> ->]; split; [reflexivity|lra]|].
  split; [exact Hx3|].
  split; [intros Hc; destruct (Hy1 Hc) as [-> ->]; split; [reflexivity|lra]|].
  split; [intros Hc; destruct (Hy2 Hc) as [-> ->]; split; [reflexivity|lra]|].
  exact Hy3.
Qed.

Lemma update_bounce_reflects_witness :
  let e := Entity.new 1 0 20 300 17 (-600) 0 in
  let x1 := Entity.x e + Entity.vx e * (1 / 60 * 1) in
  let y1 := Entity.y e + Entity.vy e * (1 / 60 * 1) in
  let e' := update 800 600 (1 / 60) 1 false e in
  Rabs (Entity.vx e') = Rabs (Entity.vx e)
  /\ Rabs (Entity.vy e') = Rabs (Entity.vy e)
  /\ (x1 - Entity.r e < 0 -> Entity.x e' = Entity.r e /\ 0 <= Entity.vx e')
  /\ (x1 + Entity.r e > 800 ->
      Entity.x e' = 800 - Entity.r e /\ Entity.vx e' <= 0)
  /\ (Entity.r e <= x1 <= 800 - Entity.r e ->
      Entity.x e' = x1 /\ Entity.vx e' = Entity.vx e)
  /\ (y1 - Entity.r e < 0 -> Entity.y e' = Entity.r e /\ 0 <= Entity.vy e')
  /\ (y1 + Entity.r e > 600 ->
      Entity.y e' = 600 - Entity.r e /\ Entity.vy e' <= 0)
  /\ (Entity.r e <= y1 <= 600 - Entity.r e ->
      Entity.y e' = y1 /\ Entity.vy e' = Entity.vy e).
Proof.
  apply (update_bounce_reflects 800 600 (1 / 60) 1
           (Entity.new 1 0 20 300 17 (-600) 0));
    unfold Entity.new, VMAX; entity_norm; lra.
Defined.

(** ** What a step leaves alone *)

Lemma same_body_refl (e : Entity) : same_body e e.
Proof. repeat split. Qed.

Lemma same_body_trans (e1 e2 e3 : Entity) :
  same_body e1 e2 -> same_body e2 e3 -> same_body e1 e3.
Proof.
  unfold same_body. intros (H1 & H2 & H3 & H4 & H5) (K1 & K2 & K3 & K4 & K5).
  repeat split; congruence.
Qed.

Lemma update_same_body (W H dt spd : R) (wrap : bool) (e : Entity) :
  same_body e (update W H dt spd wrap e).
Proof.
  destruct (update_shape W H dt spd wrap e) as (x' & y' & vx' & vy' & -> & _).
  repeat split.
Qed.

Lemma narrowPhase_same_body (w : World) (a b a' b' : Entity) :
  valid_type a -> valid_type b -> narrowPhase w a b = Some (a', b') ->
  same_body a a' /\ same_body b b'.
Proof.
  intros Ha Hb Heq.
  destruct (narrowPhase_shape w a b Ha Hb) as (a1 & b1 & Heq1 & Hcases).
  rewrite Heq in Heq1. injection Heq1 as <- <-.
  destruct Hcases as [[-> ->]|
    (ta & tb & xa & ya & xb & yb & vxa & vya & vxb & vyb & _ & -> & -> & _)].
  - split; apply same_body_refl.
  - split; repeat split.
Qed.

Lemma Forall2_same_body_insert (es0 es : list Entity) (i : nat)
  (a a' : Entity) :
  Forall2 same_body es0 es -> es !! i = Some a -> same_body a a' ->
  Forall2 same_body es0 (<[i := a']> es).
Proof.
  intros HF Hi Hs.
  destruct (Forall2_lookup_r _ _ _ _ _ HF Hi) as (a0 & Hi0 & Hs0).
  rewrite <- (list_insert_id es0 i a0 Hi0).
  apply Forall2_insert; [exact HF|].
  exact (same_body_trans _ _ _ Hs0 Hs).
Qed.

Lemma foldM_resolvePair_bodies (w : World) (calls : list (nat * nat)) :
  forall es0 es : list Entity,
    Forall valid_type es -> Forall2 same_body es0 es ->
    exists es', foldM (resolvePair w) calls es = Some es'
                /\ Forall valid_type es' /\ Forall2 same_body es0 es'.
Proof.
  induction calls as [|[i j] calls IH]; intros es0 es Hv HF.
  - exists es. split; [reflexivity|]. now split.
  - cbn [foldM]. unfold resolvePair.
    destruct (es !! i) as [a|] eqn:Hi; [|now apply IH].
    destruct (es !! j) as [b|] eqn:Hj; [|now apply IH].
    pose proof (Forall_lookup_1 _ _ _ _ Hv Hi) as Hva.
    pose proof (Forall_lookup_1 _ _ _ _ Hv Hj) as Hvb.
    destruct (narrowPhase_shape w a b Hva Hvb) as (a' & b' & Heq & _).
    rewrite Heq.
    destruct (narrowPhase_valid _ _ _ _ _ Hva Hvb Heq) as [Hva' Hvb'].
    destruct (narrowPhase_same_body _ _ _ _ _ Hva Hvb Heq) as [Hsa Hsb].
    apply IH.
    + now apply Forall_insert; [apply Forall_insert|].
    + destruct (decide (i = j)) as [->|Hne].
      * rewrite list_insert_insert_eq.
        apply (Forall2_same_body_insert es0 es j b b' HF Hj Hsb).
      * apply (Forall2_same_body_insert es0 _ j b b').
        -- apply (Forall2_same_body_insert es0 es i a a' HF Hi Hsa).
        -- rewrite list_lookup_insert_ne by exact Hne. exact Hj.
        -- exact Hsb.
Qed.

(** X18. A step of a world whose entities have registered types returns,
    and it changes only positions, velocities and types: every entity
    keeps its place in the list, its id, radius, mass, side and base; the
    id counter, the random stream, the viewport and the grid dimensions
    are as before. *)
Theorem step_same_bodies (dt : R) (ui : Controls) (w : World) :
  Forall valid_type (entities w) ->
  exists w',
    step dt ui w = Some w'
    /\ Forall2 same_body (entities w) (entities w')
    /\ map Entity._id (entities w') = map Entity._id (entities w)
    /\ ENTITY_ID w' = ENTITY_ID w /\ rng w' = rng w
    /\ VIEW_W w' = VIEW_W w /\ VIEW_H w' = VIEW_H w
    /\ CELL w' = CELL w /\ GW w' = GW w /\ GH w' = GH w.
Proof.
  intros Hv. unfold step, handleCollisionsGrid.
  set (w1 := integrate dt ui w).
  assert (Hv1 : Forall valid_type (entities w1)).
  { unfold w1, integrate. cbn. apply Forall_map.
    eapply Forall_impl; [exact Hv|]. intros e He. now apply update_valid. }
  assert (HF1 : Forall2 same_body (entities w) (entities w1)).
  { unfold w1, integrate. cbn. clear. induction (entities w) as [|e es IH].
    - constructor.
    - cbn [map]. constructor; [apply update_same_body | exact IH]. }
  destruct (foldM_resolvePair_bodies w1 (narrowPhaseCalls w1 (buildGrid w1))
              (entities w) (entities w1) Hv1 HF1) as (es' & -> & _ & HF).
  eexists. split; [reflexivity|]. split; [exact HF|]. split.
  - cbn [entities set_entities]. clear - HF.
    induction HF as [|e e' es es' (Hid & _) _ IH]; [reflexivity|].
    cbn [map]. now rewrite Hid, IH.
  - unfold w1, integrate. destruct w. cbn. repeat split; reflexivity.
Qed.

Lemma step_same_bodies_witness :
  exists w',
    step (1 / 60) bounceControls atTheWall = Some w'
    /\ Forall2 same_body (entities atTheWall) (entities w')
    /\ map Entity._id (entities w') = map Entity._id (entities atTheWall)
    /\ ENTITY_ID w' = ENTITY_ID atTheWall /\ rng w' = rng atTheWall
    /\ VIEW_W w' = VIEW_W atTheWall /\ VIEW_H w' = VIEW_H atTheWall
    /\ CELL w' = CELL atTheWall /\ GW w' = GW atTheWall
    /\ GH w' = GH atTheWall.
Proof.
  apply step_same_bodies.
  repeat constructor; unfold valid_type; cbn; lia.
Defined.

(** ** The grid and the broad phase *)

Lemma In_fromTo (lo hi k : Z) : In k (fromTo lo hi) <-> (lo <= k <= hi)%Z.
Proof.
  unfold fromTo. rewrite in_map_iff. split.
  - intros (n & <- & Hn). apply in_seq in Hn. lia.
  - intros Hk. exists (Z.to_nat (k - lo)). split; [lia|].
    apply in_seq. lia.
Qed.

Lemma bucketPush_in (grid : Grid) (k : Z * Z) (ref : nat) :
  inBucket (bucketPush grid k ref) k ref.
Proof.
  unfold inBucket, bucketPush.
  destruct (JsMap.get grid k) as [b|]; eexists;
    (split; [apply JsMap_get_set_eq|]).
  - apply in_or_app. right. now left.
  - now left.
Qed.

Lemma bucketPush_mono (grid : Grid) (k k' : Z * Z) (ref ref' : nat) :
  inBucket grid k' ref' -> inBucket (bucketPush grid k ref) k' ref'.
Proof.
  unfold inBucket, bucketPush. intros (b & Hb & Hin).
  destruct (decide (k = k')) as [->|Hne].
  - rewrite Hb. eexists. split; [apply JsMap_get_set_eq|].
    apply in_or_app. now left.
  - exists b. split; [|exact Hin].
    destruct (JsMap.get grid k); now rewrite JsMap_get_set_ne.
Qed.

Lemma fold_bucketPush_mono {A} (f : A -> Z * Z) (ref : nat) (l : list A) :
  forall (grid : Grid) (k : Z * Z) (ref' : nat),
    inBucket grid k ref' ->
    inBucket (fold_left (fun g x => bucketPush g (f x) ref) l grid) k ref'.
Proof.
  induction l as [|x l IH]; intros grid k ref' H; [exact H|].
  cbn [fold_left]. now apply IH, bucketPush_mono.
Qed.

Lemma fold_bucketPush_in {A} (f : A -> Z * Z) (ref : nat) (l : list A) :
  forall (grid : Grid) (x : A),
    In x l ->
    inBucket (fold_left (fun g x => bucketPush g (f x) ref) l grid) (f x) ref.
Proof.
  induction l as [|y l IH]; intros grid x Hin; [destruct Hin|].
  destruct Hin as [->|Hin]; cbn [fold_left].
  - apply fold_bucketPush_mono, bucketPush_in.
  - now apply IH.
Qed.

Lemma insertIntoGrid_eq (w : World) (grid : Grid) (ref : nat) (e : Entity) :
  insertIntoGrid w grid ref e
  = fold_left (fun grid iy =>
      fold_left (fun grid ix => bucketPush grid (gridKey w ix iy) ref)
                (cellColumns w e) grid)
      (cellRows w e) grid.
Proof. reflexivity. Qed.

Lemma fold_rows_mono (w : World) (ref : nat) (cols rows : list Z) :
  forall (grid : Grid) (k : Z * Z) (ref' : nat),
    inBucket grid k ref' ->
    inBucket
      (fold_left (fun grid iy =>
         fold_left (fun grid ix => bucketPush grid (gridKey w ix iy) ref)
                   cols grid) rows grid) k ref'.
Proof.
  induction rows as [|iy rows IH]; intros grid k ref' H; [exact H|].
  cbn [fold_left]. apply IH.
  apply (fold_bucketPush_mono (fun ix => gridKey w ix iy)). exact H.
Qed.

Lemma insertIntoGrid_mono (w : World) (grid : Grid) (ref : nat) (e : Entity)
  (k : Z * Z) (ref' : nat) :
  inBucket grid k ref' -> inBucket (insertIntoGrid w grid ref e) k ref'.
Proof. rewrite insertIntoGrid_eq. apply fold_rows_mono. Qed.

Lemma insertIntoGrid_in (w : World) (grid : Grid) (ref : nat) (e : Entity)
  (ix iy : Z) :
  In ix (cellColumns w e) -> In iy (cellRows w e) ->
  inBucket (insertIntoGrid w grid ref e) (gridKey w ix iy) ref.
Proof.
  intros Hx. rewrite insertIntoGrid_eq.
  revert grid. induction (cellRows w e) as [|iy' rows IH]; intros grid Hy.
  - destruct Hy.
  - cbn [fold_left]. destruct Hy as [->|Hy].
    + apply fold_rows_mono.
      apply (fold_bucketPush_in (fun ix => gridKey w ix iy)). exact Hx.
    + now apply IH.
Qed.

Lemma fold_insertIntoGrid_mono (w : World) (l : list (nat * Entity)) :
  forall (grid : Grid) (k : Z * Z) (ref' : nat),
    inBucket grid k ref' ->
    inBucket (fold_left (fun grid ie => insertIntoGrid w grid (fst ie) (snd ie))
                        l grid) k ref'.
Proof.
  induction l as [|[i e] l IH]; intros grid k ref' H; [exact H|].
  cbn [fold_left fst snd]. now apply IH, insertIntoGrid_mono.
Qed.

Lemma In_combine_seq {A} (l : list A) :
  forall (n i : nat) (x : A),
    l !! i = Some x -> In ((n + i)%nat, x) (combine (seq n (length l)) l).
Proof.
  induction l as [|y l IH]; intros n i x Hi.
  - now rewrite lookup_nil in Hi.
  - cbn [length seq combine]. destruct i as [|i]; cbn in Hi.
    + injection Hi as ->. left. f_equal. lia.
    + right. replace (n + S i)%nat with (S n + i)%nat by lia.
      now apply IH.
Qed.

Lemma buildGrid_in (w : World) (i : nat) (e : Entity) (ix iy : Z) :
  entities w !! i = Some e ->
  In ix (cellColumns w e) -> In iy (cellRows w e) ->
  inBucket (buildGrid w) (gridKey w ix iy) i.
Proof.
  intros Hi Hx Hy. unfold buildGrid.
  pose proof (In_combine_seq (entities w) 0 i e Hi) as Hin.
  cbn [Nat.add] in Hin.
  revert Hin. generalize (combine (seq 0 (length (entities w))) (entities w)).
  generalize ([] : Grid).
  intros g l. revert g. induction l as [|[i' e'] l IH]; intros g Hin.
  - destruct Hin.
  - cbn [fold_left fst snd]. destruct Hin as [Heq|Hin].
    + injection Heq as -> ->.
      apply fold_insertIntoGrid_mono, insertIntoGrid_in; assumption.
    + now apply IH.
Qed.

Lemma gridKey_range (w : World) (ix iy : Z) :
  (1 <= GW w)%Z -> (1 <= GH w)%Z ->
  (0 <= fst (gridKey w ix iy) < GW w)%Z
  /\ (0 <= snd (gridKey w ix iy) < GH w)%Z.
Proof.
  intros HW HH. unfold gridKey, cellKey, clampIdx. cbn [fst snd].
  destruct (WRAP_ACTIVE w).
  - rewrite !modZ_mod_eq by lia.
    split; apply Z.mod_pos_bound; lia.
  - lia.
Qed.

Lemma bucketPairs_complete (es : list Entity) (bucket nb : list nat)
  (i j : nat) (a b : Entity) :
  In i bucket -> In j nb -> es !! i = Some a -> es !! j = Some b ->
  i <> j -> (Entity._id a <= Entity._id b)%Z ->
  In (i, j) (bucketPairs es bucket nb).
Proof.
  intros Hi Hj Ha Hb Hne Hid. unfold bucketPairs.
  apply in_flat_map. exists i. split; [exact Hi|].
  apply in_flat_map. exists j. split; [exact Hj|].
  rewrite Ha, Hb. destruct (Nat.eqb_spec i j) as [|_]; [contradiction|].
  destruct (Z.gtb_spec (Entity._id a) (Entity._id b)); [lia|]. now left.
Qed.

Lemma narrowPhaseCalls_complete (w : World) (grid : Grid) (kx ky : Z)
  (i j : nat) (a b : Entity) :
  (0 <= kx < GW w)%Z -> (0 <= ky < GH w)%Z ->
  inBucket grid (kx, ky) i -> inBucket grid (kx, ky) j ->
  entities w !! i = Some a -> entities w !! j = Some b ->
  i <> j -> (Entity._id a <= Entity._id b)%Z ->
  In (i, j) (narrowPhaseCalls w grid).
Proof.
  intros Hkx Hky (bi & Hgi & Hi) (bj & Hgj & Hj) Ha Hb Hne Hid.
  rewrite Hgi in Hgj. injection Hgj as <-.
  unfold narrowPhaseCalls. apply in_flat_map.
  exists ((kx, ky), bi). split; [now apply JsMap_get_In|].
  apply in_flat_map. exists (0, 0)%Z. split.
  { unfold neighbourhood. cbn. tauto. }
  rewrite !Z.add_0_r.
  assert (Hnx : (if WRAP_ACTIVE w then modZ kx (GW w) else kx) = kx).
  { destruct (WRAP_ACTIVE w); [|reflexivity].
    rewrite modZ_mod_eq by lia. apply Z.mod_small. lia. }
  assert (Hny : (if WRAP_ACTIVE w then modZ ky (GH w) else ky) = ky).
  { destruct (WRAP_ACTIVE w); [|reflexivity].
    rewrite modZ_mod_eq by lia. apply Z.mod_small. lia. }
  rewrite Hnx, Hny.
  destruct (Z.ltb_spec kx 0); [lia|]. destruct (Z.ltb_spec ky 0); [lia|].
  destruct (Z.leb_spec (GW w) kx); [lia|].
  destruct (Z.leb_spec (GH w) ky); [lia|].
  cbn [orb]. unfold cellKey. rewrite Hgi.
  now apply (bucketPairs_complete _ _ _ i j a b).
Qed.

Lemma shared_cell (c xa ra xb rb : R) :
  0 < c -> 0 <= ra -> 0 <= rb -> - (ra + rb) <= xb - xa <= ra + rb ->
  exists k : Z,
    (Zfloor ((xa - ra) / c) <= k <= Zfloor ((xa + ra) / c))%Z
    /\ (Zfloor ((xb - rb) / c) <= k <= Zfloor ((xb + rb) / c))%Z.
Proof.
  intros Hc Hra Hrb Hd.
  assert (Hmono : forall u v, u <= v -> (Zfloor (u / c) <= Zfloor (v / c))%Z).
  { intros u v Huv. apply Zfloor_le. unfold Rdiv.
    apply Rmult_le_compat_r; [|exact Huv].
    apply Rlt_le, Rinv_0_lt_compat, Hc. }
  exists (Z.max (Zfloor ((xa - ra) / c)) (Zfloor ((xb - rb) / c))).
  assert (H1 : xa - ra <= xa + ra) by lra.
  assert (H2 : xb - rb <= xb + rb) by lra.
  assert (H3 : xa - ra <= xb + rb) by lra.
  assert (H4 : xb - rb <= xa + ra) by lra.
  apply Hmono in H1, H2, H3, H4. lia.
Qed.

(** X19. The broad phase misses no contact: when the cell size is
    positive, the grid has at least one column and one row and the radii
    are not negative, two different entities whose discs meet (by the
    plain distance of their centres, as they are when the grid is built)
    are handed to [narrowPhase] at least once in the pass, in the order of
    their ids. *)
Theorem broad_phase_complete (w : World) (i j : nat) (a b : Entity) :
  0 < CELL w -> (1 <= GW w)%Z -> (1 <= GH w)%Z ->
  entities w !! i = Some a -> entities w !! j = Some b -> i <> j ->
  0 <= Entity.r a -> 0 <= Entity.r b ->
  touching a b ->
  (Entity._id a <= Entity._id b)%Z ->
  In (i, j) (narrowPhaseCalls w (buildGrid w)).
Proof.
  intros Hc HGW HGH Ha Hb Hne Hra Hrb Ht Hid. unfold touching in Ht.
  set (dx := Entity.x b - Entity.x a) in *.
  set (dy := Entity.y b - Entity.y a) in *.
  set (m := Entity.r a + Entity.r b) in *.
  assert (Hm : 0 <= m) by (unfold m; lra).
  assert (Hdx : - m <= dx <= m) by (split; nra).
  assert (Hdy : - m <= dy <= m) by (split; nra).
  destruct (shared_cell (CELL w) (Entity.x a) (Entity.r a) (Entity.x b)
              (Entity.r b) Hc Hra Hrb Hdx) as (ix & Hxa & Hxb).
  destruct (shared_cell (CELL w) (Entity.y a) (Entity.r a) (Entity.y b)
              (Entity.r b) Hc Hra Hrb Hdy) as (iy & Hya & Hyb).
  pose proof (gridKey_range w ix iy HGW HGH) as [Hkx Hky].
  destruct (gridKey w ix iy) as [kx ky] eqn:Hk. cbn [fst snd] in Hkx, Hky.
  apply (narrowPhaseCalls_complete w _ kx ky i j a b); try assumption.
  - rewrite <- Hk. apply (buildGrid_in w i a); [exact Ha| |];
      apply In_fromTo; assumption.
  - rewrite <- Hk. apply (buildGrid_in w j b); [exact Hb| |];
      apply In_fromTo; assumption.
Qed.

Lemma broad_phase_complete_witness :
  In (0%nat, 1%nat) (narrowPhaseCalls cluster (buildGrid cluster)).
Proof.
  apply (broad_phase_complete cluster 0 1
           (Entity.new 1 0 30 20 17 0 0) (Entity.new 2 0 40 20 17 0 0)).
  - cbn. lra.
  - cbn. lia.
  - cbn. lia.
  - reflexivity.
  - reflexivity.
  - lia.
  - cbn. lra.
  - cbn. lra.
  - unfold touching, Entity.new. entity_norm. lra.
  - cbn. lia.
Defined.

Lemma bucketPush_inv (grid : Grid) (k k' : Z * Z) (ref ref' : nat) :
  inBucket (bucketPush grid k ref) k' ref' ->
  inBucket grid k' ref' \/ (k' = k /\ ref' = ref).
Proof.
  unfold inBucket, bucketPush. intros (b & Hb & Hin).
  destruct (decide (k = k')) as [->|Hne].
  - destruct (JsMap.get grid k') as [b0|] eqn:Hg;
      rewrite JsMap_get_set_eq in Hb; injection Hb as <-.
    + apply in_app_or in Hin. destruct Hin as [Hin|[<-|[]]].
      * left. now exists b0.
      * now right.
    + destruct Hin as [<-|[]]. now right.
  - left. exists b. split; [|exact Hin].
    destruct (JsMap.get grid k); now rewrite JsMap_get_set_ne in Hb.
Qed.

Lemma fold_bucketPush_inv {A} (f : A -> Z * Z) (ref : nat) (l : list A) :
  forall (grid : Grid) (k : Z * Z) (ref' : nat),
    inBucket (fold_left (fun g x => bucketPush g (f x) ref) l grid) k ref' ->
    inBucket grid k ref' \/ (ref' = ref /\ exists x, In x l /\ k = f x).
Proof.
  induction l as [|y l IH]; intros grid k ref' H; [now left|].
  cbn [fold_left] in H. apply IH in H.
  destruct H as [H|(-> & x & Hx & ->)].
  - apply bucketPush_inv in H. destruct H as [H|[-> ->]]; [now left|].
    right. split; [reflexivity|]. exists y. split; [now left | reflexivity].
  - right. split; [reflexivity|]. exists x. split; [now right | reflexivity].
Qed.

Lemma insertIntoGrid_inv (w : World) (grid : Grid) (ref : nat) (e : Entity)
  (k : Z * Z) (ref' : nat) :
  inBucket (insertIntoGrid w grid ref e) k ref' ->
  inBucket grid k ref'
  \/ (ref' = ref /\ exists ix iy, In ix (cellColumns w e)
                                  /\ In iy (cellRows w e)
                                  /\ k = gridKey w ix iy).
Proof.
  rewrite insertIntoGrid_eq. revert grid.
  induction (cellRows w e) as [|iy rows IH]; intros grid H; [now left|].
  cbn [fold_left] in H. apply IH in H.
  destruct H as [H|(-> & ix & iy' & Hx & Hy & ->)].
  - apply (fold_bucketPush_inv (fun ix => gridKey w ix iy)) in H.
    destruct H as [H|(-> & ix & Hx & ->)]; [now left|].
    right. split; [reflexivity|]. exists ix, iy.
    split; [exact Hx|]. split; [now left | reflexivity].
  - right. split; [reflexivity|]. exists ix, iy'.
    split; [exact Hx|]. split; [now right | reflexivity].
Qed.

Lemma In_combine_seq_inv {A} (l : list A) :
  forall (n i : nat) (x : A),
    In (i, x) (combine (seq n (length l)) l) ->
    (n <= i)%nat /\ l !! (i - n)%nat = Some x.
Proof.
  induction l as [|y l IH]; intros n i x Hin; [destruct Hin|].
  cbn [length seq combine] in Hin. destruct Hin as [Heq|Hin].
  - injection Heq as <- <-. split; [lia|]. now rewrite Nat.sub_diag.
  - apply IH in Hin. destruct Hin as [Hle Hl]. split; [lia|].
    replace (i - n)%nat with (S (i - S n)) by lia. exact Hl.
Qed.

Lemma not_inBucket_nil (k : Z * Z) (ref : nat) : ~ inBucket [] k ref.
Proof. intros (b & Hb & _). discriminate. Qed.

(** X20. The grid that [handleCollisionsGrid] builds files an entity
    under exactly the keys of the cells its bounding box covers: a bucket
    holds the entity [i] if and only if its key is [gridKey] of a column
    from [floor((x - r) / CELL)] to [floor((x + r) / CELL)] and a row from
    [floor((y - r) / CELL)] to [floor((y + r) / CELL)] of that entity. *)
Theorem buildGrid_spec (w : World) (k : Z * Z) (i : nat) :
  inBucket (buildGrid w) k i
  <-> exists e ix iy,
        entities w !! i = Some e
        /\ (Zfloor ((Entity.x e - Entity.r e) / CELL w) <= ix
            <= Zfloor ((Entity.x e + Entity.r e) / CELL w))%Z
        /\ (Zfloor ((Entity.y e - Entity.r e) / CELL w) <= iy
            <= Zfloor ((Entity.y e + Entity.r e) / CELL w))%Z
        /\ k = gridKey w ix iy.
Proof.
  split.
  - unfold buildGrid.
    assert (Hall : forall i e,
              In (i, e) (combine (seq 0 (length (entities w))) (entities w))
              -> entities w !! i = Some e).
    { intros i' e' Hin. apply In_combine_seq_inv in Hin.
      now rewrite Nat.sub_0_r in Hin. }
    revert Hall.
    generalize (combine (seq 0 (length (entities w))) (entities w)).
    intros l Hall.
    assert (Hgen : forall g : Grid,
      inBucket (fold_left
                  (fun grid ie => insertIntoGrid w grid (fst ie) (snd ie))
                  l g) k i ->
      inBucket g k i
      \/ exists e ix iy, In (i, e) l /\ In ix (cellColumns w e)
                         /\ In iy (cellRows w e) /\ k = gridKey w ix iy).
    { clear Hall. induction l as [|[i' e'] l IH]; intros g H; [now left|].
      cbn [fold_left fst snd] in H. apply IH in H.
      destruct H as [H|(e & ix & iy & Hin & Hx & Hy & Hk)].
      - apply insertIntoGrid_inv in H.
        destruct H as [H|(-> & ix & iy & Hx & Hy & Hk)]; [now left|].
        right. exists e', ix, iy. split; [now left|]. now split.
      - right. exists e, ix, iy. split; [now right|]. now split. }
    intros H. apply Hgen in H.
    destruct H as [H|(e & ix & iy & Hin & Hx & Hy & Hk)].
    + now apply not_inBucket_nil in H.
    + exists e, ix, iy. split; [now apply Hall|].
      split; [now apply In_fromTo|]. split; [now apply In_fromTo | exact Hk].
  - intros (e & ix & iy & He & Hx & Hy & ->).
    apply (buildGrid_in w i e); [exact He| |]; now apply In_fromTo.
Qed.

Lemma floor_span (c u v : R) :
  0 < c -> u <= v -> v - u < c ->
  (Zfloor (u / c) <= Zfloor (v / c) <= Zfloor (u / c) + 1)%Z.
Proof.
  intros Hc Huv Hlt.
  assert (Hdiv : u / c <= v / c < u / c + 1).
  { assert (Hi : 0 < / c) by now apply Rinv_0_lt_compat.
    unfold Rdiv. split; [nra|].
    apply (Rmult_lt_reg_r c); [exact Hc|].
    replace (v * / c * c) with v by (field; lra).
    replace ((u * / c + 1) * c) with (u + c) by (field; lra). lra. }
  pose proof (Zfloor_bound (u / c)) as [Hu1 Hu2].
  pose proof (Zfloor_bound (v / c)) as [Hv1 Hv2].
  split.
  - apply Zfloor_le. lra.
  - assert (Hlt' : IZR (Zfloor (v / c)) < IZR (Zfloor (u / c) + 2)).
    { rewrite plus_IZR. simpl. lra. }
    apply lt_IZR in Hlt'. lia.
Qed.

(** X21. [updateCellSize], which ends with [computeGridDims], leaves a
    cell size of at least 24 and at least [2 r + 6], and a grid of at
    least one column and one row that covers the viewport; an entity of
    a radius from 0 to [r] then lies in one or two columns and one or
    two rows of cells. *)
Theorem updateCellSize_grid (r : R) (w : World) :
  let w' := updateCellSize r w in
  24 <= CELL w' /\ 2 * r + 6 <= CELL w'
  /\ (1 <= GW w')%Z /\ (1 <= GH w')%Z
  /\ VIEW_W w <= IZR (GW w') * CELL w'
  /\ VIEW_H w <= IZR (GH w') * CELL w'
  /\ forall e, 0 <= Entity.r e <= r ->
       (1 <= length (cellColumns w' e) <= 2)%nat
       /\ (1 <= length (cellRows w' e) <= 2)%nat.
Proof.
  cbv zeta. unfold updateCellSize, computeGridDims, set_grid_dims, set_CELL.
  cbn [CELL GW GH VIEW_W VIEW_H].
  set (c := Rmax 24 (r * 2 + 6)).
  assert (Hc1 : 24 <= c) by apply Rmax_l.
  assert (Hc2 : r * 2 + 6 <= c) by apply Rmax_r.
  assert (Hc : 0 < c) by lra.
  assert (Hcover : forall v, v <= IZR (Z.max 1 (Zceil (v / c))) * c).
  { intros v. pose proof (Zceil_bound (v / c)) as [_ Hce].
    assert (Hle : IZR (Zceil (v / c)) <= IZR (Z.max 1 (Zceil (v / c))))
      by (apply IZR_le; lia).
    replace v with (v / c * c) at 1 by (field; lra).
    apply Rmult_le_compat_r; lra. }
  split; [exact Hc1|]. split; [lra|]. split; [lia|]. split; [lia|].
  split; [apply Hcover|]. split; [apply Hcover|].
  intros e Hr. unfold cellColumns, cellRows, fromTo.
  cbn [CELL]. fold c. rewrite !length_map, !length_seq.
  split.
  - assert (H1 : Entity.x e - Entity.r e <= Entity.x e + Entity.r e) by lra.
    assert (H2 : Entity.x e + Entity.r e - (Entity.x e - Entity.r e) < c)
      by lra.
    pose proof (floor_span c _ _ Hc H1 H2). lia.
  - assert (H1 : Entity.y e - Entity.r e <= Entity.y e + Entity.r e) by lra.
    assert (H2 : Entity.y e + Entity.r e - (Entity.y e - Entity.r e) < c)
      by lra.
    pose proof (floor_span c _ _ Hc H1 H2). lia.
Qed.

(** ** Cell keys *)

Lemma split_string_none (sep : ascii) (s : string) :
  hasChar sep s = false -> split_string sep s = [s].
Proof.
  induction s as [|c s IH]; cbn [hasChar split_string]; [reflexivity|].
  destruct (Ascii.eqb c sep); [discriminate|]. cbn [orb].
  intros H. now rewrite (IH H).
Qed.

Lemma split_string_first (sep : ascii) (s1 s2 : string) :
  hasChar sep s1 = false ->
  split_string sep (s1 ++ String sep s2) = s1 :: split_string sep s2.
Proof.
  induction s1 as [|c s1 IH].
  - intros _.
    change (EmptyString ++ String sep s2)%string with (String sep s2).
    cbn [split_string]. now rewrite Ascii.eqb_refl.
  - change (String c s1 ++ String sep s2)%string
      with (String c (s1 ++ String sep s2)%string).
    cbn [hasChar split_string].
    destruct (Ascii.eqb c sep); [discriminate|]. cbn [orb].
    intros H. now rewrite (IH H).
Qed.

Lemma string_of_uint_no_bar (d : uint) :
  hasChar "|" (NilEmpty.string_of_uint d) = false.
Proof. induction d; cbn; assumption || reflexivity. Qed.

Lemma NilZero_no_bar (d : uint) :
  hasChar "|" (NilZero.string_of_uint d) = false.
Proof.
  destruct d; [reflexivity|..];
    unfold NilZero.string_of_uint; apply string_of_uint_no_bar.
Qed.

Lemma numberToString_no_bar (n : Z) : hasChar "|" (numberToString n) = false.
Proof.
  unfold numberToString, NilZero.string_of_int.
  destruct (Z.to_int n) as [d|d]; [apply NilZero_no_bar|].
  cbn [hasChar]. apply NilZero_no_bar.
Qed.

Lemma stringToNumber_numberToString (n : Z) :
  stringToNumber (numberToString n) = Some n.
Proof.
  unfold stringToNumber, numberToString.
  rewrite NilZero.isi.
  - cbn [option_map]. now rewrite DecimalZ.of_to.
  - destruct n as [|p|p]; cbn; try discriminate.
    intros H. injection H as H.
    exact (DecimalPos.Unsigned.to_uint_nonnil p H).
  - destruct n as [|p|p]; cbn; try discriminate.
    intros H. injection H as H.
    exact (DecimalPos.Unsigned.to_uint_nonnil p H).
Qed.

(** X22. The string key of a cell determines the cell: splitting
    [cellKey(ix, iy)] at the bar and reading the two parts as numbers, as
    [handleCollisionsGrid] does, gives [ix] and [iy] back, so two cells
    have the same key only when they are the same cell. *)
Theorem cellKey_round_trip (ix iy : Z) :
  parseCellKey (cellKeyString ix iy) = Some (ix, iy)
  /\ forall ix' iy',
       cellKeyString ix iy = cellKeyString ix' iy' ->
       cellKey ix iy = cellKey ix' iy'.
Proof.
  assert (Hrt : forall a b, parseCellKey (cellKeyString a b) = Some (a, b)).
  { intros a b. unfold parseCellKey, cellKeyString.
    change ("|" ++ numberToString b)%string
      with (String "|" (numberToString b)).
    rewrite split_string_first by apply numberToString_no_bar.
    rewrite split_string_none by apply numberToString_no_bar.
    cbn [map]. now rewrite !stringToNumber_numberToString. }
  split; [apply Hrt|].
  intros ix' iy' Heq. pose proof (Hrt ix iy) as H1.
  rewrite Heq, Hrt in H1. unfold cellKey. congruence.
Qed.

(** ** Contact response *)

Lemma narrowPhase_contact (w : World) (a b : Entity) :
  WRAP_ACTIVE w = false -> valid_type a -> valid_type b -> touching a b ->
  let dx := Entity.x b - Entity.x a in
  let dy := Entity.y b - Entity.y a in
  let dist := contactDist (dx * dx + dy * dy) in
  let o := Rmax 0 (Entity.r a + Entity.r b - dist + EPS) in
  exists a' b',
    narrowPhase w a b = Some (a', b')
    /\ Entity.x a' = Entity.x a - dx / dist * o / 2
    /\ Entity.y a' = Entity.y a - dy / dist * o / 2
    /\ Entity.x b' = Entity.x b + dx / dist * o / 2
    /\ Entity.y b' = Entity.y b + dy / dist * o / 2.
Proof.
  intros Hwrap Hva Hvb Ht dx dy dist o. unfold touching in Ht.
  unfold narrowPhase, narrowPhaseWith, periodicDeltaWith.
  rewrite Hwrap. cbv zeta. fold dx dy. fold dist. fold o.
  fold dx dy in Ht.
  destruct (Rgt_dec _ _) as [Hfar|_]; [lra|].
  destruct (convert_shape a b Hva Hvb) as (ta & tb & -> & _ & _).
  unfold separateWith. rewrite Hwrap. cbv zeta.
  fold (bounce (dx / dist) (dy / dist)).
  match goal with |- context [bounce ?nx ?ny ?a2 ?b2] =>
    destruct (bounce_shape nx ny a2 b2) as (vxa & vya & vxb & vyb & -> & _)
  end.
  eexists _, _. split; [reflexivity|]. entity_proj.
  repeat split; reflexivity.
Qed.

(** X23. In the bounce mode [narrowPhase] pushes two entities of
    registered types that touch, with different centres and radii that
    are not negative, apart along the line of their centres: afterwards
    the centres are exactly [a.r + b.r + EPS] apart. *)
Theorem narrowPhase_separates (w : World) (a b : Entity) :
  WRAP_ACTIVE w = false -> valid_type a -> valid_type b ->
  0 <= Entity.r a -> 0 <= Entity.r b ->
  touching a b ->
  (Entity.x a <> Entity.x b \/ Entity.y a <> Entity.y b) ->
  exists a' b',
    narrowPhase w a b = Some (a', b')
    /\ sqrt ((Entity.x b' - Entity.x a') * (Entity.x b' - Entity.x a')
             + (Entity.y b' - Entity.y a') * (Entity.y b' - Entity.y a'))
       = Entity.r a + Entity.r b + EPS.
Proof.
  intros Hwrap Hva Hvb Hra Hrb Ht Hne.
  destruct (narrowPhase_contact w a b Hwrap Hva Hvb Ht)
    as (a' & b' & Hnp & Hxa & Hya & Hxb & Hyb).
  exists a', b'. split; [exact Hnp|].
  rewrite Hxa, Hya, Hxb, Hyb. clear Hnp Hxa Hya Hxb Hyb.
  unfold touching in Ht.
  set (dx := Entity.x b - Entity.x a) in *.
  set (dy := Entity.y b - Entity.y a) in *.
  set (m := Entity.r a + Entity.r b) in *.
  set (d2 := dx * dx + dy * dy) in *.
  assert (Hd2 : 0 < d2).
  { unfold d2. destruct Hne as [Hx|Hy].
    - assert (dx <> 0) by (unfold dx; lra). nra.
    - assert (dy <> 0) by (unfold dy; lra). nra. }
  assert (Hs : 0 < sqrt d2) by now apply sqrt_lt_R0.
  assert (Hcd : contactDist d2 = sqrt d2).
  { unfold contactDist. destruct (Req_dec_T (sqrt d2) 0); [lra|reflexivity]. }
  rewrite Hcd. set (d := sqrt d2) in *.
  assert (Hdd : d * d = d2) by (apply sqrt_sqrt; lra).
  assert (Hm : 0 <= m) by (unfold m; lra).
  assert (Hdm : d <= m).
  { apply Rnot_lt_le. intros Hlt. nra. }
  assert (HE : 0 < EPS) by (unfold EPS; lra).
  rewrite Rmax_right by lra.
  set (o := m - d + EPS).
  replace (Entity.x b + dx / d * o / 2 - (Entity.x a - dx / d * o / 2))
    with (dx * ((d + o) / d)) by (unfold dx; field; lra).
  replace (Entity.y b + dy / d * o / 2 - (Entity.y a - dy / d * o / 2))
    with (dy * ((d + o) / d)) by (unfold dy; field; lra).
  replace (dx * ((d + o) / d) * (dx * ((d + o) / d))
           + dy * ((d + o) / d) * (dy * ((d + o) / d)))
    with ((d + o) * (d + o)).
  - rewrite sqrt_square by (unfold o; lra). unfold o. ring.
  - transitivity (d2 * ((d + o) / d) * ((d + o) / d)); [|unfold d2; ring].
    rewrite <- Hdd. field. lra.
Qed.

Lemma narrowPhase_separates_witness :
  exists a' b',
    narrowPhase cluster (Entity.new 1 0 30 20 17 0 0)
                (Entity.new 2 0 40 20 17 0 0) = Some (a', b')
    /\ sqrt ((Entity.x b' - Entity.x a') * (Entity.x b' - Entity.x a')
             + (Entity.y b' - Entity.y a') * (Entity.y b' - Entity.y a'))
       = Entity.r (Entity.new 1 0 30 20 17 0 0)
         + Entity.r (Entity.new 2 0 40 20 17 0 0) + EPS.
Proof.
  apply narrowPhase_separates.
  - reflexivity.
  - unfold valid_type. cbn. lia.
  - unfold valid_type. cbn. lia.
  - cbn. lra.
  - cbn. lra.
  - unfold touching, Entity.new. entity_norm. lra.
  - left. cbn. lra.
Defined.

(** X24. Two entities with the same centre are not separated: in the
    bounce mode, when neither is faster than [VMAX] and the masses do not
    add up to zero, [narrowPhase] converts the loser and leaves the
    position and the velocity of both as they are. *)
Theorem narrowPhase_coincident (w : World) (a b : Entity) :
  WRAP_ACTIVE w = false -> valid_type a -> valid_type b ->
  Entity.x a = Entity.x b -> Entity.y a = Entity.y b ->
  Entity.mass a + Entity.mass b <> 0 ->
  speed_ok a -> speed_ok b ->
  exists a' b',
    narrowPhase w a b = Some (a', b') /\ convert a b = Some (a', b').
Proof.
  intros Hwrap Hva Hvb Hx Hy Hmass Hsa Hsb.
  unfold narrowPhase, narrowPhaseWith, periodicDeltaWith.
  rewrite Hwrap. cbv zeta. rewrite Hx, Hy.
  replace (Entity.x b - Entity.x b) with 0 by ring.
  replace (Entity.y b - Entity.y b) with 0 by ring.
  destruct (Rgt_dec _ _) as [Hfar|_].
  { pose proof (Rle_0_sqr (Entity.r a + Entity.r b)) as Hsq.
    unfold Rsqr in Hsq. lra. }
  destruct (convert_shape a b Hva Hvb) as (ta & tb & -> & _ & _).
  pose proof (contactDist_pos (0 * 0 + 0 * 0)) as Hd.
  set (d := contactDist (0 * 0 + 0 * 0)) in *.
  replace (0 / d) with 0 by (field; lra).
  unfold separateWith. rewrite Hwrap. cbv zeta.
  unfold bounceWith. cbv zeta. fold clampVel. entity_proj.
  set (o := Rmax 0 _).
  assert (Hsq : forall e, speed_ok e ->
            Entity.vx e * Entity.vx e + Entity.vy e * Entity.vy e
            <= VMAX * VMAX).
  { intros e He. unfold speed_ok in He. pose proof VMAX_pos.
    rewrite <- (sqrt_sqrt (Entity.vx e * Entity.vx e
                           + Entity.vy e * Entity.vy e)) by nra.
    pose proof (sqrt_pos (Entity.vx e * Entity.vx e
                          + Entity.vy e * Entity.vy e)). nra. }
  pose proof (Hsq a Hsa) as Ha2. pose proof (Hsq b Hsb) as Hb2.
  match goal with |- context [(clampVel ?a1, clampVel ?b1)] =>
    assert (Ha1 : a1 = Entity.set_t ta a)
      by (destruct a; entity_norm; f_equal; unfold Rdiv; ring);
    assert (Hb1 : b1 = Entity.set_t tb b)
      by (destruct b; entity_norm; f_equal; unfold Rdiv; ring);
    rewrite Ha1, Hb1
  end.
  rewrite !clampVel_within by (entity_proj; assumption).
  eexists _, _. split; reflexivity.
Qed.

Lemma narrowPhase_coincident_witness :
  exists a' b',
    narrowPhase atTheWall (Entity.new 1 0 17 20 17 0 0)
                (Entity.new 2 1 17 20 17 0 0) = Some (a', b')
    /\ convert (Entity.new 1 0 17 20 17 0 0) (Entity.new 2 1 17 20 17 0 0)
       = Some (a', b').
Proof.
  apply narrowPhase_coincident.
  - reflexivity.
  - unfold valid_type. cbn. lia.
  - unfold valid_type. cbn. lia.
  - reflexivity.
  - reflexivity.
  - cbn. lra.
  - apply speed_ok_sq. cbn. unfold VMAX. lra.
  - apply speed_ok_sq. cbn. unfold VMAX. lra.
Defined.

Lemma clampVel_below (e : Entity) :
  sqrt (Entity.vx (clampVel e) * Entity.vx (clampVel e)
        + Entity.vy (clampVel e) * Entity.vy (clampVel e)) < VMAX ->
  clampVel e = e.
Proof.
  intros Hlt. apply clampVel_within.
  unfold clampVel, clampVelWith in Hlt. cbv zeta in Hlt.
  destruct (Rgt_dec _ _) as [Hgt|Hle]; [|lra].
  exfalso. revert Hlt. entity_proj.
  set (v2 := Entity.vx e * Entity.vx e + Entity.vy e * Entity.vy e) in *.
  pose proof VMAX_pos as HV.
  assert (Hs : VMAX < sqrt v2).
  { rewrite <- (sqrt_square VMAX) by lra. apply sqrt_lt_1_alt.
    split; [nra | lra]. }
  replace (Entity.vx e * (VMAX / sqrt v2) * (Entity.vx e * (VMAX / sqrt v2))
           + Entity.vy e * (VMAX / sqrt v2) * (Entity.vy e * (VMAX / sqrt v2)))
    with (VMAX * VMAX).
  - rewrite sqrt_square by lra. lra.
  - transitivity (v2 * (VMAX / sqrt v2) * (VMAX / sqrt v2));
      [|unfold v2; ring].
    rewrite <- (sqrt_sqrt v2) at 1 by nra. field. lra.
Qed.

(** X25. The bounce of [narrowPhase] is elastic: along a unit normal,
    with masses that do not add up to zero and both entities left slower
    than [VMAX] (so that the clamp does not act), the momentum
    [m * v] of the pair and its kinetic energy [m * |v|^2] are the same
    after the bounce as before, and positions are untouched. *)
Theorem bounce_elastic (nx ny : R) (a b a' b' : Entity) :
  nx * nx + ny * ny = 1 ->
  Entity.mass a + Entity.mass b <> 0 ->
  bounce nx ny a b = (a', b') ->
  sqrt (Entity.vx a' * Entity.vx a' + Entity.vy a' * Entity.vy a') < VMAX ->
  sqrt (Entity.vx b' * Entity.vx b' + Entity.vy b' * Entity.vy b') < VMAX ->
  Entity.mass a * Entity.vx a' + Entity.mass b * Entity.vx b'
  = Entity.mass a * Entity.vx a + Entity.mass b * Entity.vx b
  /\ Entity.mass a * Entity.vy a' + Entity.mass b * Entity.vy b'
     = Entity.mass a * Entity.vy a + Entity.mass b * Entity.vy b
  /\ Entity.mass a
       * (Entity.vx a' * Entity.vx a' + Entity.vy a' * Entity.vy a')
     + Entity.mass b
       * (Entity.vx b' * Entity.vx b' + Entity.vy b' * Entity.vy b')
     = Entity.mass a * (Entity.vx a * Entity.vx a + Entity.vy a * Entity.vy a)
       + Entity.mass b
         * (Entity.vx b * Entity.vx b + Entity.vy b * Entity.vy b)
  /\ Entity.x a' = Entity.x a /\ Entity.y a' = Entity.y a
  /\ Entity.x b' = Entity.x b /\ Entity.y b' = Entity.y b.
Proof.
  intros Hn Hm Hb Ha' Hb'.
  unfold bounce, bounceWith in Hb. cbv zeta in Hb. fold clampVel in Hb.
  injection Hb as Hea Heb.
  rewrite <- Hea in Ha'. rewrite <- Heb in Hb'.
  apply clampVel_below in Ha', Hb'.
  rewrite Ha' in Hea. rewrite Hb' in Heb. clear Ha' Hb'.
  subst a' b'. entity_proj. unfold REST.
  set (ma := Entity.mass a) in *. set (mb := Entity.mass b) in *.
  set (vxa := Entity.vx a). set (vya := Entity.vy a).
  set (vxb := Entity.vx b). set (vyb := Entity.vy b).
  split; [field; exact Hm|]. split; [field; exact Hm|].
  split; [|repeat split; reflexivity].
  set (u := vxa * nx + vya * ny). set (v := vxb * nx + vyb * ny).
  apply Rminus_diag_uniq.
  match goal with |- ?l - ?r = 0 =>
    transitivity (4 * ma * mb * (u - v) * (u - v) / (ma + mb)
                  * (nx * nx + ny * ny - 1))
  end.
  - unfold u, v. field. exact Hm.
  - rewrite Hn. field. exact Hm.
Qed.

Lemma bounce_elastic_witness :
  let a := Entity.new 1 0 30 20 17 60 0 in
  let b := Entity.new 2 0 40 20 17 0 0 in
  let a' := Entity.set_vy 0 (Entity.set_vx 0 a) in
  let b' := Entity.set_vy 0 (Entity.set_vx 60 b) in
  Entity.mass a * Entity.vx a' + Entity.mass b * Entity.vx b'
  = Entity.mass a * Entity.vx a + Entity.mass b * Entity.vx b
  /\ Entity.mass a * Entity.vy a' + Entity.mass b * Entity.vy b'
     = Entity.mass a * Entity.vy a + Entity.mass b * Entity.vy b
  /\ Entity.mass a
       * (Entity.vx a' * Entity.vx a' + Entity.vy a' * Entity.vy a')
     + Entity.mass b
       * (Entity.vx b' * Entity.vx b' + Entity.vy b' * Entity.vy b')
     = Entity.mass a * (Entity.vx a * Entity.vx a + Entity.vy a * Entity.vy a)
       + Entity.mass b
         * (Entity.vx b * Entity.vx b + Entity.vy b * Entity.vy b)
  /\ Entity.x a' = Entity.x a /\ Entity.y a' = Entity.y a
  /\ Entity.x b' = Entity.x b /\ Entity.y b' = Entity.y b.
Proof.
  cbv zeta. apply (bounce_elastic 1 0).
  - lra.
  - unfold Entity.new. entity_norm. lra.
  - unfold bounce, bounceWith. cbv zeta. fold clampVel.
    rewrite !clampVel_within
      by (unfold Entity.new, REST, VMAX; entity_norm; nra).
    unfold Entity.new, REST. entity_norm. f_equal; f_equal; field.
  - unfold Entity.new. entity_norm.
    replace (0 * 0 + 0 * 0) with 0 by ring. rewrite sqrt_0.
    unfold VMAX. lra.
  - unfold Entity.new. entity_norm.
    replace (60 * 60 + 0 * 0) with (60 * 60) by ring.
    rewrite sqrt_square by lra. unfold VMAX. lra.
Defined.

(** X26. In the wrap mode, for two points of the torus,
    [periodicDelta] is the shortest displacement: each component differs
    from the plain difference by the viewport size or not at all, is at
    most half the viewport size in absolute value, and changes sign when
    the two points are exchanged. *)
Theorem periodicDelta_shortest (w : World) (ax ay bx by_ : R) :
  WRAP_ACTIVE w = true ->
  0 <= ax < VIEW_W w -> 0 <= bx < VIEW_W w ->
  0 <= ay < VIEW_H w -> 0 <= by_ < VIEW_H w ->
  let (dx, dy) := periodicDelta w ax ay bx by_ in
  (dx = bx - ax \/ dx = bx - ax - VIEW_W w \/ dx = bx - ax + VIEW_W w)
  /\ (dy = by_ - ay \/ dy = by_ - ay - VIEW_H w \/ dy = by_ - ay + VIEW_H w)
  /\ - (VIEW_W w / 2) <= dx <= VIEW_W w / 2
  /\ - (VIEW_H w / 2) <= dy <= VIEW_H w / 2
  /\ periodicDelta w bx by_ ax ay = (- dx, - dy).
Proof.
  intros Hwrap Hax Hbx Hay Hby.
  unfold periodicDelta, periodicDeltaWith. rewrite Hwrap. cbv zeta.
  set (W := VIEW_W w) in *. set (H := VIEW_H w) in *.
  assert (HxW : - W / 2 = - (W / 2)) by field.
  assert (HxH : - H / 2 = - (H / 2)) by field.
  rewrite HxW, HxH.
  destruct (Rgt_dec (bx - ax) (W / 2)); destruct (Rlt_dec (bx - ax) (- (W / 2)));
    destruct (Rgt_dec (by_ - ay) (H / 2));
    destruct (Rlt_dec (by_ - ay) (- (H / 2)));
    destruct (Rgt_dec (ax - bx) (W / 2));
    destruct (Rlt_dec (ax - bx) (- (W / 2)));
    destruct (Rgt_dec (ay - by_) (H / 2));
    destruct (Rlt_dec (ay - by_) (- (H / 2)));
    try (exfalso; lra);
    (split; [lra|]); (split; [lra|]); (split; [lra|]); (split; [lra|]);
    f_equal; lra.
Qed.

Lemma periodicDelta_shortest_witness :
  let (dx, dy) :=
    periodicDelta (set_WRAP_ACTIVE true emptyWorld) 10 20 790 580 in
  (dx = 790 - 10 \/ dx = 790 - 10 - VIEW_W (set_WRAP_ACTIVE true emptyWorld)
   \/ dx = 790 - 10 + VIEW_W (set_WRAP_ACTIVE true emptyWorld))
  /\ (dy = 580 - 20 \/ dy = 580 - 20 - VIEW_H (set_WRAP_ACTIVE true emptyWorld)
      \/ dy = 580 - 20 + VIEW_H (set_WRAP_ACTIVE true emptyWorld))
  /\ - (VIEW_W (set_WRAP_ACTIVE true emptyWorld) / 2) <= dx
     <= VIEW_W (set_WRAP_ACTIVE true emptyWorld) / 2
  /\ - (VIEW_H (set_WRAP_ACTIVE true emptyWorld) / 2) <= dy
     <= VIEW_H (set_WRAP_ACTIVE true emptyWorld) / 2
  /\ periodicDelta (set_WRAP_ACTIVE true emptyWorld) 790 580 10 20
     = (- dx, - dy).
Proof.
  apply periodicDelta_shortest; [reflexivity|..]; cbn; lra.
Defined.

(** ** The frame loop and the count fields *)








Lemma parse_print_small (v : Z) :
  (0 <= v <= MAX_ENTITIES_PER_TYPE)%Z ->
  parseInt10 (charCodes (numberToString v)) = Some v.
Proof.
  intros Hv.
  assert (Hall : forallb (fun n =>
            match parseInt10 (charCodes (numberToString (Z.of_nat n))) with
            | Some u => (u =? Z.of_nat n)%Z
            | None => false
            end) (seq 0 501) = true) by (vm_compute; reflexivity).
  rewrite forallb_forall in Hall.
  specialize (Hall (Z.to_nat v)).
  rewrite Z2Nat.id in Hall by lia.
  destruct (parseInt10 _) as [u|].
  - f_equal. apply Z.eqb_eq. apply Hall. apply in_seq.
    unfold MAX_ENTITIES_PER_TYPE in Hv. lia.
  - discriminate Hall. apply in_seq.
    unfold MAX_ENTITIES_PER_TYPE in Hv. lia.
Qed.

(** X28. [clampInput] always leaves the decimal digits of a whole number
    from 0 to [MAX_ENTITIES_PER_TYPE] in the field: the number that
    [parseInt] reads from the old text, clamped to that range, and 0 when
    it reads none.  Reading the new text gives that number back, so
    clamping a second time changes nothing. *)
Theorem clampInput_spec (value : JsString) :
  let v := Z.max 0 (Z.min (match parseInt10 value with
                           | Some v => v
                           | None => 0%Z
                           end) MAX_ENTITIES_PER_TYPE) in
  (0 <= v <= MAX_ENTITIES_PER_TYPE)%Z
  /\ clampInput value = charCodes (numberToString v)
  /\ parseInt10 (clampInput value) = Some v
  /\ clampInput (clampInput value) = clampInput value.
Proof.
  cbv zeta. set (v := Z.max 0 _).
  assert (Hv : (0 <= v <= MAX_ENTITIES_PER_TYPE)%Z).
  { unfold v, MAX_ENTITIES_PER_TYPE. lia. }
  assert (Hc : clampInput value = charCodes (numberToString v))
    by reflexivity.
  assert (Hp : parseInt10 (clampInput value) = Some v).
  { rewrite Hc. now apply parse_print_small. }
  split; [exact Hv|]. split; [exact Hc|]. split; [exact Hp|].
  unfold clampInput at 1. cbv zeta. rewrite Hp.
  rewrite Z.min_l by lia. rewrite Z.max_r by lia. symmetry. exact Hc.
Qed.
